(** * Redrock: refinement of chi-squared minima (fitz.py), archetype
    scoring (archetypes.py) and spectrum construction (targets.py).

    A shallow embedding of the Python sources.  numpy float64 values are
    modelled as exact rationals [Q]; infinities and NaN are outside the
    model, and IEEE rounding is modelled for [minfit] alone (module
    [float64]), where it decides what the function returns.  Python
    exceptions are values of [exn] threaded through a small error monad;
    numpy arrays held by reference live in a store indexed by locations. *)

From Stdlib Require Import QArith Qabs Qminmax Qreduction Qcanon Qfield Lqa Lia ZArith.
From Stdlib Require Import List Sorted Permutation String Znumtheory.
From Stdlib Require Floats.
From stdpp Require Import gmap list.

Local Open Scope Q_scope.

(** ** Python exceptions and the error monad *)

Inductive exn : Type :=
| AssertionError
| IndexError
| TypeError
| ValueError
| LinAlgError.

Definition py (A : Type) : Type := (exn + A)%type.

Definition raise {A : Type} (e : exn) : py A := inl e.
Definition ret {A : Type} (a : A) : py A := inr a.

Definition bind {A B : Type} (m : py A) (k : A -> py B) : py B :=
  match m with
  | inl e => inl e
  | inr a => k a
  end.

Notation "'do' x <- m ; k" := (bind m (fun x => k))
  (at level 10, x pattern, m at level 100, k at level 200).

Fixpoint mapM {A B : Type} (f : A -> py B) (l : list A) : py (list B) :=
  match l with
  | [] => ret []
  | a :: l' => do b <- f a; do bs <- mapM f l'; ret (b :: bs)
  end.

(** [l[i]] for a non-negative index. *)
Definition getitem {A : Type} (l : list A) (i : nat) : py A :=
  match l !! i with
  | Some a => ret a
  | None => raise IndexError
  end.

(** [l[-k]] for [k >= 1]. *)
Definition getitem_neg {A : Type} (l : list A) (k : nat) : py A :=
  if (k <=? length l)%nat then getitem l (length l - k)%nat else raise IndexError.

(** [a[ii]] with an integer index array. *)
Definition take_idx {A : Type} (a : list A) (ii : list nat) : py (list A) :=
  mapM (getitem a) ii.

(** ** numpy primitives on one-dimensional arrays *)

Definition Qltb (a b : Q) : bool := negb (Qle_bool b a).

(** [x[1:]] and [x[:-1]]. *)
Definition from1 {A : Type} (x : list A) : list A := drop 1 x.
Definition upto_last {A : Type} (x : list A) : list A := take (length x - 1) x.

(** Elementwise [a <= b] on arrays of one shape. *)
Definition np_le (a b : list Q) : list bool := zip_with Qle_bool a b.

(** [np.where(mask)[0]]: the positions holding [True], ascending. *)
Fixpoint np_where_from (i : nat) (mask : list bool) : list nat :=
  match mask with
  | [] => []
  | b :: m => if b then i :: np_where_from (S i) m else np_where_from (S i) m
  end.
Definition np_where (mask : list bool) : list nat := np_where_from 0 mask.

(** [np.argsort]: positions ordered by ascending key.  This is a stable
    insertion sort, so equal keys keep their index order; numpy's default
    sort orders by key as well but is not stable, and [npysort.argsort]
    below replays it.  What is proved of the callers of [argsort] rests on
    the keys being in ascending order, never on the order of equal keys. *)
Fixpoint insert_key (key : nat -> Q) (i : nat) (l : list nat) : list nat :=
  match l with
  | [] => [i]
  | j :: l' => if Qle_bool (key i) (key j) then i :: j :: l'
               else j :: insert_key key i l'
  end.

Definition argsort (xs : list Q) : list nat :=
  let key i := nth i xs 0 in
  foldr (insert_key key) [] (seq 0 (length xs)).

(** [np.argsort(a)] with the default [kind] is numpy's [aquicksort]
    (npysort/quicksort.cpp): an introsort on the index array [tosort] with
    keys [v], median-of-three partitioning, insertion sort for ranges of at
    most 17 elements and heapsort once the depth limit is spent.  It is not
    stable.  Pointers into [tosort] are positions in [Z]. *)
Module npysort.
Section Aquicksort.

Variable v : list Q.

Definition at_ (tosort : list nat) (p : Z) : nat := nth (Z.to_nat p) tosort 0%nat.
Definition key_at (tosort : list nat) (p : Z) : Q := nth (at_ tosort p) v 0.
Definition put_ (tosort : list nat) (p : Z) (i : nat) : list nat :=
  <[Z.to_nat p := i]> tosort.

(** [INTP_SWAP] on the entries at [p] and [q]. *)
Definition INTP_SWAP (tosort : list nat) (p q : Z) : list nat :=
  put_ (put_ tosort q (at_ tosort p)) p (at_ tosort q).

(** [do { ++pi; } while (less(v[*pi], vp));], entered after the increment. *)
Fixpoint scan_up (fuel : nat) (tosort : list nat) (vp : Q) (pi : Z) : Z :=
  match fuel with
  | O => pi
  | S f => if Qltb (key_at tosort pi) vp then scan_up f tosort vp (pi + 1) else pi
  end.

(** [do { --pj; } while (less(vp, v[*pj]));], entered after the decrement. *)
Fixpoint scan_down (fuel : nat) (tosort : list nat) (vp : Q) (pj : Z) : Z :=
  match fuel with
  | O => pj
  | S f => if Qltb vp (key_at tosort pj) then scan_down f tosort vp (pj - 1) else pj
  end.

(** The [for (;;)] loop of the partition: the list and the final [pi]. *)
Fixpoint partition_loop (fuel : nat) (tosort : list nat) (vp : Q) (pi pj : Z)
  : list nat * Z :=
  match fuel with
  | O => (tosort, pi)
  | S f =>
    let pi := scan_up (length tosort) tosort vp (pi + 1) in
    let pj := scan_down (length tosort) tosort vp (pj - 1) in
    if (pi >=? pj)%Z then (tosort, pi)
    else partition_loop f (INTP_SWAP tosort pi pj) vp pi pj
  end.

(** One pass of the [while ((pr - pl) > SMALL_QUICKSORT)] loop up to the
    push: median of three, partition, pivot put in place at [pi]. *)
Definition partition (tosort : list nat) (pl pr : Z) : list nat * Z :=
  let pm := (pl + Z.shiftr (pr - pl) 1)%Z in
  let tosort := if Qltb (key_at tosort pm) (key_at tosort pl)
                then INTP_SWAP tosort pm pl else tosort in
  let tosort := if Qltb (key_at tosort pr) (key_at tosort pm)
                then INTP_SWAP tosort pr pm else tosort in
  let tosort := if Qltb (key_at tosort pm) (key_at tosort pl)
                then INTP_SWAP tosort pm pl else tosort in
  let vp := key_at tosort pm in
  let pj := (pr - 1)%Z in
  let tosort := INTP_SWAP tosort pm pj in
  let '(tosort, pi) := partition_loop (length tosort) tosort vp pl pj in
  (INTP_SWAP tosort pi (pr - 1), pi).

(** [while (pj > pl && less(vp, v[*pk])) { *pj-- = *pk--; }  *pj = vi;] *)
Fixpoint shift_up (fuel : nat) (tosort : list nat) (vp : Q) (vi : nat) (pl pj : Z)
  : list nat :=
  match fuel with
  | O => put_ tosort pj vi
  | S f =>
    if (pj >? pl)%Z && Qltb vp (key_at tosort (pj - 1))
    then shift_up f (put_ tosort pj (at_ tosort (pj - 1))) vp vi pl (pj - 1)
    else put_ tosort pj vi
  end.

(** The insertion sort of [tosort[pl..pr]]. *)
Definition insertion_sort (tosort : list nat) (pl pr : Z) : list nat :=
  fold_left (fun t k =>
               let pi := (pl + 1 + Z.of_nat k)%Z in
               let vi := at_ t pi in
               shift_up (length t) t (nth vi v 0) vi pl pi)
            (seq 0 (Z.to_nat (pr - pl))) tosort.

(** [aheapsort_(v, pl, n)]: [a = tosort - 1] makes the heap one-based, so
    heap position [k] is [tosort[pl + k - 1]]. *)
Fixpoint sift_down (fuel : nat) (tosort : list nat) (pl n : Z) (tmp : nat) (i j : Z)
  : list nat :=
  let a k := (pl + k - 1)%Z in
  match fuel with
  | O => put_ tosort (a i) tmp
  | S f =>
    if (j <=? n)%Z then
      let j := if (j <? n)%Z && Qltb (key_at tosort (a j)) (key_at tosort (a (j + 1)%Z))
               then (j + 1)%Z else j in
      if Qltb (nth tmp v 0) (key_at tosort (a j))
      then sift_down f (put_ tosort (a i) (at_ tosort (a j))) pl n tmp j (j + j)
      else put_ tosort (a i) tmp
    else put_ tosort (a i) tmp
  end.

Definition aheapsort (tosort : list nat) (pl n : Z) : list nat :=
  let a k := (pl + k - 1)%Z in
  let tosort :=
    fold_left (fun t k =>
                 let l := (Z.shiftr n 1 - Z.of_nat k)%Z in
                 sift_down (length t) t pl n (at_ t (a l)) l (Z.shiftl l 1))
              (seq 0 (Z.to_nat (Z.shiftr n 1))) tosort in
  fold_left (fun t k =>
               let n := (n - Z.of_nat k)%Z in
               let tmp := at_ t (a n) in
               let t := put_ t (a n) (at_ t (a 1%Z)) in
               sift_down (length t) t pl (n - 1) tmp 1 2)
            (seq 0 (Z.to_nat (n - 1))) tosort.

(** The outer loop from one stacked range [pl..pr] with its depth budget:
    heapsort when a popped range has no budget left, else partition while
    the range is longer than 17, going on with the smaller side and
    stacking the larger, then insertion sort. *)
Fixpoint aquicksort_range (fuel : nat) (tosort : list nat) (pl pr cdepth : Z)
  (popped : bool) : list nat :=
  match fuel with
  | O => tosort
  | S f =>
    if popped && (cdepth <? 0)%Z then aheapsort tosort pl (pr - pl + 1)
    else if (pr - pl >? 16)%Z then
      let '(tosort, pi) := partition tosort pl pr in
      let cdepth := (cdepth - 1)%Z in
      if (pi - pl <? pr - pi)%Z
      then aquicksort_range f (aquicksort_range f tosort pl (pi - 1) cdepth false)
                            (pi + 1) pr cdepth true
      else aquicksort_range f (aquicksort_range f tosort (pi + 1) pr cdepth false)
                            pl (pi - 1) cdepth true
    else insertion_sort tosort pl pr
  end.

(** What the sort guarantees, range by range.  Outside the positions
    [lo..hi], [t] holds what [t0] holds. *)
Definition same_outside (lo hi : Z) (t t0 : list nat) : Prop :=
  forall p : Z, (0 <= p)%Z -> (p < lo \/ hi < p)%Z -> at_ t p = at_ t0 p.

(** The keys at positions [lo..hi] of [t] ascend. *)
Definition ascending (lo hi : Z) (t : list nat) : Prop :=
  forall p q : Z,
    (lo <= p)%Z -> (p <= q)%Z -> (q <= hi)%Z -> key_at t p <= key_at t q.

(** What a sort of the range [lo..hi] owes its caller: from [t] it makes
    [r], the same entries with those of the range in ascending order of
    key and the others where they were. *)
Definition sorts_range (lo hi : Z) (t r : list nat) : Prop :=
  length r = length t /\ Permutation r t
  /\ same_outside lo hi r t /\ ascending lo hi r.

(** [c] is a child of [k] in the one-based heap. *)
Definition child (k c : Z) : Prop := (c = 2 * k \/ c = 2 * k + 1)%Z.

(** From heap position [lo] on, no child has a greater key than its
    parent, in the heap of [n] entries that starts at [pl]. *)
Definition heap_from (pl lo n : Z) (t : list nat) : Prop :=
  forall k c, (lo <= k)%Z -> child k c -> (c <= n)%Z ->
              key_at t (pl + c - 1) <= key_at t (pl + k - 1).

End Aquicksort.

(** [np.argsort(v)]: the depth budget is twice the position of the highest
    set bit of the length. *)
Definition argsort (v : list Q) : list nat :=
  let num := Z.of_nat (length v) in
  aquicksort_range v (S (length v)) (seq 0 (length v)) 0 (num - 1)
                   (Z.log2 num * 2) true.

End npysort.

(** [np.argmin]: first position of the least value; [ValueError] on an empty
    array. *)
Fixpoint argmin_from (best : Q) (ibest i : nat) (l : list Q) : nat :=
  match l with
  | [] => ibest
  | v :: l' => if Qltb v best then argmin_from v i (S i) l'
               else argmin_from best ibest (S i) l'
  end.
Definition argmin (l : list Q) : py nat :=
  match l with
  | [] => raise ValueError
  | v :: l' => ret (argmin_from v 0%nat 1%nat l')
  end.

Definition np_min (l : list Q) : py Q :=
  match l with
  | [] => raise ValueError
  | v :: l' => ret (fold_left Qmin l' v)
  end.
Definition np_max (l : list Q) : py Q :=
  match l with
  | [] => raise ValueError
  | v :: l' => ret (fold_left Qmax l' v)
  end.

(** [np.linspace(start, stop, num)] for [num >= 2]. *)
Definition linspace (start stop : Q) (num : nat) : list Q :=
  let step := (stop - start) / inject_Z (Z.of_nat (num - 1)) in
  map (fun i => start + inject_Z (Z.of_nat i) * step) (seq 0 num).

Definition Qsum (l : list Q) : Q := fold_right Qplus 0 l.

Definition det3 (a11 a12 a13 a21 a22 a23 a31 a32 a33 : Q) : Q :=
  a11 * (a22 * a33 - a23 * a32)
  - a12 * (a21 * a33 - a23 * a31)
  + a13 * (a21 * a32 - a22 * a31).

(** [np.polyfit(x, y, 2)]: the coefficients [(a, b, c)] of the least-squares
    parabola [a x^2 + b x + c], in exact arithmetic: the minimiser is taken
    from the normal equations by Cramer's rule, and a rank-deficient system
    is reported as [LinAlgError], the failure [minfit] catches.  numpy
    solves the problem in float64 by a singular value decomposition: its
    coefficients carry rounding error (a leading coefficient that is zero
    here is a tiny non-zero number there), and on a rank-deficient system
    it warns and returns the fit of least norm.  [float64.minfit] below
    takes the rounded coefficients as they come.  Arrays of different
    lengths are a [TypeError] in numpy. *)
Definition polyfit2 (x y : list Q) : py (Q * Q * Q) :=
  if negb (length x =? length y)%nat then raise TypeError
  else
    let S k := Qsum (map (fun xi => xi ^ k) x) in
    let T k := Qsum (zip_with (fun xi yi => xi ^ k * yi) x y) in
    let d := det3 (S 4%Z) (S 3%Z) (S 2%Z) (S 3%Z) (S 2%Z) (S 1%Z) (S 2%Z) (S 1%Z) (S 0%Z) in
    if Qeq_bool d 0 then raise LinAlgError
    else
      let da := det3 (T 2%Z) (S 3%Z) (S 2%Z) (T 1%Z) (S 2%Z) (S 1%Z) (T 0%Z) (S 1%Z) (S 0%Z) in
      let db := det3 (S 4%Z) (T 2%Z) (S 2%Z) (S 3%Z) (T 1%Z) (S 1%Z) (S 2%Z) (T 0%Z) (S 0%Z) in
      let dc := det3 (S 4%Z) (S 3%Z) (T 2%Z) (S 3%Z) (S 2%Z) (T 1%Z) (S 2%Z) (S 1%Z) (T 0%Z) in
      ret (da / d, db / d, dc / d).

(** ** targets.py *)

Module targets.

(** Arrays are passed and stored by reference: a location names an array in
    the store. *)
Definition loc : Type := positive.
Definition store : Type := gmap loc (list Q).

Definition deref (h : store) (l : loc) : py (list Q) :=
  match h !! l with
  | Some a => ret a
  | None => raise TypeError
  end.

(** [scipy.sparse.dia_matrix]: [data[k][j]] holds the entry of row
    [j - offsets[k]] and column [j]. *)
Record dia_matrix : Type := {
  data : list (list Q);
  offsets : list Z;
  nrows : nat;
  ncols : nat
}.

Record csr_matrix : Type := {
  csr_indices : list nat;
  csr_indptr : list nat;
  csr_data : list Q
}.

(** Entry [(i, i + off)] of a stored diagonal, zero outside the matrix. *)
Definition diag_entry (ncol : nat) (i : nat) (diag : list Q) (off : Z) : Q :=
  let j := (Z.of_nat i + off)%Z in
  if ((0 <=? j) && (j <? Z.of_nat ncol))%Z then nth (Z.to_nat j) diag 0 else 0.

(** [np.asarray(R.sum(axis=1))[:,0]] *)
Definition row_sums (R : dia_matrix) : list Q :=
  map (fun i => Qsum (zip_with (diag_entry (ncols R) i) (data R) (offsets R)))
      (seq 0 (nrows R)).

(** [a[w] = 0.] with a boolean mask [w] of the shape of [a]. *)
Definition mask_zero (w : list bool) (a : list Q) : list Q :=
  zip_with (fun (b : bool) v => if b then 0 else v) w a.

Record Spectrum : Type := {
  nwave : nat;
  wave : loc;
  flux : loc;
  ivar : loc;
  R : option dia_matrix;
  _Rcsr : option csr_matrix;
  _mpshared : bool;
  (** the tuple handed to [hash] *)
  wavehash : nat * Q * Q * Q * Q * option nat
}.

Section Init.

(** [constants.min_resolution_integral] *)
Variable min_resolution_integral : Q.

(** Lines 32-34 of [Spectrum.__init__]: the write to the caller's [ivar]. *)
Definition zero_unresolved (ivar : loc) (R : option dia_matrix) (h : store)
  : store * py unit :=
  match R with
  | None => (h, ret tt)
  | Some r =>
    let w := map (fun s => Qltb s min_resolution_integral) (row_sums r) in
    match h !! ivar with
    | None => (h, raise TypeError)
    | Some a =>
      if (length w =? length a)%nat then (<[ivar := mask_zero w a]> h, ret tt)
      else (h, raise IndexError)
    end
  end.

(** [Spectrum.__init__(self, wave, flux, ivar, R, Rcsr=None)] *)
Definition Spectrum_init (wave flux ivar : loc) (R : option dia_matrix)
    (Rcsr : option csr_matrix) (h : store) : store * py Spectrum :=
  let '(h1, r) := zero_unresolved ivar R h in
  (h1,
   do _ <- r;
   do w <- deref h1 wave;
   do w0 <- getitem w 0;
   do w1 <- getitem w 1;
   do wm2 <- getitem_neg w 2;
   do wm1 <- getitem_neg w 1;
   ret {| nwave := length w; wave := wave; flux := flux; ivar := ivar;
          R := R; _Rcsr := Rcsr; _mpshared := false;
          wavehash := (length w, w0, w1, wm2, wm1,
                       match R with
                       | Some r => Some (length (data r))
                       | None => None
                       end) |}).

End Init.

End targets.

(** ** Calling a Python method: the positional arguments must match the
    parameters after [self], else the call is a [TypeError] and the body
    does not run. *)
Definition py_call {A : Type} (nparams nargs : nat) (body : py A) : py A :=
  if (nargs =? nparams)%nat then body else raise TypeError.

(** ** archetypes.py *)

Module archetypes.

Import targets.

Record Archetype : Type := {
  _rrtype : string;
  _subtype : list string;
  _narch : nat;
  arch_wave : list Q;
  arch_flux : list (list Q)
}.

Section Scorer.

(** [trapz_rebin] of archetype [i] at redshift [z] onto the wavelength grids,
    followed by [_zchi2_one] on the design matrix with the Legendre columns
    (rebin.py and _zscan.py): the chi-squared and the coefficients. *)
Variable arch_zchi2_one :
  store -> list Spectrum -> Archetype -> nat -> Q -> Q * list Q.

(** Positional parameters of [get_best_archetype] after [self]:
    spectra, weights, flux, wflux, dwave, z, legendre. *)
Definition get_best_archetype_nparams : nat := 7.

(** [Archetype.get_best_archetype(self, spectra, weights, flux, wflux, dwave,
    z, legendre)] *)
Definition get_best_archetype (self : Archetype) (h : store)
    (spectra : list Spectrum) (z : Q) : py (Q * list Q * string) :=
  let fits := map (fun i => arch_zchi2_one h spectra self i z)
                  (seq 0 (_narch self)) in
  let zzchi2 := map fst fits in
  let zzcoeff := map snd fits in
  do iBest <- argmin zzchi2;
  do c <- getitem zzchi2 iBest;
  do co <- getitem zzcoeff iBest;
  do st <- getitem (_subtype self) iBest;
  ret (c, co, st).

End Scorer.

End archetypes.

(** ** fitz.py *)

Module fitz.

Import targets archetypes.

(** [scipy.constants.speed_of_light / 1000.], in km/s. *)
Definition speed_of_light_km : Q := 299792458 # 1000.

(** [get_dv(z, zref)] *)
Definition get_dv (z zref : Q) : Q :=
  speed_of_light_km * (z - zref) / (1 + zref).

(** [find_minima(x)] *)
Definition find_minima (x : list Q) : py (list nat) :=
  let mask := zip_with andb (true :: np_le (from1 x) (upto_last x))
                            (np_le (upto_last x) (from1 x) ++ [true]) in
  let ii := np_where mask in
  do xi <- take_idx x ii;
  let jj := argsort xi in
  take_idx ii jj.

(** [find_minima(x)] with the routine behind [np.argsort] left open:
    [find_minima_with argsort] is [fitz.find_minima], and
    [find_minima_with npysort.argsort] is the function as numpy's default
    sort runs it. *)
Definition find_minima_with (sort : list Q -> list nat) (x : list Q)
  : py (list nat) :=
  let mask := zip_with andb (true :: np_le (from1 x) (upto_last x))
                            (np_le (upto_last x) (from1 x) ++ [true]) in
  let ii := np_where mask in
  do xi <- take_idx x ii;
  let jj := sort xi in
  take_idx ii jj.

(** [l[a:b]] for [0 <= a <= b]. *)
Definition slice {A : Type} (l : list A) (a b : nat) : list A :=
  take (b - a) (drop a l).

Record Template : Type := { nbasis : nat }.

(** One entry of the [results] list: the dict appended by [fitz].  The key
    [fulltype] exists only on the archetype path. *)
Record Minimum : Type := {
  z : Q;
  zerr : Q;
  zwarn : Z;
  chi2 : Q;
  zz : list Q;
  zzchi2 : list Q;
  coeff : list Q;
  fulltype : option string
}.

(** The returned dict of stacked columns, one row per minimum. *)
Record Table : Type := {
  t_z : list Q;
  t_zerr : list Q;
  t_zwarn : list Z;
  t_chi2 : list Q;
  t_zz : list (list Q);
  t_zzchi2 : list (list Q);
  t_coeff : list (list Q);
  t_fulltype : option (list string);
  t_npixels : list nat
}.

Section Minfit.

(** [np.sqrt], and the bit [ZW.BAD_MINFIT] of the warning mask
    (zwarning.py). *)
Variable np_sqrt : Q -> Q.
Variable BAD_MINFIT : Z.

Definition bad_fit : Q * Q * Q * Z := (-(1), -(1), -(1), BAD_MINFIT).

(** [minfit(x, y)] *)
Definition minfit (x y : list Q) : py (Q * Q * Q * Z) :=
  if (length x <? 3)%nat then ret bad_fit
  else
    match polyfit2 x y with
    | inl LinAlgError => ret bad_fit
    | inl e => raise e
    | inr (a, b, c) =>
      if Qeq_bool a 0 then ret bad_fit
      else
        let x0 := - b / (2 * a) in
        let y0 := - (b ^ 2) / (4 * a) + c in
        let zwarn := 0%Z in
        do xmin <- np_min x;
        do xmax <- np_max x;
        let zwarn := if Qle_bool x0 xmin || Qle_bool xmax x0
                     then Z.lor zwarn BAD_MINFIT else zwarn in
        let zwarn := if Qle_bool y0 0 then Z.lor zwarn BAD_MINFIT else zwarn in
        let '(xerr, zwarn) :=
          if Qltb 0 a then (1 / np_sqrt a, zwarn)
          else (1 / np_sqrt (- a), Z.lor zwarn BAD_MINFIT) in
        ret (x0, xerr, y0, zwarn)
    end.

End Minfit.

Section Fitz.

Variable np_sqrt : Q -> Q.
(** [ZW.BAD_MINFIT], [ZW.Z_FITLIMIT] (zwarning.py) and
    [constants.max_velo_diff] (constants.py). *)
Variable BAD_MINFIT Z_FITLIMIT : Z.
Variable max_velo_diff : Q.

(** [rebin_template], the [transmission_Lyman] correction and
    [calc_zchi2_batch] (rebin.py, utils.py, zscan.py) at one redshift: the
    chi-squared and the [nbasis] coefficients, or the exception raised.  A
    batch is evaluated redshift by redshift. *)
Variable calc_zchi2 :
  store -> list Spectrum -> Template -> Q -> py (Q * list Q).

Variable arch_zchi2_one :
  store -> list Spectrum -> Archetype -> nat -> Q -> Q * list Q.

Variable h : store.
Variable zchi2_in redshifts : list Q.
Variable spectra : list Spectrum.
Variable template : Template.
Variable nminima : nat.
Variable archetype : option Archetype.

Definition nz : nat := 15.

(** [np.any(np.abs(get_dv(z, zprev)) < constants.max_velo_diff)] *)
Definition too_close (zc : Q) (zprev : list Q) : bool :=
  existsb (fun dv => Qltb (Qabs dv) max_velo_diff) (map (get_dv zc) zprev).

(** Lines 198-218: evaluation at [zmin], with the [ValueError] handler. *)
Definition eval_at_zmin (zmin : Q) (zwarn : Z) : py (list Q * Z) :=
  match calc_zchi2 h spectra template zmin with
  | inr (_, coeff) => ret (coeff, zwarn)
  | inl ValueError =>
    do r0 <- getitem redshifts 0;
    do rl <- getitem_neg redshifts 1;
    if Qltb zmin r0 || Qltb rl zmin
    then ret (repeat 0 (nbasis template),
              Z.lor (Z.lor zwarn Z_FITLIMIT) BAD_MINFIT)
    else raise ValueError
  | inl e => raise e
  end.

(** Lines 223-228: a vertex outside the fine scan is replaced by the scan's
    own least point. *)
Definition scan_fallback (zz zzchi2 : list Q) (zbest chi2min : Q) (zwarn : Z)
  : py (Q * Q * Z) :=
  do z0 <- getitem zz 0;
  do zl <- getitem_neg zz 1;
  if Qltb zbest z0 || Qltb zl zbest then
    do m <- np_min zzchi2;
    do imin <- getitem (np_where (map (fun v => Qeq_bool v m) zzchi2)) 0;
    do zb <- getitem zz imin;
    do c <- getitem zzchi2 imin;
    ret (zb, c, Z.lor zwarn BAD_MINFIT)
  else ret (zbest, chi2min, zwarn).

(** Lines 230-234. *)
Definition edge_flags (zbest zmin : Q) (zwarn : Z) : py Z :=
  do r1 <- getitem redshifts 1;
  do rm2 <- getitem_neg redshifts 2;
  let zwarn := if Qltb zbest r1 || Qltb rm2 zbest
               then Z.lor zwarn Z_FITLIMIT else zwarn in
  let zwarn := if Qltb zmin r1 || Qltb rm2 zmin
               then Z.lor zwarn Z_FITLIMIT else zwarn in
  ret zwarn.

(** Lines 243-252: the appended dict. *)
Definition make_result (zbest zerr : Q) (zwarn : Z) (chi2min : Q)
    (zz zzchi2 coeff : list Q) : py Minimum :=
  match archetype with
  | None =>
    ret {| z := zbest; zerr := zerr; zwarn := zwarn; chi2 := chi2min;
           zz := zz; zzchi2 := zzchi2; coeff := coeff; fulltype := None |}
  | Some a =>
    (* nine positional arguments: spectra, weights, flux, wflux, dwave,
       zbest, legendre, nearest_nbh, n_nbh *)
    do (chi2a, coeffa, ft) <-
      py_call get_best_archetype_nparams 9
        (get_best_archetype arch_zchi2_one a h spectra zbest);
    ret {| z := zbest; zerr := zerr; zwarn := zwarn; chi2 := chi2a;
           zz := zz; zzchi2 := zzchi2; coeff := coeffa; fulltype := Some ft |}
  end.

(** Lines 171-196: the fine scan around the candidate and the parabola
    through the three points about its least value. *)
Definition fine_fit (imin : nat) : py (list Q * list Q * (Q * Q * Q * Z)) :=
  let ilo := Nat.max 0 (imin - 1) in
  let ihi := Nat.min (imin + 1) (length zchi2_in - 1) in
  do zlo <- getitem redshifts ilo;
  do zhi <- getitem redshifts ihi;
  let zz := linspace zlo zhi nz in
  do fine <- mapM (calc_zchi2 h spectra template) zz;
  let zzchi2 := map fst fine in
  do am <- argmin zzchi2;
  let i := Nat.min (Nat.max am 1) (length zz - 2) in
  do fit <- minfit np_sqrt BAD_MINFIT (slice zz (i - 1) (i + 2))
                                      (slice zzchi2 (i - 1) (i + 2));
  ret (zz, zzchi2, fit).

(** Lines 198-252: from the fitted vertex to the appended dict, [None] when
    the late check skips the candidate. *)
Definition accept (zprev zz zzchi2 : list Q) (fit : Q * Q * Q * Z)
  : py (option Minimum) :=
  let '(zmin, sigma, chi2min, zwarn) := fit in
  do (coeff, zwarn) <- eval_at_zmin zmin zwarn;
  let zbest := zmin in
  let zerr := sigma in
  do (zbest, chi2min, zwarn) <- scan_fallback zz zzchi2 zbest chi2min zwarn;
  do zwarn <- edge_flags zbest zmin zwarn;
  if too_close zbest zprev then ret None
  else
    do r <- make_result zbest zerr zwarn chi2min zz zzchi2 coeff;
    ret (Some r).

(** One pass of the loop body (lines 164-252) for the candidate [imin]:
    [None] when the candidate is skipped by [continue], the dict to append
    otherwise. *)
Definition refine (results : list Minimum) (imin : nat) : py (option Minimum) :=
  let zprev := map z results in
  do zc <- getitem redshifts imin;
  if too_close zc zprev then ret None
  else
    do (zz, zzchi2, fit) <- fine_fit imin;
    accept zprev zz zzchi2 fit.

(** The [for imin in find_minima(zchi2)] loop, with its [break]. *)
Fixpoint refine_all (cands : list nat) (results : list Minimum)
  : py (list Minimum) :=
  match cands with
  | [] => ret results
  | imin :: rest =>
    if (length results =? nminima)%nat then ret results
    else
      do r <- refine results imin;
      match r with
      | None => refine_all rest results
      | Some m => refine_all rest (results ++ [m])
      end
  end.

(** [(s.ivar > 0.).sum()] over all spectra. *)
Definition count_positive (a : list Q) : nat :=
  length (filter (fun v => Qltb 0 v = true) a).

Fixpoint npixels (ss : list Spectrum) : py nat :=
  match ss with
  | [] => ret 0%nat
  | s :: ss' =>
    do a <- deref h (ivar s);
    do n <- npixels ss';
    ret (count_positive a + n)%nat
  end.

(** Lines 267-281: the list of dicts turned into one dict of columns. *)
Definition to_table (results : list Minimum) (npix : nat) : Table :=
  {| t_z := map z results;
     t_zerr := map zerr results;
     t_zwarn := map zwarn results;
     t_chi2 := map chi2 results;
     t_zz := map zz results;
     t_zzchi2 := map zzchi2 results;
     t_coeff := map coeff results;
     t_fulltype := match archetype with
                   | None => None
                   | Some _ => Some (omap fulltype results)
                   end;
     t_npixels := map (fun _ => npix) results |}.

(** Lines 139-145: the Legendre setup concatenates the wavelength grids and
    fails on an empty list of spectra. *)
Definition legendre_setup : py unit :=
  match archetype, spectra with
  | Some _, [] => raise ValueError
  | _, _ => ret tt
  end.

(** Lines 254-256. *)
Definition sort_by_chi2 (results : list Minimum) : py (list Minimum) :=
  take_idx results (argsort (map chi2 results)).

(** [fitz(zchi2, redshifts, spectra, template, nminima, archetype)] *)
Definition fitz : py Table :=
  if negb (length zchi2_in =? length redshifts)%nat then raise AssertionError
  else
    do _ <- legendre_setup;
    do cands <- find_minima zchi2_in;
    do results <- refine_all cands [];
    do results <- sort_by_chi2 results;
    if negb (0 <? length results)%nat then raise AssertionError
    else
      do npix <- (match results with [] => ret 0%nat | _ => npixels spectra end);
      ret (to_table results npix).

End Fitz.

End fitz.

(** ** minfit in float64 *)

(** [minfit] as Python runs it, on IEEE binary64 values with every operation
    rounded to nearest.  [np.polyfit] is LAPACK's least-squares solver and
    is left open: it returns three coefficients or raises.  [b**2] is the
    rounded square. *)
Module float64.
Import Floats.
Local Open Scope float_scope.

Section Minfit.

Variable np_polyfit : list float -> list float -> py (float * float * float).
Variable BAD_MINFIT : Z.

Definition bad_fit : float * float * float * Z := (-1, -1, -1, BAD_MINFIT).

Definition np_min (l : list float) : py float :=
  match l with
  | [] => raise ValueError
  | v :: l' => ret (fold_left (fun m w => if w <? m then w else m) l' v)
  end.
Definition np_max (l : list float) : py float :=
  match l with
  | [] => raise ValueError
  | v :: l' => ret (fold_left (fun m w => if m <? w then w else m) l' v)
  end.

(** [minfit(x, y)] *)
Definition minfit (x y : list float) : py (float * float * float * Z) :=
  if (length x <? 3)%nat then ret bad_fit
  else
    match np_polyfit x y with
    | inl LinAlgError => ret bad_fit
    | inl e => raise e
    | inr (a, b, c) =>
      if a =? 0 then ret bad_fit
      else
        let x0 := (- b) / (2 * a) in
        let y0 := (- (b * b)) / (4 * a) + c in
        let zwarn := 0%Z in
        do xmin <- np_min x;
        do xmax <- np_max x;
        let zwarn := if (x0 <=? xmin) || (xmax <=? x0)
                     then Z.lor zwarn BAD_MINFIT else zwarn in
        let zwarn := if y0 <=? 0 then Z.lor zwarn BAD_MINFIT else zwarn in
        let '(xerr, zwarn) :=
          if 0 <? a then (1 / sqrt a, zwarn)
          else (1 / sqrt (- a), Z.lor zwarn BAD_MINFIT) in
        ret (x0, xerr, y0, zwarn)
    end.

End Minfit.




End float64.

(** ** Predicates used in the statements *)

(** Position [i] of [x] holds a value no greater than either neighbour, a
    missing neighbour counting as satisfied. *)
Definition local_min (x : list Q) (i : nat) : Prop :=
  (i < length x)%nat
  /\ (i = 0%nat \/ nth i x 0 <= nth (i - 1) x 0)
  /\ (S i = length x \/ nth i x 0 <= nth (S i) x 0).

(** Ascending value, equal values in index order. *)
Definition value_then_index (x : list Q) (i j : nat) : Prop :=
  nth i x 0 < nth j x 0 \/ (nth i x 0 == nth j x 0 /\ (i < j)%nat).

(** Ascending key, equal keys in index order. *)
Definition key_then_index (key : nat -> Q) (i j : nat) : Prop :=
  key i < key j \/ (key i == key j /\ (i < j)%nat).

(** What numpy documents of [np.argsort]: the positions of the array, each
    once, in an order that sorts it.  The order of equal keys is left to the
    sort. *)
Definition sorts_ascending (sort : list Q -> list nat) : Prop :=
  forall xs,
    Permutation (sort xs) (seq 0 (length xs))
    /\ StronglySorted (fun i j => nth i xs 0 <= nth j xs 0) (sort xs).


(** The mask [find_minima] hands to [np.where]. *)
Definition minima_mask (x : list Q) : list bool :=
  zip_with andb (true :: np_le (from1 x) (upto_last x))
                (np_le (upto_last x) (from1 x) ++ [true]).

(** The bits of [flag] are all set in [zwarn]. *)
Definition has_flag (zwarn flag : Z) : Prop := Z.land zwarn flag = flag.

(** [z] is at least [max_velo_diff] km/s away from the reference [zref]. *)
Definition apart (max_velo_diff z zref : Q) : Prop :=
  max_velo_diff <= Qabs (fitz.get_dv z zref).

(** The mask [w] of [Spectrum.__init__]: the rows of [R] that integrate to
    less than [min_resolution_integral]. *)
Definition unresolved (min_resolution_integral : Q) (r : targets.dia_matrix)
  : list bool :=
  map (fun s => Qltb s min_resolution_integral) (targets.row_sums r).

(** What [fitz] guarantees of one accepted result: a fine scan of [nz]
    points, and a redshift that either lies within the scan or is the scan's
    own least point, flagged as a bad fit. *)
Definition fine_scan_ok (BAD_MINFIT : Z) (m : fitz.Minimum) : Prop :=
  length (fitz.zz m) = fitz.nz /\ length (fitz.zzchi2 m) = fitz.nz
  /\ ((exists z0 zl,
         fitz.zz m !! 0%nat = Some z0 /\ fitz.zz m !! (fitz.nz - 1)%nat = Some zl
         /\ z0 <= fitz.z m /\ fitz.z m <= zl)
      \/ (has_flag (fitz.zwarn m) BAD_MINFIT
          /\ exists k,
               fitz.zz m !! k = Some (fitz.z m)
               /\ fitz.zzchi2 m !! k = Some (fitz.chi2 m)
               /\ forall c, In c (fitz.zzchi2 m) -> fitz.chi2 m <= c)).

(** ** targets.py: Target and its coadd *)

(** *** More of numpy: broadcasting, masks, interpolation *)

(** A binary operation on two one-dimensional arrays under numpy's
    broadcasting: equal lengths, or one of the two of length 1. *)
Definition broadcast (f : Q -> Q -> Q) (a b : list Q) : py (list Q) :=
  if (length a =? length b)%nat then ret (zip_with f a b)
  else
    match a, b with
    | [x], _ => ret (map (f x) b)
    | _, [y] => ret (map (fun x => f x y) a)
    | _, _ => raise ValueError
    end.

(** The in-place form [a op= b]: [b] must broadcast to the shape of [a]. *)
Definition broadcast_to (f : Q -> Q -> Q) (a b : list Q) : py (list Q) :=
  if (length b =? length a)%nat then ret (zip_with f a b)
  else
    match b with
    | [y] => ret (map (fun x => f x y) a)
    | _ => raise ValueError
    end.

(** A two-dimensional array is the list of its rows.  [M op v], [M op= v]
    with [v] one-dimensional, and [A op B], [A op= B] on two arrays of as
    many rows. *)
Definition rows_op (f : Q -> Q -> Q) (M : list (list Q)) (v : list Q)
  : py (list (list Q)) :=
  mapM (fun row => broadcast f row v) M.

Definition rows_iop (f : Q -> Q -> Q) (M : list (list Q)) (v : list Q)
  : py (list (list Q)) :=
  mapM (fun row => broadcast_to f row v) M.

Definition rows_op2 (f : Q -> Q -> Q) (A B : list (list Q))
  : py (list (list Q)) :=
  mapM (fun ab => broadcast f (fst ab) (snd ab)) (zip A B).

Definition rows_iop2 (f : Q -> Q -> Q) (A B : list (list Q))
  : py (list (list Q)) :=
  if (length B =? length A)%nat
  then mapM (fun ab => broadcast_to f (fst ab) (snd ab)) (zip A B)
  else
    match B with
    | [b] => mapM (fun a => broadcast_to f a b) A
    | _ => raise ValueError
    end.

(** [np.array(rows)] on a list of one-dimensional arrays: the rows must have
    one length (numpy 1.24 and later raise [ValueError] on ragged input). *)
Definition np_array2 (rows : list (list Q)) : py (list (list Q)) :=
  match rows with
  | [] => ret []
  | r :: rs =>
    if forallb (fun r' => (length r' =? length r)%nat) rs then ret rows
    else raise ValueError
  end.

(** [M.shape[1]]; an array without rows has no width here. *)
Definition shape1 (M : list (list Q)) : nat :=
  match M with
  | [] => 0%nat
  | r :: _ => length r
  end.

(** [np.sum(M, axis=0)] *)
Definition col_sums (M : list (list Q)) : list Q :=
  match M with
  | [] => []
  | r :: rs => fold_left (zip_with Qplus) rs r
  end.

(** [M[:, j]] *)
Definition column (M : list (list Q)) (j : nat) : list Q :=
  map (fun row => nth j row 0) M.

(** [a[mask]] with a boolean mask. *)
Fixpoint select (a : list Q) (mask : list bool) : list Q :=
  match a, mask with
  | v :: a', b :: m' => if b then v :: select a' m' else select a' m'
  | _, _ => []
  end.

Definition np_select (a : list Q) (mask : list bool) : py (list Q) :=
  if (length mask =? length a)%nat then ret (select a mask)
  else raise IndexError.

(** [a[mask] = vals]: the values go, in order, to the positions holding
    [True]. *)
Fixpoint put (a : list Q) (mask : list bool) (vals : list Q) : list Q :=
  match a, mask with
  | v :: a', true :: m' =>
    match vals with
    | x :: vals' => x :: put a' m' vals'
    | [] => v :: put a' m' []
    end
  | v :: a', false :: m' => v :: put a' m' vals
  | _, _ => a
  end.

(** [a[mask] = c] with a scalar [c]. *)
Definition mask_fill (c : Q) (mask : list bool) (a : list Q) : list Q :=
  zip_with (fun (b : bool) v => if b then c else v) mask a.

(** [a[mask] = vals] with an array [vals]: as many values as positions
    holding [True], or a single value for all of them. *)
Definition np_put (a : list Q) (mask : list bool) (vals : list Q)
  : py (list Q) :=
  if negb (length mask =? length a)%nat then raise IndexError
  else if (length vals =? length (select a mask))%nat then ret (put a mask vals)
  else
    match vals with
    | [x] => ret (mask_fill x mask a)
    | _ => raise ValueError
    end.

(** [np.argmax]: first position of the greatest value. *)
Fixpoint argmax_from (best : Q) (ibest i : nat) (l : list Q) : nat :=
  match l with
  | [] => ibest
  | v :: l' => if Qltb best v then argmax_from v i (S i) l'
               else argmax_from best ibest (S i) l'
  end.
Definition argmax (l : list Q) : py nat :=
  match l with
  | [] => raise ValueError
  | v :: l' => ret (argmax_from v 0%nat 1%nat l')
  end.

(** [np.interp(x, xp, fp)] on increasing sample points [xp]: constant
    outside of them, linear between two neighbours. *)
Fixpoint interp_from (x : Q) (xp fp : list Q) : Q :=
  match xp, fp with
  | x0 :: xp', y0 :: fp' =>
    match xp', fp' with
    | x1 :: _, y1 :: _ =>
      if Qltb x x1 then
        if Qeq_bool x0 x then y0
        else (y1 - y0) / (x1 - x0) * (x - x0) + y0
      else interp_from x xp' fp'
    | _, _ => y0
    end
  | _, _ => 0
  end.

Definition np_interp (x xp fp : list Q) : py (list Q) :=
  if negb (length xp =? length fp)%nat then raise ValueError
  else
    match xp, fp with
    | x0 :: _, y0 :: _ =>
      ret (map (fun v => if Qltb v x0 then y0 else interp_from v xp fp) x)
    | _, _ => raise ValueError
    end.

Module Target.

Import targets.

(** The exceptions of [exn], and the [AttributeError] of reading an
    attribute of [None]. *)
Inductive error : Type :=
| Exn (e : exn)
| AttributeError.

Definition pyx (A : Type) : Type := (error + A)%type.

Definition lift {A : Type} (m : py A) : pyx A :=
  match m with
  | inl e => inl (Exn e)
  | inr a => inr a
  end.

Definition bindx {A B : Type} (m : pyx A) (k : A -> pyx B) : pyx B :=
  match m with
  | inl e => inl e
  | inr a => k a
  end.

Notation "'dox' x <- m ; k" := (bindx m (fun x => k))
  (at level 10, x pattern, m at level 100, k at level 200).

(** [s.R.data], [s.R.offsets]: [AttributeError] on a spectrum built with
    [R = None]. *)
Definition R_of (s : Spectrum) : pyx dia_matrix :=
  match R s with
  | Some r => inr r
  | None => inl AttributeError
  end.

(** A new array is an object of its own: it takes a location the store does
    not use. *)
Definition fresh_loc (h : store) : loc :=
  Pos.succ (map_fold (fun k _ m => Pos.max k m) 1%positive h).

Definition alloc (a : list Q) (h : store) : loc * store :=
  (fresh_loc h, <[fresh_loc h := a]> h).

(** [scipy.sparse.dia_matrix((data, offsets), shape=(n, n))]: as many
    offsets as diagonals, no offset twice. *)
Definition dia_matrix_new (d : list (list Q)) (offs : list Z) (n : nat)
  : py dia_matrix :=
  if negb (length d =? length offs)%nat then raise ValueError
  else if negb (bool_decide (NoDup offs)) then raise ValueError
  else ret {| data := d; offsets := offs; nrows := n; ncols := n |}.

(** The attributes [id], [spectra] and [meta] of a target. *)
Record Target (Meta : Type) : Type := {
  targetid : Z;
  spectra : list Spectrum;
  meta : Meta
}.
Arguments targetid {Meta} _.
Arguments spectra {Meta} _.
Arguments meta {Meta} _.

Section Coadd.

(** [constants.min_resolution_integral]; Python's [hash] on the tuple kept
    in [wavehash]; the order in which a [set] of hashes is iterated; and
    scipy's [tocsr]. *)
Variable min_resolution_integral : Q.
Variable py_hash : nat * Q * Q * Q * Q * option nat -> Z.
Variable set_iter : list Z -> list Z.
Variable tocsr : dia_matrix -> csr_matrix.

(** Lines 178-193: the gradient of one spectrum and its variance, bad
    samples interpolated over. *)
Definition gradient (wave flux ivar : list Q) : py (list Q * list Q) :=
  let good := map (fun v => Qltb 0 v) ivar in
  let bad := map (fun v => Qeq_bool v 0) ivar in
  do xb <- np_select wave bad;
  do xg <- np_select wave good;
  do fg <- np_select flux good;
  do fb <- np_interp xb xg fg;
  do tflux <- np_put flux bad fb;
  do ig <- np_select ivar good;
  do ib <- np_interp xb xg ig;
  do tivar <- np_put ivar bad ib;
  let bad := map (fun v => Qle_bool v 0) tivar in
  do least <- np_min (select tivar (map (fun v => Qltb 0 v) tivar));
  let tivar := mask_fill least bad tivar in
  let tvar := map (fun v => 1 / v) tivar in
  let tflux := match tflux with
               | [] => []
               | v :: rest => v :: zip_with Qminus rest tflux
               end in
  let tvar := match tvar with
              | [] => []
              | v :: rest => v :: zip_with Qplus rest tvar
              end in
  match tflux with
  | [] => raise IndexError
  | _ :: rest => ret (0 :: rest, tvar)
  end.

(** [ivar[k][j] = 0.] *)
Definition zero_at (ivar : list (list Q)) (k j : nat) : py (list (list Q)) :=
  do row <- getitem ivar k;
  do _ <- getitem row j;
  ret (<[k := <[j := 0]> row]> ivar).

(** Lines 198-212: the samples that stand out of the spectra's common
    gradient lose their weight. *)
Definition reject_outliers (cosmics_nsig : Q) (grad gradvar ivar : list (list Q))
  : py (list (list Q)) :=
  do grad <- np_array2 grad;
  do gradvar <- np_array2 gradvar;
  let gradivar := map (map (fun v => 1 / v)) gradvar in
  let nspec := length grad in
  do wgrad <- rows_op2 Qmult gradivar grad;
  let meangrad := map (fun v => v / Qsum (concat gradivar)) (col_sums wgrad) in
  do deltagrad <- rows_op Qminus grad meangrad;
  do wdelta <- rows_op2 (fun g d => g * d ^ 2) gradivar deltagrad;
  let chi2 := map (fun v => v / (inject_Z (Z.of_nat nspec) - 1))
                  (col_sums wdelta) in
  let jj := np_where (map (fun c => Qltb (cosmics_nsig ^ 2) c) chi2) in
  foldl (fun acc j =>
           do ivar <- acc;
           do k <- argmax (column wdelta j);
           zero_at ivar k j)
        (ret ivar) jj.

(** What the loop over the spectra of one wavelength grid (lines 158-193)
    has gathered. *)
Record Group : Type := {
  g_wave : loc;
  g_Rdiags : list (list Q);
  g_offsets : list Z;
  g_flux : list (list Q);
  g_ivar : list (list Q);
  g_grad : list (list Q);
  g_gradvar : list (list Q)
}.

(** One pass of the inner loop for a spectrum of the current key. *)
Definition gather (cosmics_nsig : Q) (h : store) (g : option Group)
    (s : Spectrum) : pyx Group :=
  dox g1 <-
    match g with
    | None =>
      dox r <- R_of s;
      dox iv <- lift (deref h (ivar s));
      dox Rd <- lift (rows_op Qmult (data r) iv);
      inr {| g_wave := wave s; g_Rdiags := Rd; g_offsets := offsets r;
             g_flux := []; g_ivar := []; g_grad := []; g_gradvar := [] |}
    | Some g =>
      dox sw <- lift (deref h (wave s));
      dox w <- lift (deref h (g_wave g));
      if negb (length sw =? length w)%nat then inl (Exn AssertionError)
      else
        dox r <- R_of s;
        dox iv <- lift (deref h (ivar s));
        dox X <- lift (rows_op Qmult (data r) iv);
        dox Rd <- lift (rows_iop2 Qplus (g_Rdiags g) X);
        inr {| g_wave := g_wave g; g_Rdiags := Rd; g_offsets := g_offsets g;
               g_flux := g_flux g; g_ivar := g_ivar g;
               g_grad := g_grad g; g_gradvar := g_gradvar g |}
    end;
  dox fl <- lift (deref h (flux s));
  dox iv <- lift (deref h (ivar s));
  dox gr <-
    (if Qltb 0 cosmics_nsig then
       dox w <- lift (deref h (g_wave g1));
       dox tg <- lift (gradient w fl iv);
       inr (g_grad g1 ++ [fst tg], g_gradvar g1 ++ [snd tg])
     else inr (g_grad g1, g_gradvar g1));
  inr {| g_wave := g_wave g1; g_Rdiags := g_Rdiags g1;
         g_offsets := g_offsets g1;
         g_flux := g_flux g1 ++ [fl]; g_ivar := g_ivar g1 ++ [iv];
         g_grad := fst gr; g_gradvar := snd gr |}.

(** The inner loop: the spectra whose [wavehash] is [key], in order. *)
Fixpoint gather_all (cosmics_nsig : Q) (h : store) (key : Z)
    (g : option Group) (ss : list Spectrum) : pyx (option Group) :=
  match ss with
  | [] => inr g
  | s :: ss' =>
    if negb (py_hash (wavehash s) =? key)%Z
    then gather_all cosmics_nsig h key g ss'
    else
      dox g1 <- gather cosmics_nsig h g s;
      gather_all cosmics_nsig h key (Some g1) ss'
  end.

(** Lines 195-221: the coadded flux, the summed weights and the diagonals
    of the coadded resolution. *)
Definition combine (cosmics_nsig : Q) (g : Group)
  : py (list Q * list Q * list (list Q)) :=
  let nspec := length (g_flux g) in
  do flux <- np_array2 (g_flux g);
  do ivar <- np_array2 (g_ivar g);
  do ivar <- (if (1 <? length (g_grad g))%nat && Qltb 0 cosmics_nsig
              then reject_outliers cosmics_nsig (g_grad g) (g_gradvar g) ivar
              else ret ivar);
  let unweightedflux := col_sums flux in
  let weights := col_sums ivar in
  do wf <- rows_op2 Qmult ivar flux;
  let weightedflux := col_sums wf in
  let isbad := map (fun w => Qeq_bool w 0) weights in
  let norm := zip_with (fun w (b : bool) => w + (if b then 1 else 0))
                       weights isbad in
  do flux <- broadcast Qdiv weightedflux norm;
  do ub <- np_select unweightedflux isbad;
  do flux <- np_put flux isbad
                    (map (fun u => u / inject_Z (Z.of_nat nspec)) ub);
  do Rdiags <- rows_iop Qdiv (g_Rdiags g) norm;
  ret (flux, weights, Rdiags).

(** The body of the outer loop for one key (lines 147-230): the coadd of
    the spectra of that key, built by [Spectrum.__init__] on new arrays.  A
    key that no spectrum carries cannot come out of the set of their hashes;
    the empty sums it would leave end in a [TypeError]. *)
Definition coadd_key (cache_Rcsr : bool) (cosmics_nsig : Q)
    (ss : list Spectrum) (h : store) (key : Z) : store * pyx Spectrum :=
  match gather_all cosmics_nsig h key None ss with
  | inl e => (h, inl e)
  | inr None => (h, inl (Exn TypeError))
  | inr (Some g) =>
    match combine cosmics_nsig g with
    | inl e => (h, inl (Exn e))
    | inr (flux, weights, Rdiags) =>
      let nwave := shape1 Rdiags in
      match dia_matrix_new Rdiags (g_offsets g) nwave with
      | inl e => (h, inl (Exn e))
      | inr R =>
        let Rcsr := if cache_Rcsr then Some (tocsr R) else None in
        let '(lf, h1) := alloc flux h in
        let '(lw, h2) := alloc weights h1 in
        let '(h3, r) := Spectrum_init min_resolution_integral (g_wave g)
                                      lf lw (Some R) Rcsr h2 in
        (h3, lift r)
      end
    end
  end.

(** The outer loop. *)
Fixpoint coadd_keys (cache_Rcsr : bool) (cosmics_nsig : Q)
    (ss : list Spectrum) (h : store) (keys : list Z)
  : store * pyx (list Spectrum) :=
  match keys with
  | [] => (h, inr [])
  | key :: keys' =>
    let '(h1, r) := coadd_key cache_Rcsr cosmics_nsig ss h key in
    match r with
    | inl e => (h1, inl e)
    | inr spc =>
      let '(h2, r') := coadd_keys cache_Rcsr cosmics_nsig ss h1 keys' in
      (h2, dox rest <- r'; inr (spc :: rest))
    end
  end.

(** [Target.compute_coadd(self, cache_Rcsr=False, cosmics_nsig=0.)]: the
    target with its spectra replaced by the coadds; on an exception the
    target is as it was. *)
Definition compute_coadd {Meta : Type} (self : Target Meta)
    (cache_Rcsr : bool) (cosmics_nsig : Q) (h : store)
  : store * pyx (Target Meta) :=
  let keys := set_iter (map (fun s => py_hash (wavehash s)) (spectra self)) in
  let '(h1, r) := coadd_keys cache_Rcsr cosmics_nsig (spectra self) h keys in
  (h1, dox coadd <- r;
       inr {| targetid := targetid self; spectra := coadd;
              meta := meta self |}).

(** [Target.__init__(self, targetid, spectra, coadd=False, cosmics_nsig=0.,
    meta=None)]; [empty] is the new [dict()]. *)
Definition Target_init {Meta : Type} (empty : Meta) (targetid : Z)
    (spectra : list Spectrum) (coadd : bool) (cosmics_nsig : Q)
    (meta : option Meta) (h : store) : store * pyx (Target Meta) :=
  let self := {| targetid := targetid; spectra := spectra;
                 meta := match meta with
                         | None => empty
                         | Some m => m
                         end |} in
  if coadd then compute_coadd self false cosmics_nsig h
  else (h, inr self).

End Coadd.

End Target.

(** The first spectrum of [ss] whose hash is [key]. *)
Definition first_of_key (py_hash : nat * Q * Q * Q * Q * option nat -> Z)
    (key : Z) (ss : list targets.Spectrum) : option targets.Spectrum :=
  List.find (fun s => (py_hash (targets.wavehash s) =? key)%Z) ss.

(** What the coadd [spc] returned for [key] is, between the store [h] the
    call started from and the store [h'] it left: on the wavelength array of
    the first spectrum of that key, with a resolution matrix on that
    spectrum's offsets, and on two arrays of its own. *)
Definition coadd_of (py_hash : nat * Q * Q * Q * Q * option nat -> Z)
    (ss : list targets.Spectrum) (h h' : targets.store) (key : Z)
    (spc : targets.Spectrum) : Prop :=
  exists s r r',
    first_of_key py_hash key ss = Some s /\ targets.R s = Some r
    /\ targets.wave spc = targets.wave s
    /\ targets.R spc = Some r'
    /\ targets.offsets r' = targets.offsets r
    /\ targets.nrows r' = targets.ncols r'
    /\ h !! targets.flux spc = None /\ h !! targets.ivar spc = None
    /\ targets.flux spc <> targets.ivar spc
    /\ is_Some (h' !! targets.flux spc) /\ is_Some (h' !! targets.ivar spc).

(** The spectrum [s] is an exposure on a grid of [n] samples in the store
    [h]: its flux and weights are the arrays [fi.1] and [fi.2] of [n]
    values, its wavelength array has [n] values, and its resolution matrix
    has [nd] stored diagonals of [n] entries, on [nd] distinct offsets. *)
Definition exposure (h : targets.store) (n nd : nat) (s : targets.Spectrum)
    (fi : list Q * list Q) : Prop :=
  h !! targets.flux s = Some (fst fi) /\ length (fst fi) = n
  /\ h !! targets.ivar s = Some (snd fi) /\ length (snd fi) = n
  /\ exists w r,
       h !! targets.wave s = Some w /\ length w = n
       /\ targets.R s = Some r
       /\ length (targets.data r) = nd
       /\ Forall (fun d => length d = n) (targets.data r)
       /\ length (targets.offsets r) = nd /\ NoDup (targets.offsets r).

(** [sum_i a_i b_i] *)
Definition dot (a b : list Q) : Q := Qsum (zip_with Qmult a b).

(** What the inner loop has gathered after the exposures [fis] of a grid of
    [n] samples: their arrays in order, and [nd] summed diagonals of [n]
    entries. *)
Definition gathered (h : targets.store) (n nd : nat) (g : Target.Group)
    (fis : list (list Q * list Q)) : Prop :=
  Target.g_flux g = map fst fis /\ Target.g_ivar g = map snd fis
  /\ length (Target.g_Rdiags g) = nd
  /\ Forall (fun d => length d = n) (Target.g_Rdiags g)
  /\ (exists w, h !! Target.g_wave g = Some w /\ length w = n)
  /\ length (Target.g_offsets g) = nd /\ NoDup (Target.g_offsets g).

(** The spectra [ss] of a target are the exposures [fis] of one grid of
    [n >= 2] samples, under one hash. *)
Definition one_grid (py_hash : nat * Q * Q * Q * Q * option nat -> Z)
    (set_iter : list Z -> list Z) (h : targets.store) (n nd : nat)
    (ss : list targets.Spectrum) (fis : list (list Q * list Q)) : Prop :=
  Forall2 (exposure h n nd) ss fis /\ ss <> []
  /\ (2 <= n)%nat /\ (1 <= nd)%nat
  /\ exists key,
       Forall (fun s => py_hash (targets.wavehash s) = key) ss
       /\ set_iter (map (fun s => py_hash (targets.wavehash s)) ss) = [key].

(** With rejection on, the gradient of the exposure [fi] on any grid of
    [n] wavelengths is defined. *)
Definition graded (n : nat) (nsig : Q) (fi : list Q * list Q) : Prop :=
  Qltb 0 nsig = true ->
  forall w, length w = n ->
    exists r, Target.gradient w (fst fi) (snd fi) = inr r.

(** ** Concrete instances used in the examples *)

Module examples.

Import targets archetypes fitz.

(** A computable square root: exact on squares of rationals, the integer
    parts of numerator and denominator otherwise. *)
Definition Qsqrt (q : Q) : Q :=
  let r := Qred q in
  Z.sqrt (Qnum r) # Z.to_pos (Z.sqrt (Zpos (Qden r))).

(** The values of the warning bits in zwarning.py and of
    [constants.max_velo_diff]. *)
Definition ZW_BAD_MINFIT : Z := 1024.
Definition ZW_Z_FITLIMIT : Z := 32.
Definition velo_1000 : Q := 1000.

Definition one_template : Template := {| nbasis := 1 |}.

(** A solver that never fails: chi-squared [f z], a single unit
    coefficient. *)
Definition calc_of (f : Q -> Q) (h : store) (ss : list Spectrum)
    (t : Template) (z : Q) : py (Q * list Q) :=
  ret (f z, [1]).

(** A solver that covers only [lo <= z <= hi] and raises [ValueError]
    elsewhere, as a template whose wavelengths run out does. *)
Definition calc_within (lo hi : Q) (f : Q -> Q) (h : store)
    (ss : list Spectrum) (t : Template) (z : Q) : py (Q * list Q) :=
  if Qltb z lo || Qltb hi z then raise ValueError else ret (f z, [1]).

Definition arch_of (f : nat -> Q -> Q) (h : store) (ss : list Spectrum)
    (a : Archetype) (i : nat) (z : Q) : Q * list Q :=
  (f i z, [1; 0; 0; 0]).

(** Two wells, at [z = 298] (depth 1) and [z = 299] (depth 2). *)
Definition two_wells (z : Q) : Q :=
  if Qltb z (597 # 2) then 1 + (4 * (z - 298)) ^ 2
  else 2 + (4 * (z - 299)) ^ 2.

Definition grid_two_wells : list Q :=
  [297; 595 # 2; 298; 597 # 2; 299; 599 # 2; 300].

(** One well at [z = 10] on the grid [0, 1, ..., 19]. *)
Definition one_well (z : Q) : Q := 5 + (z - 10) ^ 2.
Definition grid20 : list Q := map (fun i => inject_Z (Z.of_nat i)) (seq 0 20).

(** A parabola whose vertex [z = -1] lies below the grid [0, 1, 2, 3]. *)
Definition left_well (z : Q) : Q := 5 + (z + 1) ^ 2.
Definition grid4 : list Q := [0; 1; 2; 3].

(** Two spectra sharing nothing; five samples, three of positive weight. *)
Definition store2 : store :=
  <[1%positive := [3600; 3601; 3602]]>
  (<[2%positive := [1; 1; 1]]>
  (<[3%positive := [1; 0; 2]]>
  (<[4%positive := [5000; 5001]]>
  (<[5%positive := [1; 1]]>
  (<[6%positive := [0; 3]]> ∅))))).

Definition spectrum_at (w f i : loc) (n : nat) (w0 w1 : Q) : Spectrum :=
  {| nwave := n; wave := w; flux := f; ivar := i; R := None; _Rcsr := None;
     _mpshared := false; wavehash := (n, w0, w1, w0, w1, None) |}.

Definition spectra2 : list Spectrum :=
  [spectrum_at 1%positive 2%positive 3%positive 3 3600 3601;
   spectrum_at 4%positive 5%positive 6%positive 2 5000 5001].

Definition archetype2 : Archetype :=
  {| _rrtype := "GALAXY"%string; _subtype := ["ELG"; "LRG"]%string;
     _narch := 2;
     arch_wave := [1000; 2000]; arch_flux := [[1; 1]; [1; 2]] |}.

(** A three-sample resolution matrix whose rows integrate to 1/2, 1, 1. *)
Definition resolution3 : dia_matrix :=
  {| data := [[1 # 4; 0; 0]; [1 # 2; 1 # 2; 1]; [0; 0; 1 # 4]];
     offsets := [-1; 0; 1]%Z; nrows := 3; ncols := 3 |}.

Definition min_resolution_099 : Q := 99 # 100.

Definition fitz_ex (f : Q -> Q) (zs : list Q) (nminima : nat)
    (arch : option Archetype) : py Table :=
  fitz Qsqrt ZW_BAD_MINFIT ZW_Z_FITLIMIT velo_1000 (calc_of f)
       (arch_of (fun i z => inject_Z (Z.of_nat i) + 1))
       store2 (map f zs) zs spectra2 one_template nminima arch.

End examples.

(** Two exposures of one grid of three samples, and what stands in for
    Python's [hash], for the iteration over a [set] and for [tocsr]. *)
Module coadd_examples.

Import targets Target.

Definition hash_len (t : nat * Q * Q * Q * Q * option nat) : Z :=
  Z.of_nat (fst (fst (fst (fst (fst t))))).

Definition first_seen (l : list Z) : list Z := remove_dups l.

Definition csr_of (r : dia_matrix) : csr_matrix :=
  {| csr_indices := []; csr_indptr := []; csr_data := concat (data r) |}.

Definition unit_resolution3 : dia_matrix :=
  {| data := [[1; 1; 1]]; offsets := [0%Z]; nrows := 3; ncols := 3 |}.

Definition store3 : store :=
  <[1%positive := [3600; 3601; 3602]]>
  (<[2%positive := [1; 2; 3]]>
  (<[3%positive := [1; 0; 2]]>
  (<[4%positive := [3600; 3601; 3602]]>
  (<[5%positive := [3; 4; 6]]>
  (<[6%positive := [3; 0; 0]]> ∅))))).

Definition exposure_at (w f i : loc) : Spectrum :=
  {| nwave := 3; wave := w; flux := f; ivar := i;
     R := Some unit_resolution3; _Rcsr := None; _mpshared := false;
     wavehash := (3%nat, 3600, 3601, 3601, 3602, Some 1%nat) |}.

Definition exposures3 : list Spectrum :=
  [exposure_at 1%positive 2%positive 3%positive;
   exposure_at 4%positive 5%positive 6%positive].

Definition target3 : Target unit :=
  {| targetid := 7; spectra := exposures3; meta := tt |}.

(** The same target with the weights of its second exposure all zero. *)
Definition store3_dead : store := <[6%positive := [0; 0; 0]]> store3.

End coadd_examples.

(** * Proofs *)

(** ** The error monad and indexing *)

Lemma bind_inr {A B : Type} (m : py A) (k : A -> py B) (b : B) :
  bind m k = inr b -> exists a, m = inr a /\ k a = inr b.
Proof. destruct m as [e|a]; simpl; [discriminate | eauto]. Qed.

Lemma getitem_inr {A : Type} (l : list A) (i : nat) (a : A) :
  getitem l i = inr a <-> l !! i = Some a.
Proof.
  unfold getitem. destruct (l !! i); simpl; unfold ret, raise; split; congruence.
Qed.

Lemma getitem_lt {A : Type} (l : list A) (i : nat) :
  (i < length l)%nat -> exists a, getitem l i = inr a /\ l !! i = Some a.
Proof.
  intros Hi. destruct (lookup_lt_is_Some_2 l i Hi) as [a Ha].
  exists a. split; [by apply getitem_inr | done].
Qed.

Lemma mapM_inr {A B : Type} (f : A -> py B) (l : list A) (bs : list B) :
  mapM f l = inr bs -> Forall2 (fun a b => f a = inr b) l bs.
Proof.
  revert bs. induction l as [|a l IH]; simpl; intros bs H.
  - inversion H. constructor.
  - apply bind_inr in H as (b & Hb & H).
    apply bind_inr in H as (bs' & Hbs & H).
    inversion H; subst. constructor; auto.
Qed.

Lemma mapM_total {A B : Type} (f : A -> py B) (g : A -> B) (l : list A) :
  Forall (fun a => f a = inr (g a)) l -> mapM f l = inr (map g l).
Proof.
  induction 1 as [|a l Ha _ IH]; simpl; [done|].
  rewrite Ha. simpl. rewrite IH. done.
Qed.

Lemma lookup_nth {A : Type} (l : list A) (i : nat) (d : A) :
  (i < length l)%nat -> l !! i = Some (nth i l d).
Proof.
  intros Hi. destruct (lookup_lt_is_Some_2 l i Hi) as [a Ha].
  rewrite Ha. f_equal. symmetry. by apply nth_lookup_Some.
Qed.

Lemma take_idx_nth {A : Type} (a : list A) (d : A) (ii : list nat) :
  Forall (fun i => (i < length a)%nat) ii ->
  take_idx a ii = inr (map (fun i => nth i a d) ii).
Proof.
  intros H. apply mapM_total. eapply Forall_impl; [exact H|].
  intros i Hi. simpl in Hi. apply getitem_inr. by apply lookup_nth.
Qed.

(** *** argsort *)

Section Argsort.

Variable key : nat -> Q.

Local Abbreviation key_then_index := (key_then_index key).

Lemma key_then_index_le (i j : nat) : key_then_index i j -> key i <= key j.
Proof. intros [H|[H _]]; [by apply Qlt_le_weak | rewrite H; apply Qle_refl]. Qed.

Lemma insert_key_perm (i : nat) (l : list nat) :
  Permutation (insert_key key i l) (i :: l).
Proof.
  induction l as [|j l IH]; simpl; [done|].
  destruct (Qle_bool (key i) (key j)); [done|].
  rewrite IH. apply perm_swap.
Qed.

Lemma insert_key_sorted (i : nat) (l : list nat) :
  Forall (fun j => (i < j)%nat) l ->
  StronglySorted key_then_index l ->
  StronglySorted key_then_index (insert_key key i l).
Proof.
  intros Hlt Hs. induction Hs as [|j l Hs IH Hj]; simpl.
  - repeat constructor.
  - inversion Hlt as [|? ? Hij Hlt']; subst.
    destruct (Qle_bool (key i) (key j)) eqn:E.
    + apply Qle_bool_iff in E.
      assert (Hi : key_then_index i j).
      { destruct (Qlt_le_dec (key i) (key j)) as [H|H]; [by left|].
        right. split; [by apply Qle_antisym | done]. }
      constructor; [by constructor|].
      constructor; [done|].
      rewrite List.Forall_forall in Hj, Hlt'. apply List.Forall_forall. intros k Hk.
      specialize (Hj k Hk). specialize (Hlt' k Hk).
      apply key_then_index_le in Hj.
      destruct (Qlt_le_dec (key i) (key k)) as [H|H]; [by left|].
      right. split; [|done]. apply Qle_antisym; [|done].
      eapply Qle_trans; eauto.
    + constructor; [by apply IH|].
      assert (Hji : key_then_index j i).
      { left. apply Qnot_le_lt. intros H. apply Qle_bool_iff in H. congruence. }
      apply List.Forall_forall. intros k Hk.
      apply (Permutation_in _ (insert_key_perm i l)) in Hk.
      destruct Hk as [<-|Hk]; [done|].
      rewrite List.Forall_forall in Hj. by apply Hj.
Qed.

Lemma sort_seq_sorted (s n : nat) :
  StronglySorted key_then_index (foldr (insert_key key) [] (seq s n))
  /\ Permutation (foldr (insert_key key) [] (seq s n)) (seq s n).
Proof.
  revert s. induction n as [|n IH]; intros s; simpl.
  - split; constructor.
  - destruct (IH (S s)) as [Hs Hp]. split.
    + apply insert_key_sorted; [|done].
      apply List.Forall_forall. intros j Hj.
      apply (Permutation_in _ Hp) in Hj. apply in_seq in Hj. lia.
    + rewrite insert_key_perm. by constructor.
Qed.

End Argsort.

Lemma argsort_perm (xs : list Q) :
  Permutation (argsort xs) (seq 0 (length xs)).
Proof. apply sort_seq_sorted. Qed.

Lemma argsort_sorted (xs : list Q) :
  StronglySorted (value_then_index xs) (argsort xs).
Proof. apply (sort_seq_sorted (fun i => nth i xs 0)). Qed.

Lemma argsort_lt (xs : list Q) :
  Forall (fun i => (i < length xs)%nat) (argsort xs).
Proof.
  apply List.Forall_forall. intros i Hi.
  apply (Permutation_in _ (argsort_perm xs)) in Hi. apply in_seq in Hi. lia.
Qed.


(** *** find_minima *)

Lemma np_where_from_In (s : nat) (m : list bool) (i : nat) :
  In i (np_where_from s m) <-> (s <= i)%nat /\ m !! (i - s)%nat = Some true.
Proof.
  revert s. induction m as [|b m IH]; intros s; simpl.
  - split; [done | intros [_ H]; discriminate].
  - assert (Hm : In i (np_where_from (S s) m) <->
                 (s < i)%nat /\ (b :: m) !! (i - s)%nat = Some true).
    { rewrite IH. split; intros [H1 H2]; (split; [lia|]).
      - replace (i - s)%nat with (S (i - S s)) by lia. done.
      - replace (i - s)%nat with (S (i - S s)) in H2 by lia. done. }
    destruct b; simpl; rewrite ?Hm.
    + split.
      * intros [<-|[H1 H2]]; [split; [lia|]; by rewrite Nat.sub_diag | split; [lia|done]].
      * intros [H1 H2]. destruct (decide (s = i)) as [->|Hne]; [by left|].
        right. split; [lia|done].
    + split; intros [H1 H2]; [split; [lia|done]|].
      split; [|done]. destruct (decide (s = i)) as [->|Hne]; [|lia].
      rewrite Nat.sub_diag in H2. discriminate.
Qed.

Lemma np_where_from_sorted (s : nat) (m : list bool) :
  StronglySorted lt (np_where_from s m).
Proof.
  revert s. induction m as [|b m IH]; intros s; simpl; [constructor|].
  destruct b; [|apply IH].
  constructor; [apply IH|].
  apply List.Forall_forall. intros j Hj. apply np_where_from_In in Hj. lia.
Qed.

Lemma np_where_In (m : list bool) (i : nat) :
  In i (np_where m) <-> m !! i = Some true.
Proof.
  unfold np_where. rewrite np_where_from_In, Nat.sub_0_r.
  split; [by intros [_ H] | intros H; split; [lia|done]].
Qed.

Lemma shifted_lookup_l (x : list Q) (k : nat) :
  (S k < length x)%nat ->
  np_le (from1 x) (upto_last x) !! k
  = Some (Qle_bool (nth (S k) x 0) (nth k x 0)).
Proof.
  intros Hk. unfold np_le, from1, upto_last.
  rewrite lookup_zip_with, lookup_drop, lookup_take_lt by lia.
  rewrite (lookup_nth x (1 + k) 0), (lookup_nth x k 0) by (simpl; lia). done.
Qed.

Lemma shifted_lookup_r (x : list Q) (k : nat) :
  (S k < length x)%nat ->
  np_le (upto_last x) (from1 x) !! k
  = Some (Qle_bool (nth k x 0) (nth (S k) x 0)).
Proof.
  intros Hk. unfold np_le, from1, upto_last.
  rewrite lookup_zip_with, lookup_drop, lookup_take_lt by lia.
  rewrite (lookup_nth x (1 + k) 0), (lookup_nth x k 0) by (simpl; lia). done.
Qed.

Lemma shifted_length (x : list Q) :
  length (np_le (upto_last x) (from1 x)) = (length x - 1)%nat
  /\ length (np_le (from1 x) (upto_last x)) = (length x - 1)%nat.
Proof.
  unfold np_le, from1, upto_last.
  rewrite !length_zip_with, length_take, length_drop. lia.
Qed.

Lemma minima_mask_lookup (x : list Q) (i : nat) :
  minima_mask x !! i = Some true <-> local_min x i \/ (x = [] /\ i = 0%nat).
Proof.
  unfold minima_mask. destruct (shifted_length x) as [Hr Hl].
  rewrite lookup_zip_with_Some. split.
  - intros (a & b & Hab & Ha & Hb).
    symmetry in Hab. apply andb_true_iff in Hab as [-> ->].
    destruct (decide (x = [])) as [->|Hx].
    { right. split; [done|]. destruct i; [done|]. simpl in Ha. discriminate. }
    left. assert (0 < length x)%nat by (destruct x; simpl; [done|lia]).
    assert (Hi : (i < length x)%nat).
    { apply lookup_lt_Some in Hb. rewrite length_app, Hr in Hb. simpl in Hb. lia. }
    split; [done|]. split.
    + destruct i as [|k]; [by left|]. right. simpl in Ha.
      rewrite shifted_lookup_l in Ha by lia. inversion Ha as [Hq].
      apply Qle_bool_iff in Hq. by replace (S k - 1)%nat with k by lia.
    + destruct (decide (S i = length x)) as [|Hne]; [by left|]. right.
      rewrite lookup_app_l in Hb by (rewrite Hr; lia).
      rewrite shifted_lookup_r in Hb by lia. inversion Hb as [Hq].
      by apply Qle_bool_iff in Hq.
  - intros [(Hi & H1 & H2)|[-> ->]]; [|by exists true, true].
    exists true, true. split; [done|]. split.
    + destruct i as [|k]; [done|]. simpl.
      rewrite shifted_lookup_l by lia. f_equal. apply Qle_bool_iff.
      destruct H1 as [|H1]; [done|]. by replace (S k - 1)%nat with k in H1 by lia.
    + destruct (decide (S i = length x)) as [E|Hne].
      * rewrite lookup_app_r by (rewrite Hr; lia).
        rewrite Hr. replace (i - (length x - 1))%nat with 0%nat by lia. done.
      * rewrite lookup_app_l by (rewrite Hr; lia).
        rewrite shifted_lookup_r by lia. f_equal. apply Qle_bool_iff.
        destruct H2 as [|H2]; [done|]. done.
Qed.

Lemma map_nth_seq_id {A : Type} (l : list A) (d : A) :
  map (fun j => nth j l d) (seq 0 (length l)) = l.
Proof.
  apply list_eq. intros i. rewrite list_lookup_fmap.
  destruct (decide (i < length l)%nat) as [Hi|Hi].
  - rewrite lookup_seq_lt by done. simpl. symmetry. by apply lookup_nth.
  - rewrite lookup_seq_ge by lia. simpl. symmetry. apply lookup_ge_None. lia.
Qed.

Lemma nth_map_lt {A B : Type} (f : A -> B) (l : list A) (i : nat) (d : A) (e : B) :
  (i < length l)%nat -> nth i (map f l) e = f (nth i l d).
Proof.
  intros Hi. apply nth_lookup_Some.
  change (map f l) with (f <$> l). rewrite list_lookup_fmap.
  by rewrite (lookup_nth l i d).
Qed.

Lemma sorted_lt_nth (l : list nat) (a b : nat) :
  StronglySorted lt l -> (a < b)%nat -> (b < length l)%nat ->
  (nth a l 0 < nth b l 0)%nat.
Proof.
  intros Hs. revert a b. induction Hs as [|j l Hs IH Hj]; intros a b Hab Hb.
  - simpl in Hb. lia.
  - destruct b as [|b]; [lia|]. simpl in Hb. destruct a as [|a]; simpl.
    + rewrite List.Forall_forall in Hj. apply Hj. apply nth_In. lia.
    + apply IH; lia.
Qed.

Lemma sorted_map_impl {A B : Type} (R : A -> A -> Prop) (R' : B -> B -> Prop)
    (f : A -> B) (l : list A) :
  (forall a b, In a l -> In b l -> R a b -> R' (f a) (f b)) ->
  StronglySorted R l -> StronglySorted R' (map f l).
Proof.
  intros Hf Hs. induction Hs as [|a l Hs IH Ha]; simpl; [constructor|].
  constructor.
  - apply IH. intros. apply Hf; simpl; auto.
  - apply List.Forall_forall. intros b Hb. apply in_map_iff in Hb as (c & <- & Hc).
    rewrite List.Forall_forall in Ha. apply Hf; simpl; auto.
Qed.

Lemma find_minima_nonempty (x : list Q) :
  x <> [] ->
  exists l, fitz.find_minima x = inr l
    /\ (forall i, In i l <-> local_min x i)
    /\ StronglySorted (value_then_index x) l.
Proof.
  intros Hx. unfold fitz.find_minima. fold (minima_mask x).
  set (ii := np_where (minima_mask x)).
  assert (Hii : forall i, In i ii <-> local_min x i).
  { intros i. unfold ii. rewrite np_where_In, minima_mask_lookup.
    split; [intros [H|[H _]]; [done|contradiction] | by left]. }
  assert (Hlt : Forall (fun i => (i < length x)%nat) ii).
  { apply List.Forall_forall. intros i Hi. apply Hii in Hi. apply Hi. }
  rewrite (take_idx_nth x 0 ii Hlt). simpl.
  set (xi := map (fun i => nth i x 0) ii).
  assert (Hlen : length xi = length ii) by apply length_map.
  assert (Hjj : Forall (fun j => (j < length ii)%nat) (argsort xi)).
  { rewrite <- Hlen. apply argsort_lt. }
  rewrite (take_idx_nth ii 0%nat _ Hjj).
  eexists. split; [reflexivity|]. split.
  - intros i. rewrite <- Hii.
    assert (Hp : Permutation (map (fun j => nth j ii 0%nat) (argsort xi)) ii).
    { rewrite (argsort_perm xi), Hlen. by rewrite map_nth_seq_id. }
    split; intros H; [by apply (Permutation_in _ Hp) |
                      by apply (Permutation_in _ (Permutation_sym Hp))].
  - apply (sorted_map_impl (value_then_index xi)); [|apply argsort_sorted].
    intros a b Ha Hb Hab.
    rewrite List.Forall_forall in Hjj.
    pose proof (Hjj a Ha) as Hal. pose proof (Hjj b Hb) as Hbl.
    unfold value_then_index in *. unfold xi in Hab.
    rewrite !(nth_map_lt _ ii _ 0%nat) in Hab by done.
    destruct Hab as [H|[H1 H2]]; [by left|]. right. split; [done|].
    apply sorted_lt_nth; [apply np_where_from_sorted | done | done].
Qed.

Lemma find_minima_empty : fitz.find_minima [] = inl IndexError.
Proof. reflexivity. Qed.

(** ** minfit *)

Lemma vandermonde_det (x1 x2 x3 : Q) :
  det3 (x1^4 + (x2^4 + (x3^4 + 0))) (x1^3 + (x2^3 + (x3^3 + 0))) (x1^2 + (x2^2 + (x3^2 + 0)))
       (x1^3 + (x2^3 + (x3^3 + 0))) (x1^2 + (x2^2 + (x3^2 + 0))) (x1^1 + (x2^1 + (x3^1 + 0)))
       (x1^2 + (x2^2 + (x3^2 + 0))) (x1^1 + (x2^1 + (x3^1 + 0))) (x1^0 + (x2^0 + (x3^0 + 0)))
  == ((x1 - x2) * (x1 - x3) * (x2 - x3)) ^ 2.
Proof. unfold det3. ring. Qed.

Lemma polyfit2_three (x1 x2 x3 y1 y2 y3 A B C : Q) :
  ~ x1 == x2 -> ~ x1 == x3 -> ~ x2 == x3 ->
  y1 == A * x1 ^ 2 + B * x1 + C ->
  y2 == A * x2 ^ 2 + B * x2 + C ->
  y3 == A * x3 ^ 2 + B * x3 + C ->
  exists a b c, polyfit2 [x1; x2; x3] [y1; y2; y3] = inr (a, b, c)
    /\ a == A /\ b == B /\ c == C.
Proof.
  intros H12 H13 H23 E1 E2 E3. unfold polyfit2.
  cbn [length Nat.eqb negb map zip_with Qsum fold_right].
  set (d := det3 _ _ _ _ _ _ _ _ _).
  assert (Hd : d == ((x1 - x2) * (x1 - x3) * (x2 - x3)) ^ 2) by apply vandermonde_det.
  assert (Hd0 : ~ d == 0).
  { rewrite Hd. intros H.
    assert (Hp : ~ (x1 - x2) * (x1 - x3) * (x2 - x3) == 0).
    { intros Hm. apply Qmult_integral in Hm as [Hm|Hm].
      - apply Qmult_integral in Hm as [Hm|Hm]; [apply H12|apply H13]; lra.
      - apply H23; lra. }
    apply Hp. simpl in H. apply Qmult_integral in H as [H|H]; done. }
  destruct (Qeq_bool d 0) eqn:E; [apply Qeq_bool_iff in E; contradiction|].
  do 3 eexists. split; [reflexivity|].
  subst d. unfold det3 in *.
  repeat split.
  - rewrite E1, E2, E3. field. intros Hc. apply Hd0. etransitivity; [|exact Hc]. ring.
  - rewrite E1, E2, E3. field. intros Hc. apply Hd0. etransitivity; [|exact Hc]. ring.
  - rewrite E1, E2, E3. field. intros Hc. apply Hd0. etransitivity; [|exact Hc]. ring.
Qed.

Lemma Qle_bool_false (a b : Q) : b < a -> Qle_bool a b = false.
Proof.
  intros H. destruct (Qle_bool a b) eqn:E; [|reflexivity].
  apply Qle_bool_iff in E. lra.
Qed.

Lemma Qltb_lt (a b : Q) : Qltb a b = true <-> a < b.
Proof.
  unfold Qltb. rewrite negb_true_iff. split.
  - intros H. apply Qnot_le_lt. intros Hle. apply Qle_bool_iff in Hle. congruence.
  - apply Qle_bool_false.
Qed.

Lemma Qltb_ge (a b : Q) : Qltb a b = false <-> b <= a.
Proof.
  unfold Qltb. rewrite negb_false_iff. apply Qle_bool_iff.
Qed.

Lemma has_flag_lor_r (z f : Z) : has_flag (Z.lor z f) f.
Proof.
  unfold has_flag. apply Z.bits_inj'. intros n Hn.
  rewrite Z.land_spec, Z.lor_spec. destruct (Z.testbit z n), (Z.testbit f n); done.
Qed.

Lemma has_flag_lor_l (z f g : Z) : has_flag z f -> has_flag (Z.lor z g) f.
Proof.
  unfold has_flag. intros H. apply Z.bits_inj'. intros n Hn.
  apply (f_equal (fun v => Z.testbit v n)) in H.
  rewrite Z.land_spec in H. rewrite Z.land_spec, Z.lor_spec.
  destruct (Z.testbit z n), (Z.testbit f n), (Z.testbit g n); done.
Qed.

Section MinfitFacts.

Variable np_sqrt : Q -> Q.
Variable BAD_MINFIT : Z.

Local Abbreviation minfit := (fitz.minfit np_sqrt BAD_MINFIT).

Lemma minfit_short (x y : list Q) :
  (length x < 3)%nat -> minfit x y = inr (fitz.bad_fit BAD_MINFIT).
Proof.
  intros H. unfold fitz.minfit.
  destruct (Nat.ltb_spec (length x) 3); [done | lia].
Qed.

Lemma minfit_fitted (x y : list Q) (a b c mn mx : Q) :
  (3 <= length x)%nat ->
  polyfit2 x y = inr (a, b, c) ->
  ~ a == 0 ->
  np_min x = inr mn -> np_max x = inr mx ->
  minfit x y =
  inr (- b / (2 * a),
       (if Qltb 0 a then 1 / np_sqrt a else 1 / np_sqrt (- a)),
       - (b ^ 2) / (4 * a) + c,
       let z1 := if Qle_bool (- b / (2 * a)) mn || Qle_bool mx (- b / (2 * a))
                 then Z.lor 0 BAD_MINFIT else 0%Z in
       let z2 := if Qle_bool (- (b ^ 2) / (4 * a) + c) 0
                 then Z.lor z1 BAD_MINFIT else z1 in
       if Qltb 0 a then z2 else Z.lor z2 BAD_MINFIT).
Proof.
  intros Hlen Hp Ha Hmn Hmx. unfold fitz.minfit.
  destruct (Nat.ltb_spec (length x) 3); [lia|].
  rewrite Hp. destruct (Qeq_bool a 0) eqn:E; [apply Qeq_bool_iff in E; contradiction|].
  rewrite Hmn, Hmx. simpl bind. cbv zeta.
  destruct (Qltb 0 a); reflexivity.
Qed.

Lemma minfit_outside_flagged (x y : list Q) (a b c mn mx : Q) :
  (3 <= length x)%nat ->
  polyfit2 x y = inr (a, b, c) ->
  ~ a == 0 ->
  np_min x = inr mn -> np_max x = inr mx ->
  - b / (2 * a) <= mn \/ mx <= - b / (2 * a) ->
  exists xerr zw,
    minfit x y = inr (- b / (2 * a), xerr, - (b ^ 2) / (4 * a) + c, zw)
    /\ has_flag zw BAD_MINFIT.
Proof.
  intros Hlen Hp Ha Hmn Hmx Hout.
  rewrite (minfit_fitted x y a b c mn mx) by done.
  do 2 eexists. split; [reflexivity|]. cbv zeta.
  assert (E : Qle_bool (- b / (2 * a)) mn || Qle_bool mx (- b / (2 * a)) = true).
  { apply orb_true_iff. destruct Hout as [H|H]; [left|right]; by apply Qle_bool_iff. }
  rewrite E.
  destruct (Qle_bool _ 0), (Qltb 0 a); apply has_flag_lor_r.
Qed.

Hypothesis np_sqrt_exact : forall a r : Q, 0 <= r -> a == r * r -> np_sqrt a == r.


End MinfitFacts.

(** ** The computable square root *)

Import examples.

Lemma Qsqrt_exact (a r : Q) : 0 <= r -> a == r * r -> Qsqrt a == r.
Proof.
  intros Hr Ha. unfold Qsqrt.
  assert (Hc : Qred a = Qred r * Qred r).
  { rewrite (Qred_complete a (Qred r * Qred r)) by (rewrite Ha, !Qred_correct; reflexivity).
    apply Qred_identity.
    pose proof (Qred_identity2 (Qred r) (Qred_involutive r)) as Hg.
    destruct (Qred r) as [n d]. simpl in *.
    rewrite Pos2Z.inj_mul.
    apply Z.coprime_mul_r; apply Z.coprime_mul_l; exact Hg. }
  rewrite Hc.
  assert (Hn : (0 <= Qnum (Qred r))%Z).
  { assert (H : 0 <= Qred r) by (rewrite Qred_correct; done).
    unfold Qle in H. simpl in H. lia. }
  transitivity (Qred r); [|apply Qred_correct].
  destruct (Qred r) as [n d]. simpl in *.
  rewrite Z.sqrt_square by done.
  assert (Hd : Pos.sqrt (d * d) = d).
  { pose proof (Pos.sqrt_spec (d * d)) as Hs. cbv zeta in Hs. nia. }
  rewrite Hd. reflexivity.
Qed.

(** ** fitz *)

Import targets archetypes fitz.

(** ** Sorting by chi-squared *)

Lemma take_idx_total {A : Type} (a : list A) (ii : list nat) :
  Forall (fun i => (i < length a)%nat) ii ->
  exists bs, take_idx a ii = inr bs
    /\ Forall2 (fun i b => a !! i = Some b) ii bs.
Proof.
  intros H. induction H as [|i ii Hi _ (bs & Hbs & HF)].
  - exists []. split; [reflexivity | constructor].
  - destruct (getitem_lt a i Hi) as (b & Hb & Hl).
    exists (b :: bs). split; [|by constructor].
    unfold take_idx in *. simpl. rewrite Hb. simpl. by rewrite Hbs.
Qed.

Lemma sort_by_chi2_spec (results : list Minimum) :
  exists sorted, sort_by_chi2 results = inr sorted
    /\ Permutation sorted results
    /\ StronglySorted Qle (map chi2 sorted).
Proof.
  unfold sort_by_chi2. destruct results as [|d rs].
  { exists []. repeat split; constructor. }
  set (results := d :: rs). set (keys := map chi2 results).
  assert (Hlen : length keys = length results) by apply length_map.
  assert (Hlt : Forall (fun i => (i < length results)%nat) (argsort keys)).
  { rewrite <- Hlen. apply argsort_lt. }
  rewrite (take_idx_nth results d _ Hlt).
  eexists. split; [reflexivity|]. split.
  - rewrite (argsort_perm keys), Hlen. by rewrite map_nth_seq_id.
  - rewrite map_map.
    apply (sorted_map_impl (value_then_index keys)); [|apply argsort_sorted].
    intros a b Ha Hb Hab. rewrite List.Forall_forall in Hlt.
    apply (key_then_index_le (fun i => nth i keys 0)) in Hab.
    unfold keys in Hab.
    rewrite !(nth_map_lt chi2 results _ d) in Hab by auto. done.
Qed.

(** ** Separation of accepted redshifts *)

Section Separation.

Variable max_velo_diff : Q.

Lemma too_close_false (zc : Q) (zprev : list Q) :
  too_close max_velo_diff zc zprev = false
  <-> Forall (apart max_velo_diff zc) zprev.
Proof.
  unfold too_close. induction zprev as [|zp zprev IH]; simpl.
  - split; [constructor | done].
  - rewrite orb_false_iff, IH, Qltb_ge. split.
    + intros [H1 H2]. by constructor.
    + intros H. inversion H; subst. done.
Qed.

Lemma ordered_pairs_snoc {A : Type} (R : A -> A -> Prop) (l : list A) (a : A) :
  ForallOrdPairs R l -> Forall (fun b => R b a) l -> ForallOrdPairs R (l ++ [a]).
Proof.
  intros Hl Ha. induction Hl as [|b l Hb Hl IH]; simpl.
  - repeat constructor.
  - inversion Ha; subst. constructor; [|by apply IH].
    apply Forall_app. split; [done | by constructor].
Qed.

Lemma ordered_pairs_lookup {A : Type} (R : A -> A -> Prop) (l : list A)
    (i j : nat) (a b : A) :
  ForallOrdPairs R l -> (i < j)%nat -> l !! i = Some a -> l !! j = Some b -> R a b.
Proof.
  intros Hl. revert i j. induction Hl as [|c l Hc Hl IH]; intros i j Hij Hi Hj.
  - discriminate.
  - destruct j as [|j]; [lia|]. simpl in Hj. destruct i as [|i]; simpl in Hi.
    + inversion Hi; subst. rewrite List.Forall_forall in Hc. apply Hc.
      apply list_elem_of_In. by eapply list_elem_of_lookup_2.
    + apply (IH i j); [lia | done | done].
Qed.

Lemma ordered_pairs_perm {A : Type} (R : A -> A -> Prop) (l l' : list A) :
  (forall a b, R a b -> R b a) ->
  Permutation l l' -> ForallOrdPairs R l -> ForallOrdPairs R l'.
Proof.
  intros Hsym Hp. induction Hp as [|a l l' Hp IH|a b l|l l' l'' _ IH1 _ IH2]; intros H.
  - constructor.
  - inversion H; subst. constructor; [|by apply IH].
    by rewrite <- Hp.
  - inversion H as [|? ? Hb H']; subst. inversion H' as [|? ? Ha H'']; subst.
    inversion Hb; subst. constructor; [constructor; [by apply Hsym | done]|].
    by constructor.
  - auto.
Qed.

Lemma ordered_pairs_impl {A : Type} (R R' : A -> A -> Prop) (l : list A) :
  (forall a b, R a b -> R' a b) -> ForallOrdPairs R l -> ForallOrdPairs R' l.
Proof.
  intros HR. induction 1 as [|a l Ha _ IH]; constructor; [|done].
  eapply Forall_impl; [exact Ha | auto].
Qed.

Lemma ordered_pairs_map {A B : Type} (R : B -> B -> Prop) (f : A -> B) (l : list A) :
  ForallOrdPairs (fun a b => R (f a) (f b)) l -> ForallOrdPairs R (map f l).
Proof.
  induction 1 as [|a l Ha _ IH]; simpl; constructor; [|done].
  apply List.Forall_forall. intros b Hb. apply in_map_iff in Hb as (c & <- & Hc).
  rewrite List.Forall_forall in Ha. by apply Ha.
Qed.

End Separation.


Lemma mapM_exists {A B : Type} (f : A -> py B) (l : list A) :
  (forall a, exists b, f a = inr b) ->
  exists bs, mapM f l = inr bs /\ length bs = length l.
Proof.
  intros Hf. induction l as [|a l (bs & Hbs & Hl)]; simpl.
  - by exists [].
  - destruct (Hf a) as (b & ->). simpl. rewrite Hbs. simpl.
    exists (b :: bs). simpl. by rewrite Hl.
Qed.

Lemma fold_min_elem (l : list Q) (v : Q) :
  exists k w, (v :: l) !! k = Some w /\ Qeq_bool w (fold_left Qmin l v) = true.
Proof.
  revert v. induction l as [|a l IH]; intros v; simpl.
  - exists 0%nat, v. split; [done | apply Qeq_bool_refl].
  - destruct (IH (Qmin v a)) as (k & w & Hk & Hw).
    destruct k as [|k]; simpl in Hk.
    + inversion Hk; subst w.
      destruct (Q.min_dec v a) as [E|E].
      * exists 0%nat, v. split; [done|].
        apply Qeq_bool_iff. apply Qeq_bool_iff in Hw.
        etransitivity; [symmetry; exact E | exact Hw].
      * exists 1%nat, a. split; [done|].
        apply Qeq_bool_iff. apply Qeq_bool_iff in Hw.
        etransitivity; [symmetry; exact E | exact Hw].
    + exists (S (S k)), w. done.
Qed.

Lemma np_min_elem (l : list Q) :
  (0 < length l)%nat ->
  exists m k v, np_min l = inr m /\ l !! k = Some v /\ Qeq_bool v m = true.
Proof.
  destruct l as [|v l]; simpl; [lia|]. intros _.
  destruct (fold_min_elem l v) as (k & w & Hk & Hw). eauto 10.
Qed.

Lemma minfit_total (np_sqrt : Q -> Q) (BAD : Z) (x y : list Q) :
  length x = length y -> exists r, minfit np_sqrt BAD x y = inr r.
Proof.
  intros Hlen. unfold minfit.
  destruct (Nat.ltb_spec (length x) 3) as [H|H]; [eauto|].
  unfold polyfit2. rewrite Hlen, Nat.eqb_refl. simpl negb. cbv iota.
  cbv zeta. destruct (Qeq_bool _ 0); [unfold raise; eauto|].
  unfold ret. destruct (Qeq_bool _ 0); [eauto|].
  destruct x as [|x1 x]; [simpl in H; lia|].
  unfold np_min, np_max. cbn beta iota delta [bind ret].
  destruct (Qltb 0 _); eauto.
Qed.

(** ** The refinement loop *)

Section FitzFacts.

Variable np_sqrt : Q -> Q.
Variable BAD_MINFIT Z_FITLIMIT : Z.
Variable max_velo_diff : Q.
Variable calc_zchi2 : store -> list Spectrum -> Template -> Q -> py (Q * list Q).
Variable arch_zchi2_one : store -> list Spectrum -> Archetype -> nat -> Q -> Q * list Q.
Variable h : store.
Variable zchi2_in redshifts : list Q.
Variable spectra : list Spectrum.
Variable template : Template.
Variable nminima : nat.
Variable archetype : option Archetype.

Local Abbreviation eval_at_zmin :=
  (fitz.eval_at_zmin BAD_MINFIT Z_FITLIMIT calc_zchi2 h redshifts spectra template).
Local Abbreviation scan_fallback := (fitz.scan_fallback BAD_MINFIT).
Local Abbreviation edge_flags := (fitz.edge_flags Z_FITLIMIT redshifts).
Local Abbreviation make_result := (fitz.make_result arch_zchi2_one h spectra archetype).
Local Abbreviation fine_fit :=
  (fitz.fine_fit np_sqrt BAD_MINFIT calc_zchi2 h zchi2_in redshifts spectra template).
Local Abbreviation accept :=
  (fitz.accept BAD_MINFIT Z_FITLIMIT max_velo_diff calc_zchi2 arch_zchi2_one h
               redshifts spectra template archetype).
Local Abbreviation refine :=
  (fitz.refine np_sqrt BAD_MINFIT Z_FITLIMIT max_velo_diff calc_zchi2
               arch_zchi2_one h zchi2_in redshifts spectra template archetype).
Local Abbreviation refine_all :=
  (fitz.refine_all np_sqrt BAD_MINFIT Z_FITLIMIT max_velo_diff calc_zchi2
                   arch_zchi2_one h zchi2_in redshifts spectra template nminima
                   archetype).
Local Abbreviation fitz :=
  (fitz.fitz np_sqrt BAD_MINFIT Z_FITLIMIT max_velo_diff calc_zchi2
             arch_zchi2_one h zchi2_in redshifts spectra template nminima
             archetype).

Lemma make_result_inr (zbest zerr0 : Q) (zw : Z) (c2 : Q) (zz0 zzc co : list Q)
    (m : Minimum) :
  make_result zbest zerr0 zw c2 zz0 zzc co = inr m ->
  archetype = None
  /\ m = {| z := zbest; zerr := zerr0; zwarn := zw; chi2 := c2; zz := zz0;
            zzchi2 := zzc; coeff := co; fulltype := None |}.
Proof.
  unfold fitz.make_result. destruct archetype as [a|].
  - unfold py_call. simpl. discriminate.
  - intros H. inversion H. done.
Qed.

Lemma accept_some (zprev zz0 zzc : list Q) (zmin sigma chi2min : Q) (zw : Z)
    (m : Minimum) :
  accept zprev zz0 zzc (zmin, sigma, chi2min, zw) = inr (Some m) ->
  exists co zw1 zbest c2 zw2 zw3,
    eval_at_zmin zmin zw = inr (co, zw1)
    /\ scan_fallback zz0 zzc zmin chi2min zw1 = inr (zbest, c2, zw2)
    /\ edge_flags zbest zmin zw2 = inr zw3
    /\ too_close max_velo_diff zbest zprev = false
    /\ archetype = None
    /\ m = {| z := zbest; zerr := sigma; zwarn := zw3; chi2 := c2; zz := zz0;
              zzchi2 := zzc; coeff := co; fulltype := None |}.
Proof.
  unfold fitz.accept. intros H.
  apply bind_inr in H as ([co zw1] & H1 & H).
  apply bind_inr in H as ([[zbest c2] zw2] & H2 & H).
  apply bind_inr in H as (zw3 & H3 & H).
  destruct (too_close max_velo_diff zbest zprev) eqn:E; [discriminate|].
  apply bind_inr in H as (m' & H4 & H). inversion H; subst m'.
  apply make_result_inr in H4 as [Ha Hm].
  exists co, zw1, zbest, c2, zw2, zw3. done.
Qed.

Lemma refine_some (results : list Minimum) (imin : nat) (m : Minimum) :
  refine results imin = inr (Some m) ->
  Forall (apart max_velo_diff (z m)) (map z results)
  /\ archetype = None /\ fulltype m = None.
Proof.
  unfold fitz.refine. intros H.
  apply bind_inr in H as (zc & Hzc & H).
  destruct (too_close max_velo_diff zc (map z results)); [discriminate|].
  apply bind_inr in H as ([[zz0 zzc] [[[zmin sigma] chi2min] zw]] & Hf & H).
  apply accept_some in H as (co & zw1 & zbest & c2 & zw2 & zw3 & _ & _ & _ & Hc & Ha & ->).
  simpl. split; [by apply too_close_false | done].
Qed.

Lemma refine_all_ind (P : list Minimum -> Prop) :
  (forall rs imin m,
     P rs -> (length rs < nminima)%nat -> refine rs imin = inr (Some m) ->
     P (rs ++ [m])) ->
  forall cands results out,
    (length results <= nminima)%nat ->
    P results -> refine_all cands results = inr out -> P out.
Proof.
  intros Hstep cands. induction cands as [|imin rest IH]; intros results out Hn HP H.
  - inversion H. by subst.
  - simpl in H. destruct (Nat.eqb_spec (length results) nminima) as [E|E].
    + inversion H. by subst.
    + apply bind_inr in H as (r & Hr & H). destruct r as [m|].
      * apply (IH (results ++ [m]) out); [| |done].
        -- rewrite length_app. simpl. lia.
        -- apply (Hstep results imin m); [done | lia | done].
      * by apply (IH results out).
Qed.

Lemma refine_all_length (cands : list nat) (out : list Minimum) :
  refine_all cands [] = inr out -> (length out <= nminima)%nat.
Proof.
  apply (refine_all_ind (fun rs => (length rs <= nminima)%nat)); [| simpl; lia | simpl; lia].
  intros rs imin m _ Hlt _. rewrite length_app. simpl. lia.
Qed.

Lemma refine_all_apart (cands : list nat) (out : list Minimum) :
  refine_all cands [] = inr out ->
  ForallOrdPairs (fun zref zc => apart max_velo_diff zc zref) (map z out).
Proof.
  apply (refine_all_ind
           (fun rs => ForallOrdPairs (fun zref zc => apart max_velo_diff zc zref)
                                     (map z rs))); [| simpl; lia | constructor].
  intros rs imin m HP _ Hr. rewrite map_app. simpl.
  apply ordered_pairs_snoc; [done|]. by apply refine_some in Hr as [Hr _].
Qed.

Lemma refine_all_no_fulltype (cands : list nat) (out : list Minimum) :
  refine_all cands [] = inr out -> Forall (fun m => fulltype m = None) out.
Proof.
  apply (refine_all_ind (Forall (fun m => fulltype m = None))); [| simpl; lia | constructor].
  intros rs imin m HP _ Hr. apply Forall_app. split; [done|].
  constructor; [|constructor]. by apply refine_some in Hr as (_ & _ & Hr).
Qed.

(** What [fitz] returns, in terms of the loop's result list. *)
Lemma fitz_inr (t : Table) :
  fitz = inr t ->
  exists cands accepted sorted npix,
    length zchi2_in = length redshifts
    /\ find_minima zchi2_in = inr cands
    /\ refine_all cands [] = inr accepted
    /\ sort_by_chi2 accepted = inr sorted
    /\ Permutation sorted accepted
    /\ StronglySorted Qle (map chi2 sorted)
    /\ sorted <> []
    /\ npixels h spectra = inr npix
    /\ t = to_table archetype sorted npix.
Proof.
  unfold fitz.fitz. intros H.
  destruct (Nat.eqb_spec (length zchi2_in) (length redshifts)) as [E|E];
    [|discriminate]. simpl in H.
  apply bind_inr in H as ([] & _ & H).
  apply bind_inr in H as (cands & Hc & H).
  apply bind_inr in H as (accepted & Ha & H).
  apply bind_inr in H as (sorted & Hs & H).
  destruct (sort_by_chi2_spec accepted) as (sorted' & Hs' & Hp & Hsrt).
  rewrite Hs in Hs'. inversion Hs'; subst sorted'.
  destruct sorted as [|m sorted]; [discriminate|]. simpl in H.
  apply bind_inr in H as (npix & Hn & H). inversion H.
  exists cands, accepted, (m :: sorted), npix. done.
Qed.


(** *** Steps that cannot fail *)

Lemma has_flag_keep_bad (zw f : Z) :
  has_flag zw f -> has_flag (Z.lor zw BAD_MINFIT) f.
Proof. apply has_flag_lor_l. Qed.

Lemma scan_fallback_total (zz0 zzc : list Q) (zbest c : Q) (zw : Z) :
  length zz0 = length zzc -> zz0 <> [] ->
  exists zb c2 zw2, scan_fallback zz0 zzc zbest c zw = inr (zb, c2, zw2)
    /\ forall f, has_flag zw f -> has_flag zw2 f.
Proof.
  intros Hlen Hne. unfold fitz.scan_fallback.
  destruct zz0 as [|z0 zz1] eqn:Ezz; [done|]. rewrite <- Ezz in *.
  assert (Hpos : (0 < length zz0)%nat) by (rewrite Ezz; simpl; lia).
  destruct (getitem_lt zz0 0 Hpos) as (a0 & -> & _).
  assert (Hlast : exists al, getitem_neg zz0 1 = inr al).
  { unfold getitem_neg. destruct (Nat.leb_spec 1 (length zz0)); [|lia].
    destruct (getitem_lt zz0 (length zz0 - 1)) as (al & -> & _); [lia|eauto]. }
  destruct Hlast as (al & ->). simpl.
  destruct (Qltb zbest a0 || Qltb al zbest); [|by eauto 10].
  destruct (np_min_elem zzc) as (m & k & v & -> & Hk & Hv); [by rewrite <- Hlen; lia|].
  simpl.
  set (mask := map (fun v => Qeq_bool v m) zzc).
  assert (Hmk : mask !! k = Some true).
  { unfold mask. change (map ?f ?l) with (f <$> l).
    rewrite list_lookup_fmap, Hk. simpl. by rewrite Hv. }
  apply np_where_In in Hmk.
  destruct (np_where mask) as [|j js] eqn:Ew; [done|].
  assert (Hj : mask !! j = Some true) by (apply np_where_In; rewrite Ew; by left).
  assert (Hjl : (j < length zzc)%nat).
  { apply lookup_lt_Some in Hj. unfold mask in Hj. by rewrite length_map in Hj. }
  unfold getitem at 1. simpl.
  destruct (getitem_lt zz0 j) as (zb & -> & _); [lia|].
  destruct (getitem_lt zzc j Hjl) as (c2 & -> & _). simpl.
  do 3 eexists. split; [reflexivity|]. apply has_flag_keep_bad.
Qed.

Lemma edge_flags_total (zbest zmin : Q) (zw : Z) :
  (2 <= length redshifts)%nat ->
  exists zw', edge_flags zbest zmin zw = inr zw'
    /\ forall f, has_flag zw f -> has_flag zw' f.
Proof.
  intros Hlen. unfold fitz.edge_flags.
  destruct (getitem_lt redshifts 1) as (r1 & -> & _); [lia|].
  unfold getitem_neg. destruct (Nat.leb_spec 2 (length redshifts)); [|lia].
  destruct (getitem_lt redshifts (length redshifts - 2)) as (r2 & -> & _); [lia|].
  simpl. eexists. split; [reflexivity|]. intros f Hf.
  destruct (_ || _), (_ || _); repeat apply has_flag_lor_l; done.
Qed.

Lemma accept_total (zprev zz0 zzc : list Q) (zmin sigma c : Q) (zw : Z)
    (co : list Q) (zw1 : Z) :
  archetype = None ->
  eval_at_zmin zmin zw = inr (co, zw1) ->
  length zz0 = length zzc -> zz0 <> [] ->
  (2 <= length redshifts)%nat ->
  exists r, accept zprev zz0 zzc (zmin, sigma, c, zw) = inr r
    /\ (zprev = [] -> r <> None)
    /\ forall m, r = Some m ->
         coeff m = co /\ forall f, has_flag zw1 f -> has_flag (zwarn m) f.
Proof.
  intros Ha He Hlen Hne Hr. unfold fitz.accept. rewrite He. simpl.
  destruct (scan_fallback_total zz0 zzc zmin c zw1 Hlen Hne)
    as (zb & c2 & zw2 & -> & Hf2). simpl.
  destruct (edge_flags_total zb zmin zw2 Hr) as (zw3 & -> & Hf3). simpl.
  destruct (too_close max_velo_diff zb zprev) eqn:E.
  - exists None. split; [reflexivity|]. split; [|done].
    intros ->. simpl in E. discriminate.
  - unfold fitz.make_result. rewrite Ha. simpl.
    eexists. split; [reflexivity|]. split; [done|].
    intros m Hm. inversion Hm; subst m. simpl. auto.
Qed.

Lemma fine_fit_inr (imin : nat) (zz0 zzc : list Q) (fit : Q * Q * Q * Z) :
  fine_fit imin = inr (zz0, zzc, fit) ->
  length zz0 = nz /\ length zzc = nz
  /\ exists fine, mapM (calc_zchi2 h spectra template) zz0 = inr fine
                  /\ zzc = map fst fine.
Proof.
  unfold fitz.fine_fit. intros H.
  apply bind_inr in H as (zlo & _ & H).
  apply bind_inr in H as (zhi & _ & H).
  apply bind_inr in H as (fine & Hm & H).
  apply bind_inr in H as (am & _ & H).
  apply bind_inr in H as (fit' & _ & H).
  inversion H; subst. clear H.
  pose proof (mapM_inr _ _ _ Hm) as HF. apply Forall2_length in HF.
  rewrite length_map. unfold linspace in *. rewrite length_map, length_seq in *.
  split; [done|]. split; [done|]. eauto.
Qed.

Hypothesis calc_total :
  forall zq, exists c co, calc_zchi2 h spectra template zq = inr (c, co).

Lemma fine_fit_total (imin : nat) :
  length zchi2_in = length redshifts -> (imin < length redshifts)%nat ->
  exists zz0 zzc fit, fine_fit imin = inr (zz0, zzc, fit).
Proof.
  intros Hlen Hi. unfold fitz.fine_fit.
  destruct (getitem_lt redshifts (Nat.max 0 (imin - 1))) as (zlo & -> & _); [lia|].
  destruct (getitem_lt redshifts (Nat.min (imin + 1) (length zchi2_in - 1)))
    as (zhi & -> & _); [lia|]. cbn beta iota delta [bind].
  destruct (mapM_exists (calc_zchi2 h spectra template) (linspace zlo zhi nz))
    as (fine & -> & Hfl).
  { intros zq. destruct (calc_total zq) as (c & co & ->). eauto. }
  cbn beta iota delta [bind].
  unfold linspace in Hfl. rewrite length_map, length_seq in Hfl.
  destruct (map fst fine) as [|v vs] eqn:Ev.
  { apply (f_equal length) in Ev. rewrite length_map, Hfl in Ev. discriminate. }
  unfold argmin. cbn beta iota delta [bind ret]. rewrite <- Ev.
  match goal with |- context [minfit ?s ?b ?x ?y] =>
    destruct (minfit_total s b x y) as (r & ->) end.
  - unfold slice, linspace.
    rewrite !length_take, !length_drop, !length_map, length_seq, Hfl. reflexivity.
  - cbn beta iota delta [bind ret]. eauto.
Qed.

Lemma refine_total (results : list Minimum) (imin : nat) :
  archetype = None ->
  length zchi2_in = length redshifts -> (imin < length redshifts)%nat ->
  (2 <= length redshifts)%nat ->
  exists r, refine results imin = inr r /\ (results = [] -> r <> None).
Proof.
  intros Ha Hlen Hi Hr. unfold fitz.refine.
  destruct (getitem_lt redshifts imin Hi) as (zc & -> & _). simpl.
  destruct (too_close max_velo_diff zc (map z results)) eqn:E.
  - exists None. split; [reflexivity|]. intros ->. simpl in E. discriminate.
  - destruct (fine_fit_total imin Hlen Hi) as (zz0 & zzc & fit & Hf).
    rewrite Hf. simpl.
    apply fine_fit_inr in Hf as (Hz & Hc & _).
    destruct fit as [[[zmin sigma] c] zw].
    assert (He : exists co zw1, eval_at_zmin zmin zw = inr (co, zw1)).
    { unfold fitz.eval_at_zmin. destruct (calc_total zmin) as (c' & co & ->). eauto. }
    destruct He as (co & zw1 & He).
    destruct (accept_total (map z results) zz0 zzc zmin sigma c zw co zw1)
      as (r & -> & Hn & _); try done.
    + congruence.
    + intros ->. discriminate.
    + exists r. split; [done|]. intros ->. by apply Hn.
Qed.

End FitzFacts.

(** ** Results of fitz *)


Section FitzResults.

Variable np_sqrt : Q -> Q.
Variable BAD_MINFIT Z_FITLIMIT : Z.
Variable max_velo_diff : Q.
Variable calc_zchi2 : store -> list Spectrum -> Template -> Q -> py (Q * list Q).
Variable arch_zchi2_one : store -> list Spectrum -> Archetype -> nat -> Q -> Q * list Q.
Variable h : store.
Variable zchi2_in redshifts : list Q.
Variable spectra : list Spectrum.
Variable template : Template.

Local Abbreviation refine_with := 
  (fitz.refine np_sqrt BAD_MINFIT Z_FITLIMIT max_velo_diff calc_zchi2
               arch_zchi2_one h zchi2_in redshifts spectra template).
Local Abbreviation refine_all_with :=
  (fitz.refine_all np_sqrt BAD_MINFIT Z_FITLIMIT max_velo_diff calc_zchi2
                   arch_zchi2_one h zchi2_in redshifts spectra template).
Local Abbreviation fitz_with :=
  (fitz.fitz np_sqrt BAD_MINFIT Z_FITLIMIT max_velo_diff calc_zchi2
             arch_zchi2_one h zchi2_in redshifts spectra template).

Lemma refine_all_archetype (nminima : nat) (a : Archetype) (cands : list nat)
    (out : list Minimum) :
  refine_all_with nminima (Some a) cands [] = inr out -> out = [].
Proof.
  apply (refine_all_ind _ _ _ _ _ _ _ _ _ _ _ _ _ (fun rs => rs = []));
    [| simpl; lia | done].
  intros rs imin m _ _ Hr. apply refine_some in Hr as (_ & Hr & _). discriminate.
Qed.

Lemma fitz_archetype_raises (nminima : nat) (a : Archetype) :
  exists e, fitz_with nminima (Some a) = inl e.
Proof.
  destruct (fitz_with nminima (Some a)) as [e|t] eqn:E; [eauto|].
  apply fitz_inr in E as (cands & acc & sorted & npix & _ & _ & Ha & _ & Hp & _ & Hne & _).
  apply refine_all_archetype in Ha. subst acc.
  symmetry in Hp. apply Permutation_nil in Hp. contradiction.
Qed.

Lemma fitz_rows (nminima : nat) (arch : option Archetype) (t : Table) :
  fitz_with nminima arch = inr t ->
  (0 < length (t_z t) <= nminima)%nat.
Proof.
  intros E.
  apply fitz_inr in E as (cands & acc & sorted & npix & _ & _ & Ha & _ & Hp & _ & Hne & _ & ->).
  simpl. rewrite length_map. apply refine_all_length in Ha.
  rewrite (Permutation_length Hp). split; [|done].
  rewrite <- (Permutation_length Hp). destruct sorted; [done | simpl; lia].
Qed.


Lemma fitz_pairs_apart (nminima : nat) (arch : option Archetype) (t : Table) :
  fitz_with nminima arch = inr t ->
  ForallOrdPairs (fun za zb => apart max_velo_diff za zb \/ apart max_velo_diff zb za)
                 (t_z t).
Proof.
  intros E.
  apply fitz_inr in E as (cands & acc & sorted & npix & _ & _ & Ha & _ & Hp & _ & _ & _ & ->).
  simpl. apply refine_all_apart in Ha.
  eapply (ordered_pairs_perm _ (map z acc)).
  - intros a b [H|H]; auto.
  - apply Permutation_map. by symmetry.
  - eapply ordered_pairs_impl; [|exact Ha]. simpl. auto.
Qed.

Lemma fitz_empty_asserts (nminima : nat) (arch : option Archetype) (cands : list nat) :
  length zchi2_in = length redshifts ->
  legendre_setup spectra arch = inr tt ->
  find_minima zchi2_in = inr cands ->
  refine_all_with nminima arch cands [] = inr [] ->
  fitz_with nminima arch = inl AssertionError.
Proof.
  intros Hl Hs Hc Hr. unfold fitz.fitz.
  rewrite Hl, Nat.eqb_refl. simpl negb. cbv iota.
  rewrite Hs, Hc. cbn beta iota delta [bind]. rewrite Hr. reflexivity.
Qed.


Lemma eval_at_zmin_value_error (zmin : Q) (zw : Z) (r0 rl : Q) :
  calc_zchi2 h spectra template zmin = inl ValueError ->
  redshifts !! 0%nat = Some r0 ->
  redshifts !! (length redshifts - 1)%nat = Some rl ->
  fitz.eval_at_zmin BAD_MINFIT Z_FITLIMIT calc_zchi2 h redshifts spectra template
                    zmin zw
  = if Qltb zmin r0 || Qltb rl zmin
    then inr (repeat 0 (nbasis template), Z.lor (Z.lor zw Z_FITLIMIT) BAD_MINFIT)
    else inl ValueError.
Proof.
  intros Hc H0 Hl. unfold fitz.eval_at_zmin. rewrite Hc.
  apply getitem_inr in H0. rewrite H0.
  unfold getitem_neg.
  assert (1 <= length redshifts)%nat.
  { destruct redshifts; [discriminate | simpl; lia]. }
  destruct (Nat.leb_spec 1 (length redshifts)); [|lia].
  apply getitem_inr in Hl. rewrite Hl. reflexivity.
Qed.

Lemma eval_at_zmin_ok (zmin : Q) (zw : Z) (c : Q) (co : list Q) :
  calc_zchi2 h spectra template zmin = inr (c, co) ->
  fitz.eval_at_zmin BAD_MINFIT Z_FITLIMIT calc_zchi2 h redshifts spectra template
                    zmin zw
  = inr (co, zw).
Proof. intros Hc. unfold fitz.eval_at_zmin. by rewrite Hc. Qed.

Lemma refine_out_of_range (results : list Minimum) (imin : nat)
    (zz0 zzc : list Q) (zmin sigma c : Q) (zw : Z) (r0 rl : Q) :
  (2 <= length redshifts)%nat -> (imin < length redshifts)%nat ->
  fitz.fine_fit np_sqrt BAD_MINFIT calc_zchi2 h zchi2_in redshifts spectra
                template imin = inr (zz0, zzc, (zmin, sigma, c, zw)) ->
  calc_zchi2 h spectra template zmin = inl ValueError ->
  redshifts !! 0%nat = Some r0 ->
  redshifts !! (length redshifts - 1)%nat = Some rl ->
  zmin < r0 \/ rl < zmin ->
  exists r, refine_with None results imin = inr r
    /\ forall m, r = Some m ->
         coeff m = repeat 0 (nbasis template)
         /\ has_flag (zwarn m) Z_FITLIMIT /\ has_flag (zwarn m) BAD_MINFIT.
Proof.
  intros Hlen Hi Hf Hc H0 Hl Hout. unfold fitz.refine.
  destruct (getitem_lt redshifts imin Hi) as (zc & -> & _).
  cbn beta iota delta [bind].
  destruct (too_close max_velo_diff zc (map z results)).
  { exists None. split; [reflexivity | discriminate]. }
  rewrite Hf. cbn beta iota delta [bind].
  pose proof (eval_at_zmin_value_error zmin zw r0 rl Hc H0 Hl) as He.
  assert (Ho : Qltb zmin r0 || Qltb rl zmin = true).
  { apply orb_true_iff. destruct Hout; [left|right]; by apply Qltb_lt. }
  rewrite Ho in He.
  apply fine_fit_inr in Hf as (Hz & Hzc & _).
  destruct (accept_total BAD_MINFIT Z_FITLIMIT max_velo_diff calc_zchi2
              arch_zchi2_one h redshifts spectra template None
              (map z results) zz0 zzc zmin sigma c zw _ _ eq_refl He)
    as (r & -> & _ & Hm); [congruence | | done |].
  { intros ->. discriminate. }
  exists r. split; [reflexivity|]. intros m Hr.
  destruct (Hm m Hr) as [Hco Hfl]. split; [done|]. split; apply Hfl.
  - apply has_flag_lor_l, has_flag_lor_r.
  - apply has_flag_lor_r.
Qed.

Lemma npixels_sum (arrays : list (list Q)) :
  Forall2 (fun s a => h !! ivar s = Some a) spectra arrays ->
  npixels h spectra = inr (sum_list (map count_positive arrays)).
Proof.
  induction 1 as [|s a ss arrs Hs _ IH]; simpl; [done|].
  unfold deref. rewrite Hs. cbn beta iota delta [bind]. rewrite IH. reflexivity.
Qed.


End FitzResults.

(** ** Spectrum.__init__ *)

Section SpectrumFacts.

Variable min_resolution_integral : Q.

Local Abbreviation Spectrum_init := (targets.Spectrum_init min_resolution_integral).

Local Abbreviation unresolved := (unresolved min_resolution_integral).

Lemma mask_zero_lookup (w : list bool) (a : list Q) (i : nat) (b : bool) (v : Q) :
  w !! i = Some b -> a !! i = Some v ->
  mask_zero w a !! i = Some (if b then 0 else v).
Proof.
  intros Hw Ha. unfold mask_zero. rewrite lookup_zip_with, Hw, Ha. done.
Qed.

Lemma Spectrum_init_store (wave flux ivar : loc) (r : dia_matrix)
    (Rcsr : option csr_matrix) (h : store) (a : list Q) :
  h !! ivar = Some a -> length (row_sums r) = length a ->
  fst (Spectrum_init wave flux ivar (Some r) Rcsr h)
  = <[ivar := mask_zero (unresolved r) a]> h.
Proof.
  intros Ha Hlen. unfold targets.Spectrum_init, zero_unresolved.
  rewrite Ha, length_map, Hlen, Nat.eqb_refl. reflexivity.
Qed.

Lemma Spectrum_init_fields (wave flux ivar : loc) (R : option dia_matrix)
    (Rcsr : option csr_matrix) (h : store) (s : Spectrum) :
  snd (Spectrum_init wave flux ivar R Rcsr h) = inr s ->
  targets.wave s = wave /\ targets.flux s = flux /\ targets.ivar s = ivar
  /\ targets.R s = R.
Proof.
  unfold targets.Spectrum_init.
  destruct (zero_unresolved _ ivar R h) as [h1 r1]. simpl. intros H.
  apply bind_inr in H as (? & _ & H). apply bind_inr in H as (w & _ & H).
  apply bind_inr in H as (w0 & _ & H). apply bind_inr in H as (w1 & _ & H).
  apply bind_inr in H as (w2 & _ & H). apply bind_inr in H as (w3 & _ & H).
  inversion H. done.
Qed.

Lemma Spectrum_init_returns (wave flux ivar : loc) (r : dia_matrix)
    (Rcsr : option csr_matrix) (h : store) (a w : list Q) :
  h !! ivar = Some a -> length (row_sums r) = length a ->
  (<[ivar := mask_zero (unresolved r) a]> h) !! wave = Some w ->
  (2 <= length w)%nat ->
  exists s, snd (Spectrum_init wave flux ivar (Some r) Rcsr h) = inr s.
Proof.
  intros Ha Hlen Hw H2. unfold targets.Spectrum_init, zero_unresolved.
  rewrite Ha, length_map, Hlen, Nat.eqb_refl. simpl snd.
  unfold deref. fold (unresolved r). rewrite Hw.
  cbn beta iota delta [bind ret].
  destruct (getitem_lt w 0) as (w0 & -> & _); [lia|].
  destruct (getitem_lt w 1) as (w1 & -> & _); [lia|].
  unfold getitem_neg.
  destruct (Nat.leb_spec 2 (length w)); [|lia].
  destruct (Nat.leb_spec 1 (length w)); [|lia].
  destruct (getitem_lt w (length w - 2)) as (w2 & -> & _); [lia|].
  destruct (getitem_lt w (length w - 1)) as (w3 & -> & _); [lia|].
  cbn beta iota delta [bind ret]. eauto.
Qed.

End SpectrumFacts.

(** ** numpy's default sort sorts *)

Section AquicksortFacts.

Import npysort.

Variable v : list Q.

Local Abbreviation key := (key_at v).
Local Abbreviation ascending := (npysort.ascending v).
Local Abbreviation sorts_range := (npysort.sorts_range v).
Local Abbreviation heap_from := (npysort.heap_from v).

Lemma length_put (t : list nat) (p : Z) (i : nat) : length (put_ t p i) = length t.
Proof. apply length_insert. Qed.

Lemma at_put_eq (t : list nat) (p : Z) (i : nat) :
  (0 <= p < Z.of_nat (length t))%Z -> at_ (put_ t p i) p = i.
Proof.
  intros Hp. unfold at_, put_. apply nth_lookup_Some.
  apply list_lookup_insert_eq. lia.
Qed.

Lemma at_put_ne (t : list nat) (p q : Z) (i : nat) :
  (0 <= p)%Z -> (0 <= q)%Z -> p <> q -> at_ (put_ t p i) q = at_ t q.
Proof.
  intros Hp Hq Hne. unfold at_, put_.
  rewrite !nth_lookup. by rewrite list_lookup_insert_ne by lia.
Qed.

Lemma put_at (t : list nat) (p : Z) :
  (0 <= p < Z.of_nat (length t))%Z -> put_ t p (at_ t p) = t.
Proof.
  intros Hp. unfold at_, put_. apply list_insert_id.
  apply lookup_nth. lia.
Qed.

Lemma put_put (t : list nat) (p : Z) (i j : nat) :
  put_ (put_ t p i) p j = put_ t p j.
Proof. apply list_insert_insert_eq. Qed.

Lemma put_commute (t : list nat) (p q : Z) (i j : nat) :
  (0 <= p)%Z -> (0 <= q)%Z -> p <> q ->
  put_ (put_ t p i) q j = put_ (put_ t q j) p i.
Proof. intros Hp Hq Hne. apply list_insert_insert_ne. lia. Qed.

Lemma length_swap (t : list nat) (p q : Z) : length (INTP_SWAP t p q) = length t.
Proof. unfold INTP_SWAP. by rewrite !length_put. Qed.

Lemma at_swap (t : list nat) (p q r : Z) :
  (0 <= p < Z.of_nat (length t))%Z -> (0 <= q < Z.of_nat (length t))%Z ->
  (0 <= r)%Z ->
  at_ (INTP_SWAP t p q) r
  = if decide (r = p) then at_ t q else if decide (r = q) then at_ t p else at_ t r.
Proof.
  intros Hp Hq Hr. unfold INTP_SWAP.
  destruct (decide (r = p)) as [->|Hrp].
  - apply at_put_eq. by rewrite length_put.
  - rewrite at_put_ne by lia.
    destruct (decide (r = q)) as [->|Hrq]; [by apply at_put_eq|].
    apply at_put_ne; lia.
Qed.

Lemma swap_perm (t : list nat) (p q : Z) :
  (0 <= p < Z.of_nat (length t))%Z -> (0 <= q < Z.of_nat (length t))%Z ->
  Permutation (INTP_SWAP t p q) t.
Proof.
  intros Hp Hq. unfold INTP_SWAP, put_, at_.
  apply Permutation_insert_swap; apply lookup_nth; lia.
Qed.

Lemma sorts_range_refl (lo hi : Z) (t : list nat) :
  ascending lo hi t -> sorts_range lo hi t t.
Proof. intros H. by split_and!. Qed.

(** The values a sort leaves in its range are those it found there. *)
Lemma range_content (lo hi : Z) (t r : list nat) (p : Z) :
  length r = length t -> Permutation r t -> same_outside lo hi r t ->
  (0 <= lo)%Z -> (hi < Z.of_nat (length t))%Z ->
  (lo <= p <= hi)%Z ->
  exists q, (lo <= q <= hi)%Z /\ at_ r p = at_ t q.
Proof.
  intros Hlen Hperm Hout Hlo Hhi Hp.
  set (a := Z.to_nat lo). set (n := Z.to_nat (hi + 1 - lo)).
  assert (Hsplit : forall l : list nat,
            l = take a l ++ take n (drop a l) ++ drop (a + n) l).
  { intros l. rewrite <- drop_drop, take_drop. by rewrite take_drop. }
  assert (Ht : take a r = take a t).
  { apply list_eq. intros i. destruct (decide (i < a)%nat) as [Hi|Hi].
    - rewrite !lookup_take_lt by done.
      assert (Hil : (i < length t)%nat) by lia.
      rewrite (lookup_nth r i 0%nat), (lookup_nth t i 0%nat) by lia.
      f_equal. specialize (Hout (Z.of_nat i)). unfold at_ in Hout.
      rewrite Nat2Z.id in Hout. apply Hout; lia.
    - by rewrite !lookup_take_ge by lia. }
  assert (Hd : drop (a + n) r = drop (a + n) t).
  { apply list_eq. intros i. rewrite !lookup_drop.
    destruct (decide (a + n + i < length t)%nat) as [Hi|Hi].
    - rewrite (lookup_nth r _ 0%nat), (lookup_nth t _ 0%nat) by lia.
      f_equal. specialize (Hout (Z.of_nat (a + n + i))). unfold at_ in Hout.
      rewrite Nat2Z.id in Hout. apply Hout; lia.
    - rewrite !(proj2 (lookup_ge_None _ _)) by lia. done. }
  assert (Hmid : Permutation (take n (drop a r)) (take n (drop a t))).
  { rewrite (Hsplit r), (Hsplit t), Ht, Hd in Hperm.
    apply Permutation_app_inv_l in Hperm.
    by apply Permutation_app_inv_r in Hperm. }
  assert (Hin : In (at_ r p) (take n (drop a r))).
  { apply list_elem_of_In. apply list_elem_of_lookup.
    exists (Z.to_nat (p - lo)).
    rewrite lookup_take_lt by lia. rewrite lookup_drop.
    replace (a + Z.to_nat (p - lo))%nat with (Z.to_nat p) by lia.
    apply lookup_nth. lia. }
  apply (Permutation_in _ Hmid) in Hin.
  apply list_elem_of_In in Hin.
  apply list_elem_of_lookup in Hin as [k Hk].
  assert (Hkn : (k < n)%nat).
  { apply lookup_lt_Some in Hk. rewrite length_take in Hk. lia. }
  rewrite lookup_take_lt, lookup_drop in Hk by done.
  exists (lo + Z.of_nat k)%Z. split; [lia|].
  unfold at_ at 2. replace (Z.to_nat (lo + Z.of_nat k)) with (a + k)%nat by lia.
  symmetry. by apply nth_lookup_Some.
Qed.

(** A bound on the keys of a range survives a sort of it. *)
Lemma range_bound (P : Q -> Prop) (lo hi : Z) (t r : list nat) :
  length r = length t -> Permutation r t -> same_outside lo hi r t ->
  (0 <= lo)%Z -> (hi < Z.of_nat (length t))%Z ->
  (forall q, (lo <= q <= hi)%Z -> P (key t q)) ->
  forall p, (lo <= p <= hi)%Z -> P (key r p).
Proof.
  intros Hlen Hperm Hout Hlo Hhi HP p Hp.
  destruct (range_content lo hi t r p) as (q & Hq & E); try done.
  unfold key_at. rewrite E. by apply HP.
Qed.

(** *** The insertion sort *)

Lemma shift_up_spec (vp : Q) (vi : nat) (pl : Z) (fuel : nat) :
  forall (t : list nat) (pj : Z),
    (0 <= pl)%Z -> (pl <= pj)%Z -> (pj < Z.of_nat (length t))%Z ->
    (Z.to_nat (pj - pl) <= fuel)%nat ->
    let r := shift_up v fuel t vp vi pl pj in
    length r = length t
    /\ Permutation r (put_ t pj vi)
    /\ exists j, (pl <= j <= pj)%Z
         /\ (forall p, (0 <= p)%Z -> (p < j \/ pj < p)%Z -> at_ r p = at_ t p)
         /\ at_ r j = vi
         /\ (forall p, (j < p <= pj)%Z -> at_ r p = at_ t (p - 1))
         /\ (forall p, (j <= p < pj)%Z -> vp < key t p)
         /\ (j = pl \/ key t (j - 1) <= vp).
Proof.
  induction fuel as [|fuel IH]; intros t pj Hpl Hpj Hlen Hf; simpl.
  - assert (pj = pl) as -> by lia.
    split; [apply length_put|]. split; [done|].
    exists pl. split_and!; try lia.
    + intros p Hp Hpp. apply at_put_ne; lia.
    + apply at_put_eq; lia.
  - destruct ((pj >? pl)%Z && Qltb vp (key t (pj - 1))) eqn:E.
    + apply andb_true_iff in E as [E1 E2]. apply Z.gtb_lt in E1.
      apply Qltb_lt in E2.
      set (t' := put_ t pj (at_ t (pj - 1))).
      destruct (IH t' (pj - 1)%Z) as (Hl & Hp & j & Hj & H1 & H2 & H3 & H4 & H5);
        [lia | lia | unfold t'; rewrite length_put; lia | lia |].
      assert (Hk : forall p, (0 <= p)%Z -> p <> pj -> at_ t' p = at_ t p).
      { intros p Hp0 Hne. apply at_put_ne; lia. }
      split; [by rewrite Hl; apply length_put|]. split.
      * rewrite Hp. unfold t'.
        assert (E : put_ (put_ t pj (at_ t (pj - 1))) (pj - 1) vi
                    = INTP_SWAP (put_ t pj vi) pj (pj - 1)).
        { unfold INTP_SWAP. rewrite at_put_eq by lia.
          rewrite (at_put_ne t pj (pj - 1)) by lia.
          rewrite (put_commute t pj (pj - 1) vi vi) by lia.
          rewrite put_put. apply put_commute; lia. }
        rewrite E. apply swap_perm; rewrite length_put; lia.
      * exists j. split_and!; try lia.
        -- intros p Hp0 Hpp. destruct (decide (p = pj)) as [->|Hne]; [lia|].
           rewrite H1 by lia. by apply Hk.
        -- intros p Hpp. destruct (decide (p = pj)) as [->|Hne].
           ++ rewrite H1 by lia. unfold t'. apply at_put_eq. lia.
           ++ rewrite H3 by lia. apply Hk; lia.
        -- intros p Hpp. destruct (decide (p = pj - 1)%Z) as [->|Hne]; [done|].
           unfold key_at. rewrite <- (Hk p) by lia. apply H4. lia.
        -- destruct (decide (j = pl)) as [|Hjl]; [by left|right].
           destruct H5 as [H5|H5]; [done|].
           unfold key_at in *. by rewrite <- (Hk (j - 1)%Z) by lia.
    + split; [apply length_put|]. split; [done|].
      exists pj. split_and!; try lia.
      * intros p Hp Hpp. apply at_put_ne; lia.
      * apply at_put_eq; lia.
      * apply andb_false_iff in E as [E|E].
        -- left. rewrite Z.gtb_ltb in E. apply Z.ltb_ge in E. lia.
        -- right. by apply Qltb_ge.
Qed.

Lemma fold_left_seq_ind {A : Type} (P : nat -> A -> Prop) (f : A -> nat -> A)
    (n : nat) (a : A) :
  P 0%nat a ->
  (forall k x, (k < n)%nat -> P k x -> P (S k) (f x k)) ->
  P n (fold_left f (seq 0 n) a).
Proof.
  intros H0 Hs. induction n as [|n IH].
  - done.
  - rewrite seq_S, fold_left_app. simpl. apply Hs; [lia|].
    apply IH. intros k x Hk. apply Hs. lia.
Qed.

Lemma ascending_short (lo hi : Z) (t : list nat) :
  (hi <= lo)%Z -> ascending lo hi t.
Proof.
  intros H p q Hp Hpq Hq. assert (p = q) as -> by lia. apply Qle_refl.
Qed.

Lemma insertion_sort_spec (t : list nat) (pl pr : Z) :
  (0 <= pl)%Z -> (pr < Z.of_nat (length t))%Z ->
  sorts_range pl pr t (insertion_sort v t pl pr).
Proof.
  intros Hpl Hpr. unfold insertion_sort.
  set (step := fun (t : list nat) (k : nat) => _).
  set (n := Z.to_nat (pr - pl)).
  assert (H : sorts_range pl (pl + Z.of_nat n) t (fold_left step (seq 0 n) t)).
  { apply (fold_left_seq_ind (fun k r => sorts_range pl (pl + Z.of_nat k) t r)).
    - apply sorts_range_refl. apply ascending_short. lia.
    - intros k x Hk (Hlen & Hperm & Hout & Hasc). unfold step.
      set (pi := (pl + 1 + Z.of_nat k)%Z).
      destruct (shift_up_spec (nth (at_ x pi) v 0) (at_ x pi) pl (length x) x pi)
        as (Hl & Hp & j & Hj & H1 & H2 & H3 & H4 & H5); [lia | lia | lia | lia |].
      rewrite put_at in Hp by lia.
      set (r := shift_up _ _ _ _ _ _ _) in *.
      split_and!.
      + congruence.
      + by rewrite Hp.
      + intros p Hp0 Hpp. rewrite H1 by lia. apply Hout; lia.
      + assert (Hr : forall p, (pl <= p <= pi)%Z ->
                  key r p = if decide (p < j)%Z then key x p
                            else if decide (p = j) then key x pi
                            else key x (p - 1)).
        { intros p Hpp. unfold key_at. repeat case_decide.
          - by rewrite H1 by lia.
          - subst p. by rewrite H2.
          - by rewrite H3 by lia. }
        intros p q Hp1 Hpq Hq1. rewrite (Hr p), (Hr q) by lia.
        assert (Ha : forall a b, (pl <= a)%Z -> (a <= b)%Z -> (b <= pi - 1)%Z ->
                              key x a <= key x b).
        { intros a b ???. apply Hasc; lia. }
        repeat case_decide; try lia.
        * apply Ha; lia.
        * destruct H5 as [H5|H5]; [lia|].
          apply Qle_trans with (key x (j - 1)); [apply Ha; lia | done].
        * apply Ha; lia.
        * apply Qle_refl.
        * apply Qlt_le_weak. apply H4. lia.
        * apply Ha; lia. }
  destruct (decide (pl <= pr)%Z) as [Hle|Hgt].
  - by replace (pl + Z.of_nat n)%Z with pr in H by lia.
  - replace n with 0%nat by lia. simpl.
    apply sorts_range_refl. apply ascending_short. lia.
Qed.

(** *** The partition *)

Lemma scan_up_spec (vp : Q) (t : list nat) (fuel : nat) :
  forall s u : Z,
    (s <= u)%Z -> vp <= key t u -> (Z.to_nat (u - s) < fuel)%nat ->
    let r := scan_up v fuel t vp s in
    (s <= r <= u)%Z /\ vp <= key t r
    /\ forall p, (s <= p < r)%Z -> key t p < vp.
Proof.
  induction fuel as [|fuel IH]; intros s u Hsu Hu Hf; [lia|]. simpl.
  destruct (Qltb (key t s) vp) eqn:E.
  - apply Qltb_lt in E.
    assert (s <> u) by (intros ->; lra).
    destruct (IH (s + 1)%Z u) as (H1 & H2 & H3); [lia | done | lia |].
    split_and!; [lia | lia | done |].
    intros p Hp. destruct (decide (p = s)) as [->|Hne]; [done|].
    apply H3. lia.
  - apply Qltb_ge in E. split_and!; [lia | lia | done |].
    intros p Hp. lia.
Qed.

Lemma scan_down_spec (vp : Q) (t : list nat) (fuel : nat) :
  forall s u : Z,
    (u <= s)%Z -> key t u <= vp -> (Z.to_nat (s - u) < fuel)%nat ->
    let r := scan_down v fuel t vp s in
    (u <= r <= s)%Z /\ key t r <= vp
    /\ forall p, (r < p <= s)%Z -> vp < key t p.
Proof.
  induction fuel as [|fuel IH]; intros s u Hsu Hu Hf; [lia|]. simpl.
  destruct (Qltb vp (key t s)) eqn:E.
  - apply Qltb_lt in E.
    assert (s <> u) by (intros ->; lra).
    destruct (IH (s - 1)%Z u) as (H1 & H2 & H3); [lia | done | lia |].
    split_and!; [lia | lia | done |].
    intros p Hp. destruct (decide (p = s)) as [->|Hne]; [done|].
    apply H3. lia.
  - apply Qltb_ge in E. split_and!; [lia | lia | done |].
    intros p Hp. lia.
Qed.

Lemma key_swap (t : list nat) (p q r : Z) :
  (0 <= p < Z.of_nat (length t))%Z -> (0 <= q < Z.of_nat (length t))%Z ->
  (0 <= r)%Z ->
  key (INTP_SWAP t p q) r
  = if decide (r = p) then key t q else if decide (r = q) then key t p else key t r.
Proof.
  intros Hp Hq Hr. unfold key_at. rewrite at_swap by done.
  by repeat case_decide.
Qed.

Lemma partition_loop_spec (vp : Q) (pl pr : Z) (fuel : nat) :
  forall (t : list nat) (pi pj : Z),
    (0 <= pl)%Z -> (pl <= pi)%Z -> (pi < pj)%Z -> (pj <= pr - 1)%Z ->
    (pr < Z.of_nat (length t))%Z ->
    (forall p, (pl <= p <= pi)%Z -> key t p <= vp) ->
    (forall p, (pj <= p <= pr)%Z -> vp <= key t p) ->
    (Z.to_nat (pj - pi) <= fuel)%nat ->
    exists t' pi',
      partition_loop v fuel t vp pi pj = (t', pi')
      /\ length t' = length t /\ Permutation t' t
      /\ same_outside (pi + 1) (pj - 1) t' t
      /\ (pi < pi' <= pj)%Z
      /\ (forall p, (pl <= p < pi')%Z -> key t' p <= vp)
      /\ (forall p, (pi' <= p <= pr)%Z -> vp <= key t' p).
Proof.
  induction fuel as [|fuel IH]; intros t pi pj Hpl Hpi Hij Hpj Hpr Hlo Hhi Hf;
    [lia|].
  simpl.
  destruct (scan_up_spec vp t (length t) (pi + 1) pj) as (U1 & U2 & U3);
    [lia | apply Hhi; lia | lia |].
  destruct (scan_down_spec vp t (length t) (pj - 1) pi) as (D1 & D2 & D3);
    [lia | apply Hlo; lia | lia |].
  set (pi1 := scan_up v (length t) t vp (pi + 1)) in *.
  set (pj1 := scan_down v (length t) t vp (pj - 1)) in *.
  destruct (Z.geb_spec pi1 pj1) as [Hge|Hlt].
  - exists t, pi1. split_and!; try done; try lia.
    + intros p Hp. destruct (decide (p <= pi)%Z); [apply Hlo; lia|].
      apply Qlt_le_weak. apply U3. lia.
    + intros p Hp. destruct (decide (pj <= p)%Z); [apply Hhi; lia|].
      destruct (decide (p = pi1)) as [->|Hne]; [done|].
      apply Qlt_le_weak. apply D3. lia.
  - destruct (IH (INTP_SWAP t pi1 pj1) pi1 pj1)
      as (t' & pi' & E & Hl & Hp & Ho & Hi' & Hlo' & Hhi');
      try lia.
    + rewrite length_swap. lia.
    + intros p Hp. rewrite key_swap by lia. repeat case_decide; try lia; [done|].
      destruct (decide (p <= pi)%Z); [apply Hlo; lia|].
      apply Qlt_le_weak. apply U3. lia.
    + intros p Hp. rewrite key_swap by lia. repeat case_decide; try lia; [done|].
      destruct (decide (pj <= p)%Z); [apply Hhi; lia|].
      apply Qlt_le_weak. apply D3. lia.
    + exists t', pi'. rewrite length_swap in Hl.
      split_and!; try done; try lia.
      * rewrite Hp. apply swap_perm; lia.
      * intros p Hp0 Hpp. rewrite Ho by lia. rewrite at_swap by lia.
        repeat case_decide; try lia; done.
Qed.

Lemma order_pair_spec (t : list nat) (a b : Z) :
  (0 <= a < Z.of_nat (length t))%Z -> (0 <= b < Z.of_nat (length t))%Z ->
  a <> b ->
  let t' := if Qltb (key t a) (key t b) then INTP_SWAP t a b else t in
  length t' = length t /\ Permutation t' t
  /\ (forall r, (0 <= r)%Z -> r <> a -> r <> b -> at_ t' r = at_ t r)
  /\ key t' b <= key t' a
  /\ ((key t' a = key t a /\ key t' b = key t b)
      \/ (key t' a = key t b /\ key t' b = key t a)).
Proof.
  intros Ha Hb Hab. destruct (Qltb (key t a) (key t b)) eqn:E; simpl.
  - apply Qltb_lt in E. split_and!.
    + apply length_swap.
    + by apply swap_perm.
    + intros r Hr Hra Hrb. rewrite at_swap by done. by repeat case_decide.
    + rewrite !key_swap by lia. repeat case_decide; try lia; try done.
      by apply Qlt_le_weak.
    + right. rewrite !key_swap by lia. by repeat case_decide.
  - apply Qltb_ge in E. split_and!; try done. by left.
Qed.

Lemma partition_spec (t : list nat) (pl pr : Z) :
  (0 <= pl)%Z -> (pr < Z.of_nat (length t))%Z -> (pr - pl > 16)%Z ->
  exists t' pi,
    partition v t pl pr = (t', pi)
    /\ length t' = length t /\ Permutation t' t
    /\ same_outside pl pr t' t
    /\ (pl < pi < pr)%Z
    /\ (forall p, (pl <= p < pi)%Z -> key t' p <= key t' pi)
    /\ (forall p, (pi < p <= pr)%Z -> key t' pi <= key t' p).
Proof.
  intros Hpl Hpr Hbig. unfold partition.
  set (pm := (pl + Z.shiftr (pr - pl) 1)%Z).
  assert (Hpm : (pl < pm < pr - 1)%Z).
  { unfold pm. rewrite Z.shiftr_div_pow2 by lia. change (2 ^ 1)%Z with 2%Z.
    pose proof (Z.div_mod (pr - pl) 2). pose proof (Z.mod_pos_bound (pr - pl) 2).
    lia. }
  destruct (order_pair_spec t pm pl) as (L1 & P1 & F1 & O1 & C1); [lia..|].
  set (t1 := if Qltb (key t pm) (key t pl) then _ else _) in *.
  destruct (order_pair_spec t1 pr pm) as (L2 & P2 & F2 & O2 & C2); [lia..|].
  set (t2 := if Qltb (key t1 pr) (key t1 pm) then _ else _) in *.
  destruct (order_pair_spec t2 pm pl) as (L3 & P3 & F3 & O3 & C3); [lia..|].
  set (t3 := if Qltb (key t2 pm) (key t2 pl) then _ else _) in *.
  assert (K2 : key t2 pl = key t1 pl) by (unfold key_at; rewrite F2 by lia; done).
  assert (K3 : key t3 pr = key t2 pr) by (unfold key_at; rewrite F3 by lia; done).
  assert (O : key t3 pm <= key t3 pr).
  { rewrite K3. destruct C3 as [[-> _]|[-> _]]; [done|]. rewrite K2.
    destruct C2 as [[E1 E2]|[E1 E2]]; rewrite E1 in *; rewrite E2 in *; lra. }
  set (vp := key t3 pm) in *.
  set (t4 := INTP_SWAP t3 pm (pr - 1)).
  assert (L4 : length t4 = length t) by (unfold t4; rewrite length_swap; lia).
  assert (K4 : forall p, (0 <= p)%Z ->
             key t4 p = if decide (p = pm) then key t3 (pr - 1)
                        else if decide (p = pr - 1)%Z then vp else key t3 p).
  { intros p Hp. unfold t4. apply key_swap; lia. }
  destruct (partition_loop_spec vp pl pr (length t4) t4 pl (pr - 1))
    as (t5 & pi & E & L5 & P5 & F5 & Hpi & Lo & Hi); try lia.
  { intros p Hp. assert (p = pl) as -> by lia. rewrite K4 by lia.
    repeat case_decide; try lia. done. }
  { intros p Hp. rewrite K4 by lia. repeat case_decide; try lia; [apply Qle_refl|].
    assert (p = pr) as -> by lia. done. }
  rewrite E.
  exists (INTP_SWAP t5 pi (pr - 1)), pi.
  assert (K5 : key t5 (pr - 1) = vp).
  { unfold key_at. rewrite F5 by lia. fold (key t4 (pr - 1)). rewrite K4 by lia.
    repeat case_decide; try lia. done. }
  assert (K6 : forall p, (0 <= p)%Z ->
             key (INTP_SWAP t5 pi (pr - 1)) p
             = if decide (p = pi) then vp
               else if decide (p = pr - 1)%Z then key t5 pi else key t5 p).
  { intros p Hp. rewrite key_swap by lia. rewrite K5. done. }
  split; [done|]. split; [rewrite length_swap; lia|]. split; [|split; [|split; [lia|split]]].
  - rewrite swap_perm by lia. rewrite P5. unfold t4. rewrite swap_perm by lia.
    by rewrite P3, P2.
  - intros p Hp Hout. rewrite at_swap by lia. repeat case_decide; try lia.
    rewrite F5 by lia. unfold t4. rewrite at_swap by lia.
    repeat case_decide; try lia. rewrite F3, F2, F1 by lia. done.
  - intros p Hp. rewrite !K6 by lia. repeat case_decide; try lia. apply Lo. lia.
  - intros p Hp. rewrite !K6 by lia. repeat case_decide; try lia; apply Hi; lia.
Qed.

(** *** The heapsort *)

Lemma key_put (t : list nat) (p q : Z) (i : nat) :
  (0 <= p < Z.of_nat (length t))%Z -> (0 <= q)%Z ->
  key (put_ t p i) q = if decide (q = p) then nth i v 0 else key t q.
Proof.
  intros Hp Hq. unfold key_at. case_decide as E.
  - subst q. by rewrite at_put_eq.
  - by rewrite at_put_ne by lia.
Qed.

Lemma sift_down_spec (pl lo n : Z) (tmp : nat) (fuel : nat) :
  forall (t : list nat) (i j : Z),
    (0 <= pl)%Z -> (1 <= lo)%Z -> (lo <= i)%Z -> (i <= n)%Z ->
    (pl + n <= Z.of_nat (length t))%Z -> j = (2 * i)%Z ->
    (Z.to_nat (n + 1 - i) <= fuel)%nat ->
    (forall k c, (lo <= k)%Z -> k <> i -> child k c -> (c <= n)%Z -> c <> i ->
                 key t (pl + c - 1) <= key t (pl + k - 1)) ->
    (forall k, (lo <= k)%Z -> child k i -> nth tmp v 0 <= key t (pl + k - 1)) ->
    (forall k c, (lo <= k)%Z -> child k i -> child i c -> (c <= n)%Z ->
                 key t (pl + c - 1) <= key t (pl + k - 1)) ->
    let r := sift_down v fuel t pl n tmp i j in
    length r = length t
    /\ Permutation r (put_ t (pl + i - 1) tmp)
    /\ (forall p, (0 <= p)%Z -> (p < pl + i - 1 \/ pl + n - 1 < p)%Z ->
                  at_ r p = at_ t p)
    /\ heap_from pl lo n r.
Proof.
  induction fuel as [|fuel IH];
    intros t i j Hpl Hlo Hi Hn Hlen -> Hf Ha Hb Hc; [lia|].
  assert (Hstop : (forall c, child i c -> (c <= n)%Z ->
                             key t (pl + c - 1) <= nth tmp v 0) ->
            let r := put_ t (pl + i - 1) tmp in
            length r = length t
            /\ Permutation r (put_ t (pl + i - 1) tmp)
            /\ (forall p, (0 <= p)%Z -> (p < pl + i - 1 \/ pl + n - 1 < p)%Z ->
                          at_ r p = at_ t p)
            /\ heap_from pl lo n r).
  { intros Hch. split; [apply length_put|]. split; [done|]. split.
    - intros p Hp Hpp. apply at_put_ne; lia.
    - intros k c Hk Hkc Hcn. rewrite !key_put by (unfold child in *; lia).
      repeat case_decide.
      + unfold child in *. lia.
      + apply Hb; [done|]. by replace i with c by lia.
      + replace k with i in * by lia. by apply Hch.
      + apply Ha; try done; lia. }
  simpl. destruct (Z.leb_spec (2 * i) n) as [Hj|Hj].
  2: { apply Hstop. intros c Hc1 Hc2. unfold child in *. lia. }
  set (ch := if (2 * i <? n)%Z
                && Qltb (key t (pl + 2 * i - 1)) (key t (pl + (2 * i + 1) - 1))
             then (2 * i + 1)%Z else (2 * i)%Z).
  assert (Hch : child i ch /\ (ch <= n)%Z
                /\ forall c, child i c -> (c <= n)%Z ->
                     key t (pl + c - 1) <= key t (pl + ch - 1)).
  { unfold ch.
    destruct ((2 * i <? n)%Z
              && Qltb (key t (pl + 2 * i - 1)) (key t (pl + (2 * i + 1) - 1)))
      eqn:E.
    - apply andb_true_iff in E as [E1 E2]. apply Z.ltb_lt in E1.
      apply Qltb_lt in E2.
      split; [by right|]. split; [lia|].
      intros c [->| ->] Hcn; [by apply Qlt_le_weak | apply Qle_refl].
    - split; [by left|]. split; [lia|].
      intros c [->| ->] Hcn; [apply Qle_refl|].
      apply andb_false_iff in E as [E|E]; [apply Z.ltb_ge in E; lia|].
      by apply Qltb_ge in E. }
  destruct Hch as (Hch1 & Hch2 & Hch3).
  assert (Hci : (i < ch)%Z) by (unfold child in Hch1; lia).
  destruct (Qltb (nth tmp v 0) (key t (pl + ch - 1))) eqn:E.
  2: { apply Qltb_ge in E. apply Hstop. intros c Hc1 Hc2.
       apply Qle_trans with (key t (pl + ch - 1)); [by apply Hch3 | done]. }
  apply Qltb_lt in E.
  set (t' := put_ t (pl + i - 1) (at_ t (pl + ch - 1))).
  assert (Hki : key t' (pl + i - 1) = key t (pl + ch - 1)).
  { unfold t'. rewrite key_put by lia. by rewrite decide_True. }
  assert (Hkx : forall x, (1 <= x)%Z -> x <> i ->
              key t' (pl + x - 1) = key t (pl + x - 1)).
  { intros x Hx Hne. unfold t'. rewrite key_put by lia.
    by rewrite decide_False by lia. }
  destruct (IH t' ch (ch + ch)%Z) as (Hl & Hp & Hf' & Hh); try lia.
  - unfold t'. rewrite length_put. lia.
  - intros k c Hk1 Hk2 Hkc Hcn Hc2.
    assert (1 <= c)%Z by (unfold child in Hkc; lia).
    destruct (decide (k = i)) as [->|Hki'].
    + rewrite Hki, Hkx by (unfold child in Hkc; lia). by apply Hch3.
    + rewrite (Hkx k) by lia. destruct (decide (c = i)) as [->|Hci'].
      * rewrite Hki. by apply (Hc k ch).
      * rewrite Hkx by lia. by apply Ha.
  - intros k Hk1 Hk2. assert (k = i) as -> by (unfold child in *; lia).
    rewrite Hki. by apply Qlt_le_weak.
  - intros k c Hk1 Hk2 Hkc Hcn.
    assert (k = i) as -> by (unfold child in *; lia).
    assert (1 <= c)%Z by (unfold child in Hkc; lia).
    rewrite Hki, Hkx by (unfold child in *; lia).
    apply Ha; try done; unfold child in *; lia.
  - split; [by rewrite Hl; apply length_put|]. split; [|split; [|done]].
    + rewrite Hp. unfold t'.
      assert (Es : put_ (put_ t (pl + i - 1) (at_ t (pl + ch - 1))) (pl + ch - 1) tmp
                   = INTP_SWAP (put_ t (pl + i - 1) tmp) (pl + i - 1) (pl + ch - 1)).
      { unfold INTP_SWAP. rewrite at_put_eq by lia.
        rewrite (at_put_ne t (pl + i - 1) (pl + ch - 1)) by lia.
        rewrite (put_commute (put_ t (pl + i - 1) tmp)) by lia.
        by rewrite put_put. }
      rewrite Es. apply swap_perm; rewrite length_put; lia.
    + intros p Hp0 Hpp. rewrite Hf' by lia. unfold t'. apply at_put_ne; lia.
Qed.

Lemma heap_root_max (pl n : Z) (t : list nat) :
  heap_from pl 1 n t ->
  forall q, (1 <= q <= n)%Z -> key t (pl + q - 1) <= key t (pl + 1 - 1).
Proof.
  intros Hh q Hq.
  assert (H : forall m : nat, forall q, (1 <= q <= n)%Z -> (Z.to_nat q <= m)%nat ->
                key t (pl + q - 1) <= key t (pl + 1 - 1)).
  { clear q Hq. induction m as [|m IH]; intros q Hq Hm; [lia|].
    destruct (decide (q = 1%Z)) as [->|Hne]; [apply Qle_refl|].
    apply Qle_trans with (key t (pl + (q / 2)%Z - 1)).
    - apply Hh; [| |lia].
      + pose proof (Z.div_mod q 2). pose proof (Z.mod_pos_bound q 2). lia.
      + unfold child. pose proof (Z.div_mod q 2).
        pose proof (Z.mod_pos_bound q 2). lia.
    - apply IH.
      + pose proof (Z.div_mod q 2). pose proof (Z.mod_pos_bound q 2). lia.
      + pose proof (Z.div_mod q 2). pose proof (Z.mod_pos_bound q 2). lia. }
  by apply (H (Z.to_nat q)).
Qed.

Lemma heapify_spec (t : list nat) (pl n : Z) :
  (0 <= pl)%Z -> (0 <= n)%Z -> (pl + n <= Z.of_nat (length t))%Z ->
  let r := fold_left (fun t k =>
                        let l := (Z.shiftr n 1 - Z.of_nat k)%Z in
                        sift_down v (length t) t pl n (at_ t (pl + l - 1)) l
                                  (Z.shiftl l 1))
                     (seq 0 (Z.to_nat (Z.shiftr n 1))) t in
  length r = length t /\ Permutation r t
  /\ same_outside pl (pl + n - 1) r t /\ heap_from pl 1 n r.
Proof.
  intros Hpl Hn Hlen.
  set (h := Z.shiftr n 1).
  assert (Hh : (2 * h <= n < 2 * h + 2)%Z).
  { unfold h. rewrite Z.shiftr_div_pow2 by lia. change (2 ^ 1)%Z with 2%Z.
    pose proof (Z.div_mod n 2). pose proof (Z.mod_pos_bound n 2). lia. }
  set (step := fun (t : list nat) (k : nat) => _).
  assert (H : let r := fold_left step (seq 0 (Z.to_nat h)) t in
              length r = length t /\ Permutation r t
              /\ same_outside pl (pl + n - 1) r t
              /\ heap_from pl (h - Z.of_nat (Z.to_nat h) + 1) n r).
  { apply (fold_left_seq_ind
             (fun k r => length r = length t /\ Permutation r t
                         /\ same_outside pl (pl + n - 1) r t
                         /\ heap_from pl (h - Z.of_nat k + 1) n r)).
    - split; [done|]. split; [done|]. split; [done|].
      intros k c Hk Hkc Hcn. unfold child in Hkc. lia.
    - intros k x Hk (Hl & Hp & Ho & Hhp). unfold step.
      set (l := (h - Z.of_nat k)%Z).
      destruct (sift_down_spec pl l n (at_ x (pl + l - 1)) (length x) x l
                               (Z.shiftl l 1))
        as (Hl' & Hp' & Ho' & Hh'); try lia.
      + rewrite Z.shiftl_mul_pow2 by lia. lia.
      + intros a c Ha Hne Hac Hcn Hci. apply Hhp; [lia|done|done].
      + intros a Ha Hai. unfold child in Hai. lia.
      + intros a c Ha Hai _ _. unfold child in Hai. lia.
      + rewrite put_at in Hp' by lia.
        split; [congruence|]. split; [by rewrite Hp'|]. split.
        * intros p Hp0 Hpp. rewrite Ho' by lia. by apply Ho.
        * by replace (h - Z.of_nat (S k) + 1)%Z with l by lia. }
  by replace (h - Z.of_nat (Z.to_nat h) + 1)%Z with 1%Z in H by lia.
Qed.

Lemma extract_spec (t : list nat) (pl n : Z) :
  (0 <= pl)%Z -> (0 <= n)%Z -> (pl + n <= Z.of_nat (length t))%Z ->
  heap_from pl 1 n t ->
  let r := fold_left (fun t k =>
                        let n := (n - Z.of_nat k)%Z in
                        let tmp := at_ t (pl + n - 1) in
                        let t := put_ t (pl + n - 1) (at_ t (pl + 1 - 1)) in
                        sift_down v (length t) t pl (n - 1) tmp 1 2)
                     (seq 0 (Z.to_nat (n - 1))) t in
  sorts_range pl (pl + n - 1) t r.
Proof.
  intros Hpl Hn Hlen Hheap.
  set (step := fun (t : list nat) (k : nat) => _).
  set (cnt := Z.to_nat (n - 1)).
  assert (H : let r := fold_left step (seq 0 cnt) t in
              length r = length t /\ Permutation r t
              /\ same_outside pl (pl + n - 1) r t
              /\ heap_from pl 1 (n - Z.of_nat cnt) r
              /\ (forall p q, (1 <= p <= n - Z.of_nat cnt)%Z ->
                              (n - Z.of_nat cnt < q <= n)%Z ->
                              key r (pl + p - 1) <= key r (pl + q - 1))
              /\ ascending (pl + (n - Z.of_nat cnt)) (pl + n - 1) r).
  { apply (fold_left_seq_ind
             (fun k r => length r = length t /\ Permutation r t
                /\ same_outside pl (pl + n - 1) r t
                /\ heap_from pl 1 (n - Z.of_nat k) r
                /\ (forall p q, (1 <= p <= n - Z.of_nat k)%Z ->
                                (n - Z.of_nat k < q <= n)%Z ->
                                key r (pl + p - 1) <= key r (pl + q - 1))
                /\ ascending (pl + (n - Z.of_nat k)) (pl + n - 1) r)).
    - split; [done|]. split; [done|]. split; [done|].
      split; [by replace (n - Z.of_nat 0)%Z with n by lia|].
      split; [intros p q ??; lia|]. apply ascending_short. lia.
    - intros k x Hk (Hl & Hp & Ho & Hh & Hle & Hasc). unfold step.
      set (m := (n - Z.of_nat k)%Z) in *.
      assert (Hm : (2 <= m <= n)%Z) by lia.
      set (tmp := at_ x (pl + m - 1)).
      set (x1 := put_ x (pl + m - 1) (at_ x (pl + 1 - 1))).
      assert (L1 : length x1 = length x) by apply length_put.
      destruct (sift_down_spec pl 1 (m - 1) tmp (length x1) x1 1 2)
        as (Hl' & Hp' & Ho' & Hh'); try lia.
      + intros a c Ha Hne Hac Hcn Hci. unfold x1.
        rewrite !key_put by (unfold child in Hac; lia).
        rewrite !decide_False by (unfold child in Hac; lia).
        apply Hh; [done|done|lia].
      + intros a Ha Hai. unfold child in Hai. lia.
      + intros a c Ha Hai _ _. unfold child in Hai. lia.
      + set (r := sift_down v (length x1) x1 pl (m - 1) tmp 1 2) in *.
        assert (Es : put_ x1 (pl + 1 - 1) tmp
                     = INTP_SWAP x (pl + 1 - 1) (pl + m - 1)) by done.
        rewrite Es, swap_perm in Hp' by lia.
        assert (Hox : same_outside pl (pl + m - 1) r x).
        { intros p Hp0 Hpp. rewrite Ho' by lia. unfold x1. apply at_put_ne; lia. }
        assert (Ktop : key r (pl + m - 1) = key x (pl + 1 - 1)).
        { unfold key_at. rewrite Ho' by lia. unfold x1. by rewrite at_put_eq by lia. }
        assert (Kup : forall q, (m < q <= n)%Z ->
                  key r (pl + q - 1) = key x (pl + q - 1)).
        { intros q Hq. unfold key_at. by rewrite Hox by lia. }
        assert (Hb : forall p, (1 <= p <= m)%Z ->
                  key r (pl + p - 1) <= key x (pl + 1 - 1)
                  /\ forall q, (m < q <= n)%Z ->
                       key r (pl + p - 1) <= key x (pl + q - 1)).
        { intros p Hp1.
          apply (range_bound
                   (fun y => y <= key x (pl + 1 - 1)
                             /\ forall q, (m < q <= n)%Z -> y <= key x (pl + q - 1))
                   pl (pl + m - 1) x r); try lia; try done.
          intros q Hq. replace q with (pl + (q - pl + 1) - 1)%Z by lia. split.
          - apply (heap_root_max pl m x Hh). lia.
          - intros q' Hq'. apply Hle; lia. }
        split; [congruence|]. split; [by rewrite Hp'|]. split; [|split; [|split]].
        * intros p Hp0 Hpp. rewrite Hox by lia. by apply Ho.
        * by replace (n - Z.of_nat (S k))%Z with (m - 1)%Z by lia.
        * intros p q Hp1 Hq1. destruct (Hb p) as [B1 B2]; [lia|].
          destruct (decide (q = m)) as [->|Hqm].
          -- by rewrite Ktop.
          -- rewrite (Kup q) by lia. apply B2. lia.
        * assert (Kpos : forall q, (pl + m - 1 < q <= pl + n - 1)%Z ->
                    key r q = key x q).
          { intros q Hq. replace q with (pl + (q - pl + 1) - 1)%Z by lia.
            apply Kup. lia. }
          intros p q Hp1 Hpq Hq1.
          destruct (decide (p = q)) as [->|Hne]; [apply Qle_refl|].
          rewrite (Kpos q) by lia.
          destruct (decide (p = pl + m - 1)%Z) as [->|Hpm].
          -- rewrite Ktop. replace q with (pl + (q - pl + 1) - 1)%Z by lia.
             apply Hle; lia.
          -- rewrite (Kpos p) by lia. apply Hasc; lia. }
  destruct H as (Hl & Hp & Ho & Hh & Hle & Hasc).
  split; [done|]. split; [done|]. split; [done|].
  destruct (decide (n <= 1)%Z) as [Hn1|Hn1]; [apply ascending_short; lia|].
  replace (n - Z.of_nat cnt)%Z with 1%Z in * by lia.
  intros p q Hp1 Hpq Hq1.
  destruct (decide (p = q)) as [->|Hne]; [apply Qle_refl|].
  destruct (decide (p = pl)) as [->|Hppl].
  - replace pl with (pl + 1 - 1)%Z at 1 by lia.
    replace q with (pl + (q - pl + 1) - 1)%Z by lia. apply Hle; lia.
  - apply Hasc; lia.
Qed.

Lemma aheapsort_spec (t : list nat) (pl n : Z) :
  (0 <= pl)%Z -> (0 <= n)%Z -> (pl + n <= Z.of_nat (length t))%Z ->
  sorts_range pl (pl + n - 1) t (aheapsort v t pl n).
Proof.
  intros Hpl Hn Hlen. unfold aheapsort.
  pose proof (heapify_spec t pl n Hpl Hn Hlen) as H. cbv zeta in H.
  match goal with
  | |- sorts_range _ _ _ (fold_left _ _ ?x) => set (t1 := x) in *
  end.
  destruct H as (L1 & P1 & O1 & H1).
  pose proof (extract_spec t1 pl n Hpl Hn) as H. cbv zeta in H.
  destruct H as (L2 & P2 & O2 & A2); [lia | done |].
  split; [by rewrite L2|]. split; [by rewrite P2|]. split; [|done].
  intros p Hp Hpp. rewrite O2 by done. by apply O1.
Qed.

(** *** The introsort *)

(** Two sorts of disjoint ranges, one after the other. *)
Lemma sorts_range_twice (a1 a2 b1 b2 : Z) (t ra rb : list nat) :
  (0 <= a1)%Z -> (a2 < Z.of_nat (length t))%Z ->
  (0 <= b1)%Z -> (b2 < Z.of_nat (length t))%Z ->
  (a2 < b1 \/ b2 < a1)%Z ->
  sorts_range a1 a2 t ra -> sorts_range b1 b2 ra rb ->
  length rb = length t /\ Permutation rb t
  /\ (forall p, (0 <= p)%Z -> (p < a1 \/ a2 < p)%Z -> (p < b1 \/ b2 < p)%Z ->
                at_ rb p = at_ t p)
  /\ ascending a1 a2 rb /\ ascending b1 b2 rb
  /\ (forall P : Q -> Prop, (forall q, (a1 <= q <= a2)%Z -> P (key t q)) ->
                            forall p, (a1 <= p <= a2)%Z -> P (key rb p))
  /\ (forall P : Q -> Prop, (forall q, (b1 <= q <= b2)%Z -> P (key t q)) ->
                            forall p, (b1 <= p <= b2)%Z -> P (key rb p)).
Proof.
  intros Ha1 Ha2 Hb1 Hb2 Hdis (La & Pa & Oa & Aa) (Lb & Pb & Ob & Ab).
  assert (Kb : forall p, (a1 <= p <= a2)%Z -> key rb p = key ra p).
  { intros p Hp. unfold key_at. by rewrite Ob by lia. }
  assert (Ka : forall p, (b1 <= p <= b2)%Z -> key ra p = key t p).
  { intros p Hp. unfold key_at. by rewrite Oa by lia. }
  split; [congruence|]. split; [by rewrite Pb|]. split; [|split; [|split; [done|split]]].
  - intros p Hp HA HB. rewrite Ob by done. by apply Oa.
  - intros p q Hp Hpq Hq. rewrite !Kb by lia. by apply Aa.
  - intros P HP p Hp. rewrite Kb by done.
    by apply (range_bound P a1 a2 t ra).
  - intros P HP p Hp.
    apply (range_bound P b1 b2 ra rb); try done; try lia.
    intros q Hq. rewrite Ka by done. by apply HP.
Qed.

Lemma ascending_around (pl pi pr : Z) (t : list nat) :
  ascending pl (pi - 1) t -> ascending (pi + 1) pr t ->
  (forall p, (pl <= p <= pi - 1)%Z -> key t p <= key t pi) ->
  (forall p, (pi + 1 <= p <= pr)%Z -> key t pi <= key t p) ->
  ascending pl pr t.
Proof.
  intros Hl Hr Hlo Hhi p q Hp Hpq Hq.
  destruct (decide (p = q)) as [->|Hne]; [apply Qle_refl|].
  destruct (decide (q < pi)%Z); [apply Hl; lia|].
  destruct (decide (pi < p)%Z); [apply Hr; lia|].
  destruct (decide (p = pi)) as [->|Hp1]; [apply Hhi; lia|].
  destruct (decide (q = pi)) as [->|Hq1]; [apply Hlo; lia|].
  apply Qle_trans with (key t pi); [apply Hlo | apply Hhi]; lia.
Qed.

Lemma aquicksort_range_spec (fuel : nat) :
  forall (t : list nat) (pl pr cdepth : Z) (popped : bool),
    (0 <= pl)%Z -> (pr < Z.of_nat (length t))%Z -> (pl <= pr + 1)%Z ->
    (Z.to_nat (pr - pl + 1) < fuel)%nat ->
    sorts_range pl pr t (aquicksort_range v fuel t pl pr cdepth popped).
Proof.
  induction fuel as [|fuel IH]; intros t pl pr cdepth popped Hpl Hpr Hle Hf;
    [lia|].
  simpl. destruct (popped && (cdepth <? 0)%Z).
  { replace pr with (pl + (pr - pl + 1) - 1)%Z at 1 by lia.
    apply aheapsort_spec; lia. }
  destruct (Z.gtb_spec (pr - pl) 16) as [Hbig|Hsmall];
    [|by apply insertion_sort_spec].
  destruct (partition_spec t pl pr) as (t1 & pi & E & L1 & P1 & O1 & Hpi & Lo & Hi);
    [lia..|].
  rewrite E.
  assert (Hfin : forall rb,
            length rb = length t1 -> Permutation rb t1 ->
            (forall p, (0 <= p)%Z -> (p < pl \/ pi - 1 < p)%Z ->
                       (p < pi + 1 \/ pr < p)%Z -> at_ rb p = at_ t1 p) ->
            ascending pl (pi - 1) rb -> ascending (pi + 1) pr rb ->
            (forall P : Q -> Prop,
                (forall q, (pl <= q <= pi - 1)%Z -> P (key t1 q)) ->
                forall p, (pl <= p <= pi - 1)%Z -> P (key rb p)) ->
            (forall P : Q -> Prop,
                (forall q, (pi + 1 <= q <= pr)%Z -> P (key t1 q)) ->
                forall p, (pi + 1 <= p <= pr)%Z -> P (key rb p)) ->
            sorts_range pl pr t rb).
  { intros rb Lb Pb Ob Al Ar Bl Br.
    assert (Kpi : key rb pi = key t1 pi).
    { unfold key_at. rewrite Ob by lia. done. }
    split; [congruence|]. split; [by rewrite Pb|]. split.
    - intros p Hp Hpp. rewrite Ob by lia. by apply O1.
    - apply (ascending_around pl pi pr); try done.
      + rewrite Kpi. apply (Bl (fun y => y <= key t1 pi)).
        intros q Hq. apply Lo. lia.
      + rewrite Kpi. apply (Br (fun y => key t1 pi <= y)).
        intros q Hq. apply Hi. lia. }
  destruct (pi - pl <? pr - pi)%Z.
  - destruct (sorts_range_twice pl (pi - 1) (pi + 1) pr t1
                (aquicksort_range v fuel t1 pl (pi - 1) (cdepth - 1) false)
                (aquicksort_range v fuel
                   (aquicksort_range v fuel t1 pl (pi - 1) (cdepth - 1) false)
                   (pi + 1) pr (cdepth - 1) true))
      as (Lb & Pb & Ob & Aa & Ab & Ba & Bb); try lia.
    + apply IH; lia.
    + apply IH; try lia.
      destruct (IH t1 pl (pi - 1)%Z (cdepth - 1)%Z false) as (Lx & _); lia.
    + by apply Hfin.
  - destruct (sorts_range_twice (pi + 1) pr pl (pi - 1) t1
                (aquicksort_range v fuel t1 (pi + 1) pr (cdepth - 1) false)
                (aquicksort_range v fuel
                   (aquicksort_range v fuel t1 (pi + 1) pr (cdepth - 1) false)
                   pl (pi - 1) (cdepth - 1) true))
      as (Lb & Pb & Ob & Aa & Ab & Ba & Bb); try lia.
    + apply IH; lia.
    + apply IH; try lia.
      destruct (IH t1 (pi + 1)%Z pr (cdepth - 1)%Z false) as (Lx & _); lia.
    + apply Hfin; try done. intros p Hp HA HB. apply Ob; done.
Qed.

End AquicksortFacts.

Lemma sorted_of_positions {A : Type} (R : A -> A -> Prop) (d : A) (l : list A) :
  (forall i j, (i < j)%nat -> (j < length l)%nat -> R (nth i l d) (nth j l d)) ->
  StronglySorted R l.
Proof.
  induction l as [|a l IH]; intros H; constructor.
  - apply IH. intros i j Hij Hj. apply (H (S i) (S j)); simpl; lia.
  - apply List.Forall_forall. intros b Hb.
    apply (In_nth _ _ d) in Hb as (k & Hk & <-).
    apply (H 0%nat (S k)); simpl; lia.
Qed.

Lemma npysort_argsort_sorts : sorts_ascending npysort.argsort.
Proof.
  intros xs. unfold npysort.argsort.
  destruct (aquicksort_range_spec xs (S (length xs)) (seq 0 (length xs)) 0
              (Z.of_nat (length xs) - 1) (Z.log2 (Z.of_nat (length xs)) * 2) true)
    as (L & P & _ & A); try (rewrite ?length_seq; lia).
  split; [done|].
  apply (sorted_of_positions _ 0%nat). intros i j Hij Hj.
  rewrite L, length_seq in Hj.
  specialize (A (Z.of_nat i) (Z.of_nat j)).
  unfold npysort.key_at, npysort.at_ in A. rewrite !Nat2Z.id in A.
  apply A; lia.
Qed.

(** ** find_minima under any sort, and the pixel count *)

Lemma sorted_weaken {A : Type} (R R' : A -> A -> Prop) (l : list A) :
  (forall a b, In a l -> In b l -> R a b -> R' a b) ->
  StronglySorted R l -> StronglySorted R' l.
Proof.
  intros HR Hs. rewrite <- (map_id l).
  by apply (sorted_map_impl R R' (fun a => a)).
Qed.

Lemma argsort_sorts_ascending : sorts_ascending argsort.
Proof.
  intros xs. split; [apply argsort_perm|].
  apply (sorted_weaken (value_then_index xs)); [|apply argsort_sorted].
  intros a b _ _ [H|[H _]]; [by apply Qlt_le_weak | by apply Qle_lteq; right].
Qed.

Lemma sorted_lt_NoDup (l : list nat) : StronglySorted lt l -> List.NoDup l.
Proof.
  induction 1 as [|a l Hs IH Ha]; constructor; [|done].
  intros Hin. rewrite List.Forall_forall in Ha. specialize (Ha a Hin). lia.
Qed.

Lemma find_minima_with_argsort (x : list Q) :
  fitz.find_minima_with argsort x = fitz.find_minima x.
Proof. reflexivity. Qed.

(** The part of [find_minima] that no sort can change. *)
Lemma find_minima_with_sorted (sort : list Q -> list nat) (x : list Q) :
  sorts_ascending sort -> x <> [] ->
  exists l, fitz.find_minima_with sort x = inr l
    /\ List.NoDup l
    /\ (forall i, In i l <-> local_min x i)
    /\ StronglySorted (fun i j => nth i x 0 <= nth j x 0) l.
Proof.
  intros Hsort Hx. unfold fitz.find_minima_with. fold (minima_mask x).
  set (ii := np_where (minima_mask x)).
  assert (Hii : forall i, In i ii <-> local_min x i).
  { intros i. unfold ii. rewrite np_where_In, minima_mask_lookup.
    split; [intros [H|[H _]]; [done|contradiction] | by left]. }
  assert (Hlt : Forall (fun i => (i < length x)%nat) ii).
  { apply List.Forall_forall. intros i Hi. apply Hii in Hi. apply Hi. }
  rewrite (take_idx_nth x 0 ii Hlt). simpl.
  set (xi := map (fun i => nth i x 0) ii).
  assert (Hlen : length xi = length ii) by apply length_map.
  destruct (Hsort xi) as [Hperm Hsorted].
  assert (Hjj : Forall (fun j => (j < length ii)%nat) (sort xi)).
  { apply List.Forall_forall. intros j Hj.
    apply (Permutation_in _ Hperm) in Hj. apply in_seq in Hj. lia. }
  rewrite (take_idx_nth ii 0%nat _ Hjj).
  assert (Hp : Permutation (map (fun j => nth j ii 0%nat) (sort xi)) ii).
  { rewrite Hperm, Hlen. by rewrite map_nth_seq_id. }
  eexists. split; [reflexivity|]. split; [|split].
  - apply (Permutation_NoDup (Permutation_sym Hp)).
    apply sorted_lt_NoDup. apply np_where_from_sorted.
  - intros i. rewrite <- Hii.
    split; intros H; [by apply (Permutation_in _ Hp) |
                      by apply (Permutation_in _ (Permutation_sym Hp))].
  - apply (sorted_map_impl (fun i j => nth i xi 0 <= nth j xi 0)); [|done].
    intros a b Ha Hb Hab.
    rewrite List.Forall_forall in Hjj.
    pose proof (Hjj a Ha) as Hal. pose proof (Hjj b Hb) as Hbl.
    unfold xi in Hab.
    by rewrite !(nth_map_lt _ ii _ 0%nat) in Hab by done.
Qed.



(** * The claims *)

(** C1.  The code departs from the claim.  [fitz] hands
    [get_best_archetype] nine positional arguments and the method takes
    seven, so once an archetype set is supplied no call of [fitz] returns a
    table; on the one-well scan the call raises [TypeError]. *)
Theorem fitz_archetype_call_raises :
  (forall np_sqrt BAD_MINFIT Z_FITLIMIT max_velo_diff calc_zchi2 arch_zchi2_one
          h zchi2 redshifts spectra template nminima a,
     exists e,
       fitz np_sqrt BAD_MINFIT Z_FITLIMIT max_velo_diff calc_zchi2
            arch_zchi2_one h zchi2 redshifts spectra template nminima (Some a)
       = inl e)
  /\ fitz_ex one_well grid20 3 (Some archetype2) = inl TypeError.
Proof.
  split.
  - intros. apply fitz_archetype_raises.
  - vm_compute. reflexivity.
Qed.

(** Without an archetype set the key [fulltype] is absent. *)
Lemma fitz_without_archetype np_sqrt BAD_MINFIT Z_FITLIMIT max_velo_diff
    calc_zchi2 arch_zchi2_one h zchi2 redshifts spectra template nminima t :
  fitz np_sqrt BAD_MINFIT Z_FITLIMIT max_velo_diff calc_zchi2 arch_zchi2_one h
       zchi2 redshifts spectra template nminima None = inr t ->
  t_fulltype t = None.
Proof.
  intros E.
  by apply fitz_inr in E as (? & ? & ? & ? & _ & _ & _ & _ & _ & _ & _ & _ & ->).
Qed.

(** C2, counterexample.  On [x = [0, 1, 2]], [y = (x - 5)^2 + 1] the fitted
    vertex 5 lies beyond [max(x) = 2]; [minfit] returns the fitted values
    with the flag, not the sentinel. *)
Lemma minfit_outside_keeps_fit :
  exists x0 xerr y0 zw,
    minfit Qsqrt ZW_BAD_MINFIT [0; 1; 2] [26; 17; 10] = inr (x0, xerr, y0, zw)
    /\ np_max [0; 1; 2] = inr 2
    /\ x0 == 5 /\ xerr == 1 /\ y0 == 1 /\ zw = ZW_BAD_MINFIT
    /\ ~ x0 == -(1).
Proof.
  do 4 eexists. split; [vm_compute; reflexivity|].
  repeat split; try reflexivity. intros H. vm_compute in H. discriminate.
Qed.

(** C2, as amended.  With fewer than three points [minfit] returns the
    sentinel [(-1, -1, -1)] and the bad-fit flag.  When the fitted vertex
    [x0 = -b/(2a)] is at or outside the ends of [x], it returns the fitted
    [x0] and [y0] with the bad-fit flag set. *)
Theorem minfit_bad_fit_flag (np_sqrt : Q -> Q) (BAD_MINFIT : Z) (x y : list Q) :
  ((length x < 3)%nat ->
   minfit np_sqrt BAD_MINFIT x y = inr (-(1), -(1), -(1), BAD_MINFIT))
  /\ (forall a b c mn mx,
        (3 <= length x)%nat -> polyfit2 x y = inr (a, b, c) -> ~ a == 0 ->
        np_min x = inr mn -> np_max x = inr mx ->
        - b / (2 * a) <= mn \/ mx <= - b / (2 * a) ->
        exists xerr zw,
          minfit np_sqrt BAD_MINFIT x y
          = inr (- b / (2 * a), xerr, - (b ^ 2) / (4 * a) + c, zw)
          /\ has_flag zw BAD_MINFIT).
Proof.
  split; [apply minfit_short | apply minfit_outside_flagged].
Qed.

Lemma minfit_bad_fit_flag_witness :
  minfit Qsqrt ZW_BAD_MINFIT [0; 1] [3; 4]
  = inr (-(1), -(1), -(1), ZW_BAD_MINFIT)
  /\ exists a b c xerr zw,
       polyfit2 [0; 1; 2] [26; 17; 10] = inr (a, b, c)
       /\ minfit Qsqrt ZW_BAD_MINFIT [0; 1; 2] [26; 17; 10]
          = inr (- b / (2 * a), xerr, - (b ^ 2) / (4 * a) + c, zw)
       /\ has_flag zw ZW_BAD_MINFIT.
Proof.
  split.
  - apply (proj1 (minfit_bad_fit_flag Qsqrt ZW_BAD_MINFIT [0; 1] [3; 4])).
    simpl. lia.
  - destruct (polyfit2 [0; 1; 2] [26; 17; 10]) as [e|[[a b] c]] eqn:E;
      [vm_compute in E; discriminate|].
    exists a, b, c.
    assert (Ha : a == 1 /\ b == -(10)).
    { vm_compute in E. inversion E. split; reflexivity. }
    destruct Ha as [Ha Hb].
    destruct (proj2 (minfit_bad_fit_flag Qsqrt ZW_BAD_MINFIT [0; 1; 2] [26; 17; 10])
                a b c 0 2) as (xerr & zw & H1 & H2).
    + simpl. lia.
    + exact E.
    + rewrite Ha. discriminate.
    + reflexivity.
    + reflexivity.
    + right. rewrite Ha, Hb. discriminate.
    + exists xerr, zw. split; [reflexivity|]. split; [exact H1 | exact H2].
Defined.

(** C3, counterexample.  On the two-well scan [fitz] accepts [z = 298] and
    then [z = 299]: 299 is 1002.6 km/s from the reference 298, but 298 is
    only 999.3 km/s from the reference 299, below the 1000 km/s minimum. *)
Lemma fitz_reverse_pair_too_close :
  exists t zi zj,
    fitz_ex two_wells grid_two_wells 3 None = inr t
    /\ t_z t !! 0%nat = Some zi /\ t_z t !! 1%nat = Some zj
    /\ Qabs (get_dv zi zj) < velo_1000.
Proof.
  do 3 eexists. split; [vm_compute; reflexivity|].
  split; [reflexivity|]. split; [reflexivity|]. vm_compute. reflexivity.
Qed.

(** C3, as amended.  The rows of every table [fitz] returns can be put in
    their order of acceptance, in which each redshift is at least
    [max_velo_diff] away from every earlier one taken as the reference
    [zref] of [get_dv]; so of any two distinct rows at least one is that far
    from the other.  A candidate is appended only when its refined redshift
    is that far from every redshift accepted so far. *)
Theorem fitz_separation np_sqrt BAD_MINFIT Z_FITLIMIT max_velo_diff calc_zchi2
    arch_zchi2_one h zchi2 redshifts spectra template nminima arch :
  (forall t,
     fitz np_sqrt BAD_MINFIT Z_FITLIMIT max_velo_diff calc_zchi2 arch_zchi2_one
          h zchi2 redshifts spectra template nminima arch = inr t ->
     (exists accepted,
        Permutation (t_z t) accepted
        /\ forall i j zi zj,
             (i < j)%nat -> accepted !! i = Some zi -> accepted !! j = Some zj ->
             apart max_velo_diff zj zi)
     /\ forall i j zi zj,
          i <> j -> t_z t !! i = Some zi -> t_z t !! j = Some zj ->
          apart max_velo_diff zi zj \/ apart max_velo_diff zj zi)
  /\ (forall results imin m,
        refine np_sqrt BAD_MINFIT Z_FITLIMIT max_velo_diff calc_zchi2
               arch_zchi2_one h zchi2 redshifts spectra template arch
               results imin = inr (Some m) ->
        Forall (apart max_velo_diff (z m)) (map z results)).
Proof.
  split.
  - intros t E. split.
    + pose proof E as E'.
      apply fitz_inr in E' as (cands & acc & sorted & npix & _ & _ & Ha & _ & Hp & _ & _ & _ & ->).
      exists (map z acc). split; [by apply Permutation_map|].
      intros i j zi zj Hij Hi Hj. apply refine_all_apart in Ha.
      apply (ordered_pairs_lookup _ _ i j zi zj Ha Hij Hi Hj).
    + intros i j zi zj Hne Hi Hj. apply fitz_pairs_apart in E.
      destruct (Nat.lt_total i j) as [Hlt|[Heq|Hlt]]; [|contradiction|].
      * apply (ordered_pairs_lookup _ _ i j zi zj E Hlt Hi Hj).
      * destruct (ordered_pairs_lookup _ _ j i zj zi E Hlt Hj Hi); auto.
  - intros results imin m Hr. by apply refine_some in Hr as [Hr _].
Qed.

Lemma fitz_separation_witness :
  exists t,
    fitz_ex two_wells grid_two_wells 3 None = inr t
    /\ forall i j zi zj,
         i <> j -> t_z t !! i = Some zi -> t_z t !! j = Some zj ->
         apart velo_1000 zi zj \/ apart velo_1000 zj zi.
Proof.
  eexists. split; [vm_compute; reflexivity|].
  refine (proj2 (proj1 (fitz_separation Qsqrt ZW_BAD_MINFIT ZW_Z_FITLIMIT velo_1000
            (calc_of two_wells)
            (arch_of (fun i z => inject_Z (Z.of_nat i) + 1))
            store2 (map two_wells grid_two_wells) grid_two_wells spectra2
            one_template 3%nat None) _ _)).
  vm_compute. reflexivity.
Defined.

(** C4.  On a non-empty array [find_minima] returns exactly the positions
    whose value is no greater than either neighbour, a missing neighbour
    counting as satisfied, each once and in ascending order of value,
    whatever sort [np.argsort] runs, provided it returns the positions in
    an order that sorts the array; numpy's default sort does.  The order of
    equal values is the sort's: on [[1,1,1,2,2,2]] numpy's default sort,
    like a stable one, gives [[0,1,2,4,5]].  (An empty array makes the call
    raise [IndexError].) *)
Theorem find_minima_by_value :
  (forall sort : list Q -> list nat,
     sorts_ascending sort ->
     forall x : list Q,
       x <> [] ->
       exists l, find_minima_with sort x = inr l
         /\ List.NoDup l
         /\ (forall i, In i l <-> local_min x i)
         /\ StronglySorted (fun i j => nth i x 0 <= nth j x 0) l)
  /\ sorts_ascending npysort.argsort
  /\ find_minima_with npysort.argsort [1; 1; 1; 2; 2; 2]
     = inr [0; 1; 2; 4; 5]%nat
  /\ find_minima [1; 1; 1; 2; 2; 2] = inr [0; 1; 2; 4; 5]%nat.
Proof.
  split; [|split; [apply npysort_argsort_sorts | split; vm_compute; reflexivity]].
  intros sort Hsort x Hx. by apply find_minima_with_sorted.
Qed.

Lemma find_minima_by_value_witness :
  exists l, find_minima_with npysort.argsort [3; 1; 2; 1] = inr l
    /\ List.NoDup l
    /\ (forall i, In i l <-> local_min [3; 1; 2; 1] i)
    /\ StronglySorted (fun i j => nth i [3; 1; 2; 1] 0 <= nth j [3; 1; 2; 1] 0) l.
Proof.
  apply (proj1 find_minima_by_value npysort.argsort npysort_argsort_sorts
               [3; 1; 2; 1]).
  discriminate.
Defined.

(** C4, counterexample.  Equal values do not come back in index order: on
    a scan of twenty equal values every position is a local minimum, and
    numpy's default sort hands them back as [0, 17, 16, ..., 1, 18, 19]. *)
Lemma find_minima_flat_scan :
  find_minima_with npysort.argsort (repeat 1 20)
  = inr [0; 17; 16; 15; 14; 13; 12; 11; 10; 9; 8; 7; 6; 5; 4; 3; 2; 1; 18; 19]%nat
  /\ ~ StronglySorted (value_then_index (repeat 1 20))
         [0; 17; 16; 15; 14; 13; 12; 11; 10; 9; 8; 7; 6; 5; 4; 3; 2; 1; 18; 19]%nat.
Proof.
  split; [vm_compute; reflexivity|].
  intros H. apply StronglySorted_inv in H as [H _].
  apply StronglySorted_inv in H as [_ H]. apply Forall_inv in H.
  destruct H as [H|[_ H]]; [vm_compute in H; discriminate | lia].
Qed.



Section Float64Facts.

Import Floats.
Local Open Scope float_scope.


End Float64Facts.



(** C7.  A table returned by [fitz] has at least one row; when the loop ends
    with no accepted result, [fitz] raises [AssertionError]. *)
Theorem fitz_never_empty np_sqrt BAD_MINFIT Z_FITLIMIT max_velo_diff calc_zchi2
    arch_zchi2_one h zchi2 redshifts spectra template nminima arch :
  (forall t,
     fitz np_sqrt BAD_MINFIT Z_FITLIMIT max_velo_diff calc_zchi2 arch_zchi2_one
          h zchi2 redshifts spectra template nminima arch = inr t ->
     (1 <= length (t_z t))%nat)
  /\ (forall cands,
        length zchi2 = length redshifts ->
        legendre_setup spectra arch = inr tt ->
        find_minima zchi2 = inr cands ->
        refine_all np_sqrt BAD_MINFIT Z_FITLIMIT max_velo_diff calc_zchi2
                   arch_zchi2_one h zchi2 redshifts spectra template nminima
                   arch cands [] = inr [] ->
        fitz np_sqrt BAD_MINFIT Z_FITLIMIT max_velo_diff calc_zchi2
             arch_zchi2_one h zchi2 redshifts spectra template nminima arch
        = inl AssertionError).
Proof.
  split.
  - intros t E. apply fitz_rows in E. lia.
  - intros cands. apply fitz_empty_asserts.
Qed.

Lemma fitz_never_empty_witness :
  (exists t, fitz_ex one_well grid20 3 None = inr t /\ (1 <= length (t_z t))%nat)
  /\ fitz_ex one_well grid20 0 None = inl AssertionError.
Proof.
  split.
  - eexists. split; [vm_compute; reflexivity|].
    refine (proj1 (fitz_never_empty Qsqrt ZW_BAD_MINFIT ZW_Z_FITLIMIT velo_1000
              (calc_of one_well)
              (arch_of (fun i z => inject_Z (Z.of_nat i) + 1))
              store2 (map one_well grid20) grid20 spectra2
              one_template 3%nat None) _ _).
    vm_compute. reflexivity.
  - refine (proj2 (fitz_never_empty Qsqrt ZW_BAD_MINFIT ZW_Z_FITLIMIT velo_1000
              (calc_of one_well)
              (arch_of (fun i z => inject_Z (Z.of_nat i) + 1))
              store2 (map one_well grid20) grid20 spectra2
              one_template 0%nat None) [10%nat] _ _ _ _);
      vm_compute; reflexivity.
Defined.

(** C8, counterexample.  On the grid [0, 1, 2, 3] the parabola through the
    fine scan has its vertex at [zmin = -1], below [redshifts[0] = 0].  The
    solver does not fail there, so the evaluation at [zmin] keeps the fitted
    coefficient and leaves the warning mask as it was; the returned row
    carries the coefficient 1, not zero. *)
Lemma zmin_below_range_keeps_coeff :
  exists zz0 zzc zmin sigma c zw t,
    fine_fit Qsqrt ZW_BAD_MINFIT (calc_of left_well) store2
             (map left_well grid4) grid4 spectra2 one_template 0
    = inr (zz0, zzc, (zmin, sigma, c, zw))
    /\ grid4 !! 0%nat = Some 0 /\ zmin < 0
    /\ eval_at_zmin ZW_BAD_MINFIT ZW_Z_FITLIMIT (calc_of left_well) store2 grid4
                    spectra2 one_template zmin zw = inr ([1], zw)
    /\ fitz_ex left_well grid4 3 None = inr t
    /\ t_coeff t = [[1]]
    /\ [1] <> repeat 0 (nbasis one_template).
Proof.
  do 7 eexists. split; [vm_compute; reflexivity|].
  split; [reflexivity|]. split; [vm_compute; reflexivity|].
  split; [vm_compute; reflexivity|]. split; [vm_compute; reflexivity|].
  split; [reflexivity|]. discriminate.
Qed.

(** C8, as amended.  When the evaluation at the fitted [zmin] raises
    [ValueError] and [zmin] lies outside [[redshifts[0], redshifts[-1]]],
    [fitz] takes [nbasis] zero coefficients and sets both the out-of-range
    and the bad-fit flag on the result; the candidate's pass ends without an
    exception.  (The evaluation is always attempted first.) *)
Theorem fitz_out_of_range_zmin np_sqrt BAD_MINFIT Z_FITLIMIT max_velo_diff
    calc_zchi2 arch_zchi2_one h zchi2 redshifts spectra template
    results imin zz0 zzc zmin sigma c zw r0 rl :
  (2 <= length redshifts)%nat -> (imin < length redshifts)%nat ->
  fine_fit np_sqrt BAD_MINFIT calc_zchi2 h zchi2 redshifts spectra template imin
  = inr (zz0, zzc, (zmin, sigma, c, zw)) ->
  calc_zchi2 h spectra template zmin = inl ValueError ->
  redshifts !! 0%nat = Some r0 ->
  redshifts !! (length redshifts - 1)%nat = Some rl ->
  zmin < r0 \/ rl < zmin ->
  exists r,
    refine np_sqrt BAD_MINFIT Z_FITLIMIT max_velo_diff calc_zchi2 arch_zchi2_one
           h zchi2 redshifts spectra template None results imin = inr r
    /\ forall m, r = Some m ->
         coeff m = repeat 0 (nbasis template)
         /\ has_flag (zwarn m) Z_FITLIMIT /\ has_flag (zwarn m) BAD_MINFIT.
Proof. apply refine_out_of_range. Qed.

Lemma fitz_out_of_range_zmin_witness :
  exists r,
    refine Qsqrt ZW_BAD_MINFIT ZW_Z_FITLIMIT velo_1000
           (calc_within 0 3 left_well)
           (arch_of (fun i z => inject_Z (Z.of_nat i) + 1))
           store2 (map left_well grid4) grid4 spectra2 one_template None [] 0
    = inr r
    /\ forall m, r = Some m ->
         coeff m = repeat 0 (nbasis one_template)
         /\ has_flag (zwarn m) ZW_Z_FITLIMIT /\ has_flag (zwarn m) ZW_BAD_MINFIT.
Proof.
  refine (fitz_out_of_range_zmin Qsqrt ZW_BAD_MINFIT ZW_Z_FITLIMIT velo_1000
            (calc_within 0 3 left_well)
            (arch_of (fun i z => inject_Z (Z.of_nat i) + 1))
            store2 (map left_well grid4) grid4 spectra2 one_template
            [] 0%nat _ _ _ _ _ _ 0 3 _ _ _ _ _ _ _);
    [simpl; lia | simpl; lia | vm_compute; reflexivity | vm_compute; reflexivity
    | reflexivity | reflexivity | left; vm_compute; reflexivity].
Defined.



(** C10.  [Spectrum.__init__] with a resolution matrix writes to the
    caller's [ivar] array: in the store after the call that array holds zero
    wherever the row of [R] sums to less than [min_resolution_integral] and
    its old value elsewhere, every other array is as before, and the object
    holds the very references [wave], [flux], [ivar] it was given. *)
Theorem Spectrum_init_zeroes_ivar (min_resolution_integral : Q)
    (wave flux ivar : loc) (r : dia_matrix) (Rcsr : option csr_matrix)
    (h : store) (a : list Q) :
  h !! ivar = Some a -> length (row_sums r) = length a ->
  let h' := fst (Spectrum_init min_resolution_integral wave flux ivar (Some r) Rcsr h) in
  let res := snd (Spectrum_init min_resolution_integral wave flux ivar (Some r) Rcsr h) in
  (exists a', h' !! ivar = Some a' /\ length a' = length a
     /\ forall i s v, row_sums r !! i = Some s -> a !! i = Some v ->
          (s < min_resolution_integral -> a' !! i = Some 0)
          /\ (min_resolution_integral <= s -> a' !! i = Some v))
  /\ (forall l, l <> ivar -> h' !! l = h !! l)
  /\ (forall s, res = inr s ->
        targets.wave s = wave /\ targets.flux s = flux /\ targets.ivar s = ivar
        /\ R s = Some r)
  /\ (forall w, h' !! wave = Some w -> (2 <= length w)%nat ->
        exists s, res = inr s).
Proof.
  intros Ha Hlen h' res. subst h' res.
  rewrite (Spectrum_init_store _ wave flux ivar r Rcsr h a Ha Hlen).
  split; [|split; [|split]].
  - exists (mask_zero (unresolved min_resolution_integral r) a).
    split; [apply lookup_insert_eq|]. split.
    + unfold mask_zero, unresolved. rewrite length_zip_with, length_map. lia.
    + intros i s v Hs Hv.
      assert (Hw : unresolved min_resolution_integral r !! i
                   = Some (Qltb s min_resolution_integral)).
      { unfold unresolved. change (map ?f ?l) with (f <$> l).
        by rewrite list_lookup_fmap, Hs. }
      rewrite (mask_zero_lookup _ _ i _ v Hw Hv). split; intros H.
      * apply Qltb_lt in H. by rewrite H.
      * apply Qltb_ge in H. by rewrite H.
  - intros l Hl. by apply lookup_insert_ne.
  - intros s Hs. by apply Spectrum_init_fields in Hs.
  - intros w Hw H2. by apply (Spectrum_init_returns _ wave flux ivar r Rcsr h a w).
Qed.

Lemma Spectrum_init_zeroes_ivar_witness :
  let h := store2 in
  let h' := fst (Spectrum_init min_resolution_099 1%positive 2%positive
                               3%positive (Some resolution3) None h) in
  h !! 3%positive = Some [1; 0; 2]
  /\ h' !! 3%positive = Some [0; 0; 2]
  /\ h' !! 2%positive = h !! 2%positive.
Proof.
  intros h h'.
  destruct (Spectrum_init_zeroes_ivar min_resolution_099 1%positive 2%positive
              3%positive resolution3 None store2 [1; 0; 2])
    as ((a' & Ha' & Hl & Hi) & Hother & _ & _);
    [reflexivity | reflexivity |].
  split; [reflexivity|]. split; [|apply Hother; discriminate].
  vm_compute. reflexivity.
Defined.

(** * Further properties *)

(** ** get_dv *)

Lemma speed_of_light_pos : 0 < speed_of_light_km.
Proof. reflexivity. Qed.

(** X1.  The velocity difference vanishes exactly when the two redshifts
    coincide (the reference being other than -1). *)
Theorem get_dv_zero_iff (z zref : Q) :
  ~ 1 + zref == 0 -> (get_dv z zref == 0 <-> z == zref).
Proof.
  intros Hne. unfold get_dv. pose proof speed_of_light_pos as Hc. split.
  - intros H.
    assert (H' : speed_of_light_km * (z - zref) == 0).
    { rewrite <- (Qmult_div_r (speed_of_light_km * (z - zref)) (1 + zref)) by exact Hne.
      unfold Qdiv in *. rewrite H. ring. }
    apply Qmult_integral in H' as [H'|H']; lra.
  - intros ->. unfold Qdiv. ring.
Qed.

Lemma get_dv_zero_iff_witness : get_dv 5 3 == 0 <-> 5 == 3.
Proof. apply (get_dv_zero_iff 5 3). discriminate. Defined.

(** X2.  For redshifts above -1 the separation measured from the lower
    redshift is at least the one measured from the higher. *)
Theorem get_dv_lower_reference (z zref : Q) :
  -(1) < zref -> zref <= z ->
  Qabs (get_dv zref z) <= Qabs (get_dv z zref).
Proof.
  intros H1 H2. unfold get_dv. pose proof speed_of_light_pos as Hc.
  set (c := speed_of_light_km) in *.
  assert (Hz : 0 < 1 + z) by lra. assert (Hr : 0 < 1 + zref) by lra.
  assert (Ea : Qabs (c * (zref - z) / (1 + z)) == c * (z - zref) / (1 + z)).
  { rewrite Qabs_neg.
    - field. lra.
    - apply Qle_shift_div_r; [exact Hz | nra]. }
  assert (Eb : Qabs (c * (z - zref) / (1 + zref)) == c * (z - zref) / (1 + zref)).
  { apply Qabs_pos. apply Qle_shift_div_l; [done|]. nra. }
  rewrite Ea, Eb.
  apply Qle_shift_div_l; [done|].
  assert (E : c * (z - zref) / (1 + z) * (1 + zref)
              == c * (z - zref) * ((1 + zref) / (1 + z))) by (field; lra).
  rewrite E.
  assert (Hq : (1 + zref) / (1 + z) <= 1).
  { apply Qle_shift_div_r; [done|]. lra. }
  assert (0 <= c * (z - zref)) by nra. nra.
Qed.

Lemma get_dv_lower_reference_witness :
  Qabs (get_dv 298 299) <= Qabs (get_dv 299 298).
Proof.
  apply (get_dv_lower_reference 299 298); [reflexivity | discriminate].
Defined.

(** ** find_minima *)

Lemma least_position (x : list Q) :
  x <> [] ->
  exists g, (g < length x)%nat
    /\ forall j, (j < length x)%nat -> nth g x 0 <= nth j x 0.
Proof.
  induction x as [|a x IH]; [done|]. intros _.
  destruct x as [|b x].
  - exists 0%nat. split; [simpl; lia|].
    intros [|j] Hj; [apply Qle_refl | simpl in Hj; lia].
  - destruct IH as (g & Hg & Hmin); [done|].
    destruct (Qlt_le_dec (nth g (b :: x) 0) a) as [Hlt|Hle].
    + exists (S g). split; [simpl in *; lia|].
      intros [|j] Hj.
      * change (nth (S g) (a :: b :: x) 0) with (nth g (b :: x) 0).
        change (nth 0 (a :: b :: x) 0) with a. by apply Qlt_le_weak.
      * change (nth (S g) (a :: b :: x) 0) with (nth g (b :: x) 0).
        change (nth (S j) (a :: b :: x) 0) with (nth j (b :: x) 0).
        apply Hmin. simpl in *. lia.
    + exists 0%nat. split; [simpl; lia|].
      intros [|j] Hj; [apply Qle_refl|].
      change (nth 0 (a :: b :: x) 0) with a.
      change (nth (S j) (a :: b :: x) 0) with (nth j (b :: x) 0).
      eapply Qle_trans; [exact Hle|]. apply Hmin. simpl in *. lia.
Qed.

Lemma value_then_index_le (x : list Q) (i j : nat) :
  value_then_index x i j -> nth i x 0 <= nth j x 0.
Proof. apply (key_then_index_le (fun k => nth k x 0)). Qed.

Lemma find_minima_cons (x : list Q) :
  x <> [] ->
  exists i rest, find_minima x = inr (i :: rest)
    /\ (i < length x)%nat
    /\ forall j, (j < length x)%nat -> nth i x 0 <= nth j x 0.
Proof.
  intros Hx. destruct (find_minima_nonempty x Hx) as (l & Hl & Hin & Hs).
  destruct (least_position x Hx) as (g & Hg & Hmin).
  assert (Hgl : In g l).
  { apply Hin. split; [done|]. split.
    - destruct g as [|g]; [by left|]. right. apply Hmin. lia.
    - destruct (decide (S g = length x)) as [|Hne]; [by left|]. right.
      apply Hmin. lia. }
  destruct l as [|i rest]; [done|].
  exists i, rest. split; [done|].
  assert (Hi : In i (i :: rest)) by (by left).
  apply Hin in Hi. split; [apply Hi|].
  intros j Hj. eapply Qle_trans; [|by apply Hmin].
  destruct Hgl as [->|Hgr]; [apply Qle_refl|].
  inversion Hs as [|? ? _ Hall]; subst. rewrite List.Forall_forall in Hall.
  by apply value_then_index_le, Hall.
Qed.

(** X3.  On a non-empty array the first index [find_minima] returns holds a
    least value of the whole array. *)
Theorem find_minima_head_least (x : list Q) :
  x <> [] ->
  exists i rest, find_minima x = inr (i :: rest)
    /\ (i < length x)%nat
    /\ forall j, (j < length x)%nat -> nth i x 0 <= nth j x 0.
Proof. apply find_minima_cons. Qed.

Lemma find_minima_head_least_witness :
  exists i rest, find_minima [3; 1; 2; 1] = inr (i :: rest)
    /\ (i < length [3; 1; 2; 1])%nat
    /\ forall j, (j < length [3; 1; 2; 1])%nat ->
         nth i [3; 1; 2; 1] 0 <= nth j [3; 1; 2; 1] 0.
Proof. apply (find_minima_head_least [3; 1; 2; 1]). discriminate. Defined.

Lemma sorted_singleton (x : list Q) (l : list nat) (k : nat) :
  StronglySorted (value_then_index x) l ->
  (forall i, In i l <-> i = k) -> l = [k].
Proof.
  intros Hs Hin. destruct l as [|a l].
  - destruct (proj2 (Hin k) eq_refl).
  - assert (a = k) by (apply Hin; by left). subst a.
    destruct l as [|b l]; [done|].
    assert (b = k) by (apply Hin; right; by left). subst b.
    inversion Hs as [|? ? _ Hall]; subst. inversion Hall as [|? ? Hkk _]; subst.
    destruct Hkk as [H|[_ H]]; [lra | lia].
Qed.

(** X4.  A strictly increasing array has its only minimum at the left edge,
    a strictly decreasing one at the right edge. *)
Theorem find_minima_monotone (x : list Q) :
  x <> [] ->
  ((forall i, (S i < length x)%nat -> nth i x 0 < nth (S i) x 0) ->
   find_minima x = inr [0%nat])
  /\ ((forall i, (S i < length x)%nat -> nth (S i) x 0 < nth i x 0) ->
      find_minima x = inr [(length x - 1)%nat]).
Proof.
  intros Hx. destruct (find_minima_nonempty x Hx) as (l & Hl & Hin & Hs).
  assert (Hlen : (0 < length x)%nat) by (destruct x; simpl; [done | lia]).
  rewrite Hl. split; intros Hmono; f_equal; apply (sorted_singleton x); try done;
    intros i; rewrite Hin; unfold local_min.
  - split.
    + intros (Hi & [->|Hle] & _); [done|].
      destruct i as [|i]; [done|]. exfalso.
      replace (S i - 1)%nat with i in Hle by lia.
      specialize (Hmono i Hi). lra.
    + intros ->. split; [done|]. split; [by left|].
      destruct (decide (1 = length x)%nat) as [|Hne]; [by left|]. right.
      apply Qlt_le_weak, Hmono. lia.
  - split.
    + intros (Hi & _ & [E|Hle]); [lia|].
      destruct (decide (S i < length x)%nat) as [Hlt|]; [|lia].
      specialize (Hmono i Hlt). lra.
    + intros ->. split; [lia|]. split.
      * destruct (decide (length x - 1 = 0)%nat) as [|Hne]; [by left|]. right.
        specialize (Hmono (length x - 1 - 1)%nat).
        replace (S (length x - 1 - 1)) with (length x - 1)%nat in Hmono by lia.
        apply Qlt_le_weak, Hmono. lia.
      * left. lia.
Qed.

Lemma find_minima_monotone_witness :
  find_minima [1; 2; 4] = inr [0%nat]
  /\ find_minima [9; 5; 2] = inr [(length [9; 5; 2] - 1)%nat].
Proof.
  split.
  - apply (proj1 (find_minima_monotone [1; 2; 4] ltac:(discriminate))).
    intros [|[|i]] Hi; simpl in *; [reflexivity | reflexivity | lia].
  - apply (proj2 (find_minima_monotone [9; 5; 2] ltac:(discriminate))).
    intros [|[|i]] Hi; simpl in *; [reflexivity | reflexivity | lia].
Defined.

(** ** minfit *)

(** X5.  Once the parabola is fitted (three or more points, a non-zero
    leading coefficient), the warning mask is 0 exactly when the vertex lies
    strictly between the least and the greatest abscissa, the fitted minimum
    is positive and the parabola opens upward; in every other case it is
    [BAD_MINFIT] alone. *)
Theorem minfit_zwarn (np_sqrt : Q -> Q) (BAD_MINFIT : Z) (x y : list Q)
    (a b c mn mx : Q) :
  (3 <= length x)%nat -> polyfit2 x y = inr (a, b, c) -> ~ a == 0 ->
  np_min x = inr mn -> np_max x = inr mx ->
  exists xerr zw,
    minfit np_sqrt BAD_MINFIT x y
    = inr (- b / (2 * a), xerr, - (b ^ 2) / (4 * a) + c, zw)
    /\ (mn < - b / (2 * a) /\ - b / (2 * a) < mx
        /\ 0 < - (b ^ 2) / (4 * a) + c /\ 0 < a -> zw = 0%Z)
    /\ (~ (mn < - b / (2 * a) /\ - b / (2 * a) < mx
           /\ 0 < - (b ^ 2) / (4 * a) + c /\ 0 < a) -> zw = BAD_MINFIT).
Proof.
  intros Hlen Hp Ha Hmn Hmx.
  rewrite (minfit_fitted np_sqrt BAD_MINFIT x y a b c mn mx) by done.
  do 2 eexists. split; [reflexivity|]. cbv zeta.
  set (x0 := - b / (2 * a)). set (y0 := - (b ^ 2) / (4 * a) + c).
  destruct (Qle_bool x0 mn) eqn:E1; destruct (Qle_bool mx x0) eqn:E2;
    destruct (Qle_bool y0 0) eqn:E3; destruct (Qltb 0 a) eqn:E4;
    simpl orb; cbv iota;
    rewrite ?Qle_bool_iff in *; rewrite ?Qltb_lt in *;
    rewrite ?Z.lor_0_l, ?Z.lor_diag;
    (split; [intros (H1 & H2 & H3 & H4); try reflexivity; exfalso
            |intros Hn; try reflexivity; exfalso]);
    try lra;
    try (apply Qltb_ge in E4; lra);
    try (apply Hn; repeat split;
         try (apply Qnot_le_lt; intros Hc; apply Qle_bool_iff in Hc; congruence);
         done).
Qed.

Lemma minfit_zwarn_witness :
  exists a b c xerr zw,
    polyfit2 [0; 1; 2] [5; 2; 5] = inr (a, b, c)
    /\ minfit Qsqrt ZW_BAD_MINFIT [0; 1; 2] [5; 2; 5]
       = inr (- b / (2 * a), xerr, - (b ^ 2) / (4 * a) + c, zw)
    /\ zw = 0%Z.
Proof.
  destruct (polyfit2 [0; 1; 2] [5; 2; 5]) as [e|[[a b] c]] eqn:E;
    [vm_compute in E; discriminate|].
  exists a, b, c.
  destruct (minfit_zwarn Qsqrt ZW_BAD_MINFIT [0; 1; 2] [5; 2; 5] a b c 0 2)
    as (xerr & zw & H1 & H2 & _);
    [simpl; lia | exact E
    | vm_compute in E; inversion E; discriminate
    | reflexivity | reflexivity |].
  exists xerr, zw. split; [reflexivity|]. split; [exact H1|].
  apply H2. vm_compute in E. inversion E. repeat split.
Defined.

(** X6.  Three samples at distinct abscissae of a parabola opening
    downward, [y0 - ((x - x0)/xerr)^2]: [minfit] still returns [x0],
    [|xerr|] (from the magnitude of the leading coefficient) and [y0], and
    the mask is [BAD_MINFIT]. *)
Theorem minfit_maximum (np_sqrt : Q -> Q) (BAD_MINFIT : Z)
    (x1 x2 x3 x0 xerr y0 : Q) :
  (forall a r : Q, 0 <= r -> a == r * r -> np_sqrt a == r) ->
  ~ x1 == x2 -> ~ x1 == x3 -> ~ x2 == x3 -> ~ xerr == 0 ->
  exists x0' xerr' y0',
    minfit np_sqrt BAD_MINFIT [x1; x2; x3]
           [y0 - ((x1 - x0) / xerr) ^ 2;
            y0 - ((x2 - x0) / xerr) ^ 2;
            y0 - ((x3 - x0) / xerr) ^ 2]
    = inr (x0', xerr', y0', BAD_MINFIT)
    /\ x0' == x0 /\ xerr' == Qabs xerr /\ y0' == y0.
Proof.
  intros Hsqrt H12 H13 H23 He.
  destruct (polyfit2_three x1 x2 x3
              (y0 - ((x1 - x0) / xerr) ^ 2) (y0 - ((x2 - x0) / xerr) ^ 2)
              (y0 - ((x3 - x0) / xerr) ^ 2)
              (- / (xerr * xerr)) (2 * x0 / (xerr * xerr))
              (y0 - x0 * x0 / (xerr * xerr)) H12 H13 H23)
    as (a & b & c & Hp & Ea & Eb & Ec); try (field; exact He).
  assert (Hsq : 0 < xerr * xerr).
  { destruct (Q_dec xerr 0) as [[H|H]|H]; [nra | nra | contradiction]. }
  assert (Hinv : 0 < / (xerr * xerr)) by (by apply Qinv_lt_0_compat).
  assert (Ha : a < 0) by (rewrite Ea; lra).
  assert (Ex0 : - b / (2 * a) == x0).
  { rewrite Ea, Eb. field; repeat split; first [exact He | lra]. }
  assert (Ey0 : - (b ^ 2) / (4 * a) + c == y0).
  { rewrite Ea, Eb, Ec. field; repeat split; first [exact He | lra]. }
  rewrite (minfit_fitted np_sqrt BAD_MINFIT _ _ a b c
             (Qmin (Qmin x1 x2) x3) (Qmax (Qmax x1 x2) x3));
    [| simpl; lia | exact Hp | lra | reflexivity | reflexivity].
  cbv zeta.
  assert (E4 : Qltb 0 a = false) by (apply Qltb_ge; lra).
  rewrite E4.
  do 3 eexists. split.
  - f_equal. f_equal.
    destruct (_ || _), (Qle_bool _ 0); rewrite ?Z.lor_0_l, ?Z.lor_diag; reflexivity.
  - repeat split; [done| |done].
    assert (Hab : 0 < Qabs xerr).
    { destruct (Q_dec xerr 0) as [[H|H]|H].
      - rewrite Qabs_neg by lra. lra.
      - rewrite Qabs_pos by lra. lra.
      - contradiction. }
    rewrite (Hsqrt (- a) (/ Qabs xerr)).
    + field. lra.
    + apply Qlt_le_weak. by apply Qinv_lt_0_compat.
    + rewrite Ea. rewrite <- Qinv_mult_distr.
      assert (Hm : Qabs xerr * Qabs xerr == xerr * xerr).
      { rewrite <- Qabs_Qmult. apply Qabs_pos. lra. }
      rewrite Hm. ring.
Qed.

Lemma minfit_maximum_witness :
  exists x0' xerr' y0',
    minfit Qsqrt ZW_BAD_MINFIT [0; 1; 3]
           [5 - ((0 - 2) / (1 # 2)) ^ 2;
            5 - ((1 - 2) / (1 # 2)) ^ 2;
            5 - ((3 - 2) / (1 # 2)) ^ 2]
    = inr (x0', xerr', y0', ZW_BAD_MINFIT)
    /\ x0' == 2 /\ xerr' == Qabs (1 # 2) /\ y0' == 5.
Proof.
  apply (minfit_maximum Qsqrt ZW_BAD_MINFIT 0 1 3 2 (1 # 2) 5);
    [exact Qsqrt_exact | discriminate | discriminate | discriminate
    | discriminate].
Defined.

(** X8.  [minfit] raises only when it is given three or more abscissae and
    a different number of ordinates, and then it is the [TypeError] of
    [np.polyfit]; with arrays of one length it always returns. *)
Theorem minfit_raises (np_sqrt : Q -> Q) (BAD_MINFIT : Z) (x y : list Q) :
  ((3 <= length x)%nat -> length x <> length y ->
   minfit np_sqrt BAD_MINFIT x y = inl TypeError)
  /\ (length x = length y \/ (length x < 3)%nat ->
      exists r, minfit np_sqrt BAD_MINFIT x y = inr r).
Proof.
  split.
  - intros H3 Hne. unfold minfit, polyfit2.
    destruct (Nat.ltb_spec (length x) 3); [lia|].
    destruct (Nat.eqb_spec (length x) (length y)); [contradiction|]. reflexivity.
  - intros [Heq|Hlt]; [by apply minfit_total|].
    rewrite minfit_short by done. eauto.
Qed.

Lemma minfit_raises_witness :
  minfit Qsqrt ZW_BAD_MINFIT [0; 1; 2] [1; 2] = inl TypeError
  /\ exists r, minfit Qsqrt ZW_BAD_MINFIT [0; 1; 2] [1; 2; 5] = inr r.
Proof.
  split.
  - apply (proj1 (minfit_raises Qsqrt ZW_BAD_MINFIT [0; 1; 2] [1; 2]));
      [simpl; lia | discriminate].
  - apply (proj2 (minfit_raises Qsqrt ZW_BAD_MINFIT [0; 1; 2] [1; 2; 5])).
    left. reflexivity.
Defined.

(** ** get_best_archetype *)

Lemma argmin_from_spec (l : list Q) (best : Q) (ibest i : nat) :
  let k := argmin_from best ibest i l in
  (k = ibest /\ Forall (fun v => best <= v) l)
  \/ ((i <= k < i + length l)%nat
      /\ nth (k - i) l 0 < best
      /\ (forall j, (j < length l)%nat -> nth (k - i) l 0 <= nth j l 0)
      /\ (forall j, (j < k - i)%nat -> nth (k - i) l 0 < nth j l 0)).
Proof.
  revert best ibest i. induction l as [|v l IH]; intros best ibest i; simpl.
  - left. split; [done | constructor].
  - destruct (Qltb v best) eqn:E.
    + apply Qltb_lt in E. right.
      destruct (IH v i (S i)) as [[Hk Hall]|(Hk & Hlt & Hmin & Hfirst)].
      * rewrite Hk, Nat.sub_diag. split; [lia|]. split; [done|]. split.
        -- intros [|j] Hj; [apply Qle_refl|].
           rewrite List.Forall_forall in Hall. apply Hall. apply nth_In. lia.
        -- intros j Hj. lia.
      * set (k := argmin_from v i (S i) l) in *.
        replace (k - i)%nat with (S (k - S i)) by lia. split; [lia|].
        split; [simpl; lra|]. split.
        -- intros [|j] Hj; [simpl; lra|]. simpl. apply Hmin. lia.
        -- intros [|j] Hj; [simpl; lra|]. simpl. apply Hfirst. lia.
    + apply Qltb_ge in E.
      destruct (IH best ibest (S i)) as [[Hk Hall]|(Hk & Hlt & Hmin & Hfirst)].
      * left. split; [done | by constructor].
      * right. set (k := argmin_from best ibest (S i) l) in *.
        replace (k - i)%nat with (S (k - S i)) by lia. split; [lia|].
        split; [simpl; lra|]. split.
        -- intros [|j] Hj; [simpl; lra|]. simpl. apply Hmin. lia.
        -- intros [|j] Hj; [simpl; lra|]. simpl. apply Hfirst. lia.
Qed.

Lemma argmin_spec (l : list Q) :
  l <> [] ->
  exists k, argmin l = inr k /\ (k < length l)%nat
    /\ (forall j, (j < length l)%nat -> nth k l 0 <= nth j l 0)
    /\ (forall j, (j < k)%nat -> nth k l 0 < nth j l 0).
Proof.
  destruct l as [|v l]; [done|]. intros _. simpl argmin.
  eexists. split; [reflexivity|].
  destruct (argmin_from_spec l v 0%nat 1%nat) as [[Hk Hall]|(Hk & Hlt & Hmin & Hfirst)].
  - rewrite Hk. split; [simpl; lia|]. split; [|intros j Hj; lia].
    intros [|j] Hj; [apply Qle_refl|]. simpl.
    rewrite List.Forall_forall in Hall. apply Hall. apply nth_In. simpl in Hj. lia.
  - set (k := argmin_from v 0%nat 1%nat l) in *.
    replace k with (S (k - 1)) by lia. simpl. split; [lia|]. split.
    + intros [|j] Hj; [lra|]. apply Hmin. lia.
    + intros [|j] Hj; [lra|]. apply Hfirst. lia.
Qed.

(** X9.  With at least one archetype, [get_best_archetype] returns the
    chi-squared, the coefficients and the subtype label of one and the same
    archetype: one of least chi-squared, and the first such.  With no
    archetype it raises [ValueError]. *)
Theorem get_best_archetype_least
    (arch_zchi2_one : store -> list Spectrum -> Archetype -> nat -> Q -> Q * list Q)
    (self : Archetype) (h : store) (spectra : list Spectrum) (zq : Q) :
  ((0 < _narch self)%nat -> (_narch self <= length (_subtype self))%nat ->
   exists k st,
     (k < _narch self)%nat /\ _subtype self !! k = Some st
     /\ get_best_archetype arch_zchi2_one self h spectra zq
        = inr (fst (arch_zchi2_one h spectra self k zq),
               snd (arch_zchi2_one h spectra self k zq), st)
     /\ (forall j, (j < _narch self)%nat ->
           fst (arch_zchi2_one h spectra self k zq)
           <= fst (arch_zchi2_one h spectra self j zq))
     /\ (forall j, (j < k)%nat ->
           fst (arch_zchi2_one h spectra self k zq)
           < fst (arch_zchi2_one h spectra self j zq)))
  /\ (_narch self = 0%nat ->
      get_best_archetype arch_zchi2_one self h spectra zq = inl ValueError).
Proof.
  split.
  - intros Hn Hs. unfold get_best_archetype.
    set (f := fun i => arch_zchi2_one h spectra self i zq).
    set (fits := map f (seq 0 (_narch self))).
    assert (Hlen : length (map fst fits) = _narch self).
    { unfold fits. by rewrite !length_map, length_seq. }
    assert (Hnth : forall j, (j < _narch self)%nat ->
                     nth j (map fst fits) 0 = fst (f j)).
    { intros j Hj. unfold fits. rewrite map_map.
      rewrite (nth_map_lt _ (seq 0 (_narch self)) j 0%nat) by (by rewrite length_seq).
      by rewrite seq_nth. }
    destruct (argmin_spec (map fst fits)) as (k & -> & Hk & Hmin & Hfirst).
    { intros E. apply (f_equal length) in E. rewrite Hlen in E. simpl in E. lia. }
    rewrite Hlen in Hk, Hmin. cbn beta iota delta [bind].
    destruct (getitem_lt (_subtype self) k) as (st & Hst & Hst'); [lia|].
    exists k, st. split; [done|]. split; [done|]. split.
    + assert (H1 : getitem (map fst fits) k = inr (fst (f k))).
      { apply getitem_inr. rewrite (lookup_nth _ k 0) by lia. by rewrite Hnth. }
      assert (H2 : getitem (map snd fits) k = inr (snd (f k))).
      { apply getitem_inr. unfold fits. rewrite map_map.
        change (map ?g ?l) with (g <$> l). rewrite list_lookup_fmap.
        by rewrite lookup_seq_lt. }
      rewrite H1, H2, Hst. reflexivity.
    + split.
      * intros j Hj. change (fst (f k) <= fst (f j)).
        rewrite <- !Hnth by done. by apply Hmin.
      * intros j Hj. change (fst (f k) < fst (f j)).
        rewrite <- !Hnth by lia. by apply Hfirst.
  - intros Hn. unfold get_best_archetype. rewrite Hn. reflexivity.
Qed.

Lemma get_best_archetype_least_witness :
  exists k st,
    (k < 2)%nat /\ _subtype archetype2 !! k = Some st
    /\ get_best_archetype (arch_of (fun i z => inject_Z (Z.of_nat i) + 1))
         archetype2 store2 spectra2 3
       = inr (fst (arch_of (fun i z => inject_Z (Z.of_nat i) + 1)
                           store2 spectra2 archetype2 k 3),
              snd (arch_of (fun i z => inject_Z (Z.of_nat i) + 1)
                           store2 spectra2 archetype2 k 3), st).
Proof.
  destruct (proj1 (get_best_archetype_least
                     (arch_of (fun i z => inject_Z (Z.of_nat i) + 1))
                     archetype2 store2 spectra2 3))
    as (k & st & Hk & Hst & Hr & _); [simpl; lia | simpl; lia |].
  exists k, st. split; [exact Hk|]. split; [exact Hst | exact Hr].
Defined.

(** ** Further facts about the loop *)

Lemma fold_min_le (l : list Q) (v : Q) :
  fold_left Qmin l v <= v /\ Forall (fun c => fold_left Qmin l v <= c) l.
Proof.
  revert v. induction l as [|a l IH]; intros v; simpl.
  - split; [apply Qle_refl | constructor].
  - destruct (IH (Qmin v a)) as [H1 H2]. split.
    + eapply Qle_trans; [exact H1 | apply Q.le_min_l].
    + constructor; [|done]. eapply Qle_trans; [exact H1 | apply Q.le_min_r].
Qed.

Lemma np_min_le (l : list Q) (m : Q) :
  np_min l = inr m -> forall c, In c l -> m <= c.
Proof.
  destruct l as [|v l]; [discriminate|]. intros H. inversion H; subst. clear H.
  destruct (fold_min_le l v) as [H1 H2]. intros c [<-|Hc]; [done|].
  rewrite List.Forall_forall in H2. by apply H2.
Qed.

Section LoopFacts.

Variable np_sqrt : Q -> Q.
Variable BAD_MINFIT Z_FITLIMIT : Z.
Variable max_velo_diff : Q.
Variable calc_zchi2 : store -> list Spectrum -> Template -> Q -> py (Q * list Q).
Variable arch_zchi2_one : store -> list Spectrum -> Archetype -> nat -> Q -> Q * list Q.
Variable h : store.
Variable zchi2_in redshifts : list Q.
Variable spectra : list Spectrum.
Variable template : Template.

Local Abbreviation refine_with :=
  (fitz.refine np_sqrt BAD_MINFIT Z_FITLIMIT max_velo_diff calc_zchi2
               arch_zchi2_one h zchi2_in redshifts spectra template).
Local Abbreviation refine_all_with :=
  (fitz.refine_all np_sqrt BAD_MINFIT Z_FITLIMIT max_velo_diff calc_zchi2
                   arch_zchi2_one h zchi2_in redshifts spectra template).
Local Abbreviation fitz_with :=
  (fitz.fitz np_sqrt BAD_MINFIT Z_FITLIMIT max_velo_diff calc_zchi2
             arch_zchi2_one h zchi2_in redshifts spectra template).

Lemma scan_fallback_inr (zz0 zzc : list Q) (zbest c : Q) (zw : Z)
    (zb c2 : Q) (zw2 : Z) :
  length zz0 = nz ->
  scan_fallback BAD_MINFIT zz0 zzc zbest c zw = inr (zb, c2, zw2) ->
  (exists z0 zl, zz0 !! 0%nat = Some z0 /\ zz0 !! (nz - 1)%nat = Some zl
                 /\ z0 <= zb /\ zb <= zl /\ zw2 = zw)
  \/ (zw2 = Z.lor zw BAD_MINFIT
      /\ exists k, zz0 !! k = Some zb /\ zzc !! k = Some c2
                   /\ forall v, In v zzc -> c2 <= v).
Proof.
  intros Hlen H. unfold scan_fallback in H.
  apply bind_inr in H as (z0 & Hz0 & H). apply bind_inr in H as (zl & Hzl & H).
  apply getitem_inr in Hz0.
  unfold getitem_neg in Hzl. rewrite Hlen in Hzl. simpl in Hzl.
  apply getitem_inr in Hzl.
  destruct (Qltb zbest z0 || Qltb zl zbest) eqn:E.
  - right.
    apply bind_inr in H as (m & Hm & H). apply bind_inr in H as (k & Hk & H).
    apply bind_inr in H as (zb' & Hzb & H). apply bind_inr in H as (c' & Hc & H).
    inversion H; subst. split; [done|]. exists k.
    apply getitem_inr in Hzb, Hc, Hk. split; [done|]. split; [done|].
    assert (Hin : In k (np_where (map (fun v => Qeq_bool v m) zzc))).
    { apply list_elem_of_In. by eapply list_elem_of_lookup_2. }
    apply np_where_In in Hin. change (map ?f ?l) with (f <$> l) in Hin.
    rewrite list_lookup_fmap, Hc in Hin. simpl in Hin. inversion Hin as [Hq].
    apply Qeq_bool_iff in Hq. intros v Hv. rewrite Hq. by apply (np_min_le zzc).
  - left. inversion H; subst. apply orb_false_iff in E as [E1 E2].
    apply Qltb_ge in E1, E2. exists z0, zl. done.
Qed.

Lemma edge_flags_inr (zbest zmin : Q) (zw zw' : Z) :
  edge_flags Z_FITLIMIT redshifts zbest zmin zw = inr zw' ->
  forall f, has_flag zw f -> has_flag zw' f.
Proof.
  unfold edge_flags. intros H.
  apply bind_inr in H as (r1 & _ & H). apply bind_inr in H as (r2 & _ & H).
  inversion H; subst. intros f Hf.
  destruct (_ || _), (_ || _); repeat apply has_flag_lor_l; done.
Qed.

Lemma refine_fine_scan (arch : option Archetype) (results : list Minimum)
    (imin : nat) (m : Minimum) :
  refine_with arch results imin = inr (Some m) -> fine_scan_ok BAD_MINFIT m.
Proof.
  unfold fitz.refine. intros H.
  apply bind_inr in H as (zc & _ & H).
  destruct (too_close max_velo_diff zc (map z results)); [discriminate|].
  apply bind_inr in H as ([[zz0 zzc] [[[zmin sigma] chi2min] zw]] & Hf & H).
  apply fine_fit_inr in Hf as (Hz & Hc & _).
  apply accept_some in H as (co & zw1 & zbest & c2 & zw2 & zw3 & _ & Hs & He & _ & _ & ->).
  unfold fine_scan_ok. simpl. split; [done|]. split; [done|].
  apply (scan_fallback_inr zz0 zzc zmin chi2min zw1 zbest c2 zw2 Hz) in Hs
    as [(z0 & zl & H0 & Hl & H1 & H2 & _)|(-> & k & Hk1 & Hk2 & Hk3)].
  - left. exists z0, zl. done.
  - right. split; [|by exists k].
    apply (edge_flags_inr _ _ _ _ He). apply has_flag_lor_r.
Qed.

Lemma refine_all_fine_scan (nminima : nat) (arch : option Archetype)
    (cands : list nat) (out : list Minimum) :
  refine_all_with nminima arch cands [] = inr out ->
  Forall (fine_scan_ok BAD_MINFIT) out.
Proof.
  apply (refine_all_ind _ _ _ _ _ _ _ _ _ _ _ _ _ (Forall (fine_scan_ok BAD_MINFIT)));
    [| simpl; lia | constructor].
  intros rs imin m HP _ Hr. apply Forall_app. split; [done|].
  constructor; [|constructor]. by apply refine_fine_scan in Hr.
Qed.

Lemma fitz_rows_fine_scan (nminima : nat) (arch : option Archetype) (t : Table) :
  fitz_with nminima arch = inr t ->
  exists rows,
    Forall (fine_scan_ok BAD_MINFIT) rows
    /\ t_z t = map z rows /\ t_zz t = map zz rows
    /\ t_zzchi2 t = map zzchi2 rows /\ t_chi2 t = map chi2 rows
    /\ t_zwarn t = map zwarn rows.
Proof.
  intros E.
  apply fitz_inr in E as (cands & acc & sorted & npix & _ & _ & Ha & _ & Hp & _ & _ & _ & ->).
  exists sorted. split; [|done].
  apply refine_all_fine_scan in Ha. by rewrite Hp.
Qed.

Hypothesis calc_total :
  forall zq, exists c co, calc_zchi2 h spectra template zq = inr (c, co).

Lemma refine_all_total (nminima : nat) (cands : list nat) (results : list Minimum) :
  length zchi2_in = length redshifts -> (2 <= length redshifts)%nat ->
  Forall (fun i => (i < length redshifts)%nat) cands ->
  exists out, refine_all_with nminima None cands results = inr out
    /\ (length results <= length out)%nat
    /\ (cands <> [] -> (0 < nminima)%nat -> out <> []).
Proof.
  intros Hlen H2 Hc. revert results.
  induction Hc as [|imin rest Hi _ IH]; intros results.
  - exists results. split; [reflexivity|]. split; [lia | done].
  - simpl. destruct (Nat.eqb_spec (length results) nminima) as [E|E].
    + exists results. split; [reflexivity|]. split; [lia|].
      intros _ Hn ->. simpl in E. lia.
    + destruct (refine_total np_sqrt BAD_MINFIT Z_FITLIMIT max_velo_diff
                  calc_zchi2 arch_zchi2_one h zchi2_in redshifts spectra
                  template None calc_total results imin eq_refl Hlen Hi H2)
        as (r & -> & Hr).
      cbn beta iota delta [bind]. destruct r as [m|].
      * destruct (IH (results ++ [m])) as (out & -> & Hl & _).
        exists out. split; [reflexivity|]. rewrite length_app in Hl. simpl in Hl.
        split; [lia|]. intros _ _ ->. simpl in Hl. lia.
      * destruct (IH results) as (out & -> & Hl & _).
        exists out. split; [reflexivity|]. split; [done|].
        intros _ _ ->. destruct results; [by apply Hr | simpl in Hl; lia].
Qed.

Lemma fitz_returns (nminima : nat) :
  length zchi2_in = length redshifts -> (2 <= length redshifts)%nat ->
  (0 < nminima)%nat ->
  Forall (fun s => is_Some (h !! ivar s)) spectra ->
  exists t, fitz_with nminima None = inr t
    /\ (1 <= length (t_z t) <= nminima)%nat.
Proof.
  intros Hlen H2 Hn Hs.
  assert (Hx : zchi2_in <> []).
  { intros E. rewrite E in Hlen. simpl in Hlen. lia. }
  destruct (find_minima_cons zchi2_in Hx) as (i & rest & Hf & _).
  destruct (find_minima_nonempty zchi2_in Hx) as (l & Hl & Hin & _).
  rewrite Hf in Hl. inversion Hl; subst l. clear Hl.
  assert (Hc : Forall (fun k => (k < length redshifts)%nat) (i :: rest)).
  { apply List.Forall_forall. intros k Hk. apply Hin in Hk. rewrite <- Hlen. apply Hk. }
  destruct (refine_all_total nminima (i :: rest) [] Hlen H2 Hc) as (out & Ho & _ & Hne).
  assert (Hnp : exists n, npixels h spectra = inr n).
  { clear -Hs. induction Hs as [|s ss [a Ha] _ [n IH]]; simpl; [eauto|].
    unfold deref. rewrite Ha. cbn beta iota delta [bind]. rewrite IH.
    cbn beta iota delta [bind]. eauto. }
  destruct Hnp as (n & Hnp).
  destruct (sort_by_chi2_spec out) as (sorted & Hso & Hp & _).
  assert (Hfz : fitz_with nminima None = inr (to_table None sorted n)).
  { unfold fitz.fitz. rewrite Hlen, Nat.eqb_refl. simpl negb. cbv iota.
    unfold legendre_setup. cbn beta iota delta [bind ret]. rewrite Hf.
    cbn beta iota delta [bind]. rewrite Ho. cbn beta iota delta [bind].
    rewrite Hso. cbn beta iota delta [bind].
    destruct sorted as [|m sorted].
    - apply Permutation_nil in Hp. destruct (Hne ltac:(done) Hn Hp).
    - simpl negb. cbv iota. rewrite Hnp. reflexivity. }
  eexists. split; [exact Hfz|]. apply fitz_rows in Hfz. lia.
Qed.

End LoopFacts.

Section ShortScan.

Variable np_sqrt : Q -> Q.
Variable BAD_MINFIT Z_FITLIMIT : Z.
Variable max_velo_diff : Q.
Variable calc_zchi2 : store -> list Spectrum -> Template -> Q -> py (Q * list Q).
Variable arch_zchi2_one : store -> list Spectrum -> Archetype -> nat -> Q -> Q * list Q.
Variable h : store.
Variable spectra : list Spectrum.
Variable template : Template.

Hypothesis calc_total :
  forall zq, exists c co, calc_zchi2 h spectra template zq = inr (c, co).

Lemma refine_one_point (v r : Q) (arch : option Archetype) :
  fitz.refine np_sqrt BAD_MINFIT Z_FITLIMIT max_velo_diff calc_zchi2
              arch_zchi2_one h [v] [r] spectra template arch [] 0
  = inl IndexError.
Proof.
  unfold fitz.refine. cbn [getitem nth_error bind ret map too_close existsb].
  destruct (fine_fit_total np_sqrt BAD_MINFIT calc_zchi2 h [v] [r] spectra
              template calc_total 0 eq_refl ltac:(simpl; lia))
    as (zz0 & zzc & [[[zmin sigma] c] zw] & Hf).
  rewrite Hf. cbn beta iota delta [bind].
  apply fine_fit_inr in Hf as (Hz & Hc & _).
  unfold accept.
  destruct (calc_total zmin) as (c0 & co & Hcalc).
  rewrite (eval_at_zmin_ok _ _ _ _ _ _ _ _ _ c0 co Hcalc).
  cbn beta iota delta [bind].
  destruct (scan_fallback_total BAD_MINFIT zz0 zzc zmin c zw) as (zb & c2 & zw2 & -> & _);
    [congruence | by destruct zz0 |].
  reflexivity.
Qed.

End ShortScan.

(** ** Further facts about Spectrum.__init__ *)

Lemma count_positive_cons (v : Q) (a : list Q) :
  count_positive (v :: a)
  = ((if Qltb 0 v then 1 else 0) + count_positive a)%nat.
Proof.
  unfold count_positive. rewrite filter_cons.
  destruct (decide (Qltb 0 v = true)) as [E|E].
  - by rewrite E.
  - by destruct (Qltb 0 v).
Qed.

Lemma count_positive_mask_zero (w : list bool) (a : list Q) :
  (count_positive (mask_zero w a) <= count_positive a)%nat.
Proof.
  revert a. induction w as [|b w IH]; intros [|v a]; try (cbn; lia).
  change (mask_zero (b :: w) (v :: a))
    with ((if b then 0 else v) :: mask_zero w a).
  rewrite !count_positive_cons. specialize (IH a).
  destruct b; [|lia]. change (Qltb 0 0) with false. destruct (Qltb 0 v); lia.
Qed.

Lemma mask_zero_idemp (w : list bool) (a : list Q) :
  mask_zero w (mask_zero w a) = mask_zero w a.
Proof.
  revert a. induction w as [|b w IH]; intros [|v a]; try reflexivity.
  change (mask_zero (b :: w) (v :: a))
    with ((if b then 0 else v) :: mask_zero w a).
  change (mask_zero (b :: w) ((if b then 0 else v) :: mask_zero w a))
    with ((if b then 0 else (if b then 0 else v)) :: mask_zero w (mask_zero w a)).
  rewrite IH. by destruct b.
Qed.

Lemma getitem_nth {A : Type} (l : list A) (i : nat) (d : A) :
  (i < length l)%nat -> getitem l i = inr (nth i l d).
Proof. intros Hi. apply getitem_inr. by apply lookup_nth. Qed.

Section InitFacts.

Variable min_resolution_integral : Q.

Local Abbreviation Spectrum_init := (targets.Spectrum_init min_resolution_integral).
Local Abbreviation zero_unresolved := (targets.zero_unresolved min_resolution_integral).

Lemma Spectrum_init_fst (wave flux ivar : loc) (R : option dia_matrix)
    (Rcsr : option csr_matrix) (h : store) :
  fst (Spectrum_init wave flux ivar R Rcsr h) = fst (zero_unresolved ivar R h).
Proof.
  unfold targets.Spectrum_init. by destruct (zero_unresolved ivar R h).
Qed.

Lemma Spectrum_init_snd (wave flux ivar : loc) (R : option dia_matrix)
    (Rcsr : option csr_matrix) (h : store) (w : list Q) :
  snd (zero_unresolved ivar R h) = inr tt ->
  fst (zero_unresolved ivar R h) !! wave = Some w ->
  snd (Spectrum_init wave flux ivar R Rcsr h)
  = if (2 <=? length w)%nat
    then inr {| nwave := length w; targets.wave := wave; targets.flux := flux;
                targets.ivar := ivar; targets.R := R; _Rcsr := Rcsr;
                _mpshared := false;
                wavehash := (length w, nth 0 w 0, nth 1 w 0,
                             nth (length w - 2) w 0, nth (length w - 1) w 0,
                             match R with
                             | Some r => Some (length (data r))
                             | None => None
                             end) |}
    else inl IndexError.
Proof.
  unfold targets.Spectrum_init.
  destruct (zero_unresolved ivar R h) as [h1 r]. simpl. intros -> Hw.
  cbn beta iota delta [bind]. unfold deref. rewrite Hw.
  cbn beta iota delta [bind ret].
  destruct w as [|a [|b w]]; [reflexivity | reflexivity |].
  change (2 <=? length (a :: b :: w))%nat with true. cbv iota.
  rewrite (getitem_nth (a :: b :: w) 0 0) by (simpl; lia).
  rewrite (getitem_nth (a :: b :: w) 1 0) by (simpl; lia).
  unfold getitem_neg.
  change (2 <=? length (a :: b :: w))%nat with true.
  change (1 <=? length (a :: b :: w))%nat with true. cbv iota.
  rewrite (getitem_nth (a :: b :: w) (length (a :: b :: w) - 2) 0) by (simpl; lia).
  rewrite (getitem_nth (a :: b :: w) (length (a :: b :: w) - 1) 0) by (simpl; lia).
  reflexivity.
Qed.

Lemma zero_unresolved_idemp (ivar : loc) (R : option dia_matrix) (h : store) :
  fst (zero_unresolved ivar R (fst (zero_unresolved ivar R h)))
  = fst (zero_unresolved ivar R h).
Proof.
  unfold targets.zero_unresolved. destruct R as [r|]; [|reflexivity].
  set (w := map (fun s => Qltb s min_resolution_integral) (row_sums r)).
  destruct (h !! ivar) as [a|] eqn:Ha; cbn [fst]; [|by rewrite Ha].
  destruct (Nat.eqb_spec (length w) (length a)) as [E|E]; cbn [fst].
  - assert (Hi : <[ivar := mask_zero w a]> h !! ivar = Some (mask_zero w a))
      by apply lookup_insert_eq.
    rewrite Hi.
    assert (El : length w = length (mask_zero w a)).
    { unfold mask_zero. rewrite length_zip_with. lia. }
    rewrite <- El, Nat.eqb_refl. cbn [fst].
    rewrite mask_zero_idemp. apply insert_insert_eq.
  - rewrite Ha. apply Nat.eqb_neq in E. by rewrite E.
Qed.

Lemma zero_unresolved_lookup (ivar : loc) (R : option dia_matrix) (h : store)
    (l : loc) (a : list Q) :
  h !! l = Some a ->
  exists a', fst (zero_unresolved ivar R h) !! l = Some a'
    /\ (count_positive a' <= count_positive a)%nat.
Proof.
  intros Hl. unfold targets.zero_unresolved.
  destruct R as [r|]; [|exists a; split; [done | lia]].
  destruct (h !! ivar) as [b|] eqn:Hb; [|exists a; split; [done | lia]].
  destruct (_ =? _)%nat; [|exists a; split; [done | lia]]. simpl.
  destruct (decide (l = ivar)) as [->|Hne].
  - eexists. split; [apply lookup_insert_eq|].
    assert (b = a) as -> by congruence. apply count_positive_mask_zero.
  - exists a. split; [|lia]. rewrite <- Hl. by apply lookup_insert_ne.
Qed.

End InitFacts.

(** ** fitz *)

(** X10.  Without an archetype, on a scan of at least two points with as
    many chi-squared values as redshifts, a solver that answers at every
    redshift, allocated weight arrays and [nminima >= 1], [fitz] raises
    nothing: it returns a table of at least one and at most [nminima]
    rows. *)
Theorem fitz_returns_table np_sqrt BAD_MINFIT Z_FITLIMIT max_velo_diff
    calc_zchi2 arch_zchi2_one h zchi2 redshifts spectra template nminima :
  (forall zq, exists c co, calc_zchi2 h spectra template zq = inr (c, co)) ->
  length zchi2 = length redshifts -> (2 <= length redshifts)%nat ->
  (0 < nminima)%nat ->
  Forall (fun s => is_Some (h !! ivar s)) spectra ->
  exists t,
    fitz np_sqrt BAD_MINFIT Z_FITLIMIT max_velo_diff calc_zchi2 arch_zchi2_one
         h zchi2 redshifts spectra template nminima None = inr t
    /\ (1 <= length (t_z t) <= nminima)%nat.
Proof. intros Hc Hl H2 Hn Hs. by apply fitz_returns. Qed.

Lemma fitz_returns_table_witness :
  exists t, fitz_ex two_wells grid_two_wells 3 None = inr t
            /\ (1 <= length (t_z t) <= 3)%nat.
Proof.
  refine (fitz_returns_table Qsqrt ZW_BAD_MINFIT ZW_Z_FITLIMIT velo_1000
            (calc_of two_wells) (arch_of (fun i z => inject_Z (Z.of_nat i) + 1))
            store2 (map two_wells grid_two_wells) grid_two_wells spectra2
            one_template 3 _ _ _ _ _).
  - intros zq. exists (two_wells zq), [1]. reflexivity.
  - reflexivity.
  - simpl. lia.
  - lia.
  - repeat constructor; eexists; reflexivity.
Defined.

(** X11.  A scan of fewer than two redshifts cannot be refined: with a
    solver that answers at every redshift and [nminima >= 1], [fitz] raises
    [IndexError] (from [find_minima] on an empty scan, from [redshifts[1]]
    on a scan of one point). *)
Theorem fitz_short_scan np_sqrt BAD_MINFIT Z_FITLIMIT max_velo_diff
    calc_zchi2 arch_zchi2_one h zchi2 redshifts spectra template nminima arch :
  (forall zq, exists c co, calc_zchi2 h spectra template zq = inr (c, co)) ->
  length zchi2 = length redshifts -> (length redshifts < 2)%nat ->
  (0 < nminima)%nat ->
  legendre_setup spectra arch = inr tt ->
  fitz np_sqrt BAD_MINFIT Z_FITLIMIT max_velo_diff calc_zchi2 arch_zchi2_one
       h zchi2 redshifts spectra template nminima arch = inl IndexError.
Proof.
  intros Hc Hl H2 Hn Hleg. unfold fitz.fitz.
  rewrite Hl, Nat.eqb_refl, Hleg. simpl negb. cbv iota.
  cbn beta iota delta [bind].
  destruct zchi2 as [|v [|v' zchi2]], redshifts as [|r [|r' redshifts]];
    try discriminate; try (simpl in H2; lia).
  - reflexivity.
  - change (find_minima [v]) with (@inr exn _ [0%nat]).
    cbn beta iota delta [bind]. unfold refine_all.
    destruct nminima as [|n]; [lia|]. change (length [] =? S n)%nat with false.
    cbv iota.
    by rewrite (refine_one_point np_sqrt BAD_MINFIT Z_FITLIMIT max_velo_diff
                  calc_zchi2 arch_zchi2_one h spectra template Hc v r arch).
Qed.

Lemma fitz_short_scan_witness :
  fitz_ex one_well [10] 3 None = inl IndexError.
Proof.
  refine (fitz_short_scan Qsqrt ZW_BAD_MINFIT ZW_Z_FITLIMIT velo_1000
            (calc_of one_well) (arch_of (fun i z => inject_Z (Z.of_nat i) + 1))
            store2 (map one_well [10]) [10] spectra2 one_template 3 None
            _ _ _ _ _).
  - intros zq. exists (one_well zq), [1]. reflexivity.
  - reflexivity.
  - simpl. lia.
  - lia.
  - reflexivity.
Defined.

(** X12.  Asking for no minimum at all is an error, not an empty table: on
    a non-empty scan with [nminima = 0] the loop stops before its first
    candidate and [assert len(results) > 0] fails. *)
Theorem fitz_zero_nminima np_sqrt BAD_MINFIT Z_FITLIMIT max_velo_diff
    calc_zchi2 arch_zchi2_one h zchi2 redshifts spectra template arch :
  length zchi2 = length redshifts -> zchi2 <> [] ->
  legendre_setup spectra arch = inr tt ->
  fitz np_sqrt BAD_MINFIT Z_FITLIMIT max_velo_diff calc_zchi2 arch_zchi2_one
       h zchi2 redshifts spectra template 0 arch = inl AssertionError.
Proof.
  intros Hl Hx Hleg.
  destruct (find_minima_nonempty zchi2 Hx) as (cands & Hf & _).
  apply (fitz_empty_asserts np_sqrt BAD_MINFIT Z_FITLIMIT max_velo_diff
           calc_zchi2 arch_zchi2_one h zchi2 redshifts spectra template
           0 arch cands Hl Hleg Hf).
  by destruct cands.
Qed.

Lemma fitz_zero_nminima_witness :
  fitz_ex one_well grid20 0 None = inl AssertionError.
Proof.
  refine (fitz_zero_nminima Qsqrt ZW_BAD_MINFIT ZW_Z_FITLIMIT velo_1000
            (calc_of one_well) (arch_of (fun i z => inject_Z (Z.of_nat i) + 1))
            store2 (map one_well grid20) grid20 spectra2 one_template None
            _ _ _).
  - reflexivity.
  - discriminate.
  - reflexivity.
Defined.

(** X13.  Every row of a table returned by [fitz] carries a fine scan of 15
    redshifts and 15 chi-squared values, and its redshift either lies
    between the first and the last redshift of that scan, or is a point of
    the scan whose chi-squared is the row's [chi2] and the least of the
    scan, the row being flagged [BAD_MINFIT]. *)
Theorem fitz_row_within_scan np_sqrt BAD_MINFIT Z_FITLIMIT max_velo_diff
    calc_zchi2 arch_zchi2_one h zchi2 redshifts spectra template nminima arch
    (t : Table) (i : nat) (zi : Q) :
  fitz np_sqrt BAD_MINFIT Z_FITLIMIT max_velo_diff calc_zchi2 arch_zchi2_one
       h zchi2 redshifts spectra template nminima arch = inr t ->
  t_z t !! i = Some zi ->
  exists zs cs ci zw,
    t_zz t !! i = Some zs /\ t_zzchi2 t !! i = Some cs
    /\ t_chi2 t !! i = Some ci /\ t_zwarn t !! i = Some zw
    /\ length zs = 15%nat /\ length cs = 15%nat
    /\ ((exists z0 zl, zs !! 0%nat = Some z0 /\ zs !! 14%nat = Some zl
                       /\ z0 <= zi /\ zi <= zl)
        \/ (has_flag zw BAD_MINFIT
            /\ exists k, zs !! k = Some zi /\ cs !! k = Some ci
                         /\ forall c, In c cs -> ci <= c)).
Proof.
  intros Hf Hi.
  apply fitz_rows_fine_scan in Hf as (rows & Hok & Hz & Hzz & Hzc & Hc & Hw).
  rewrite Hz in Hi. change (map ?f ?l) with (f <$> l) in Hi.
  apply list_lookup_fmap_Some_1 in Hi as (m & -> & Hm).
  exists (zz m), (zzchi2 m), (chi2 m), (zwarn m).
  rewrite Hzz, Hzc, Hc, Hw. change (map ?f ?l) with (f <$> l).
  rewrite !list_lookup_fmap, Hm. simpl.
  rewrite Forall_lookup in Hok. destruct (Hok i m Hm) as (H1 & H2 & H3). done.
Qed.

Lemma fitz_row_within_scan_witness :
  exists t zi,
    fitz_ex one_well grid20 3 None = inr t /\ t_z t !! 0%nat = Some zi
    /\ exists zs, t_zz t !! 0%nat = Some zs /\ length zs = 15%nat.
Proof.
  destruct (fitz_returns Qsqrt ZW_BAD_MINFIT ZW_Z_FITLIMIT velo_1000
              (calc_of one_well) (arch_of (fun i z => inject_Z (Z.of_nat i) + 1))
              store2 (map one_well grid20) grid20 spectra2 one_template)
    with (nminima := 3%nat) as (t & Ht & Hn & _).
  - intros zq. exists (one_well zq), [1]. reflexivity.
  - reflexivity.
  - simpl. lia.
  - lia.
  - repeat constructor; eexists; reflexivity.
  - destruct (lookup_lt_is_Some_2 (t_z t) 0 Hn) as [zi Hzi].
    exists t, zi. split; [exact Ht|]. split; [exact Hzi|].
    destruct (fitz_row_within_scan Qsqrt ZW_BAD_MINFIT ZW_Z_FITLIMIT velo_1000
                (calc_of one_well)
                (arch_of (fun i z => inject_Z (Z.of_nat i) + 1))
                store2 (map one_well grid20) grid20 spectra2 one_template
                3 None t 0 zi Ht Hzi)
      as (zs & cs & ci & zw & Hzs & _ & _ & _ & Hl & _).
    exists zs. split; [exact Hzs | exact Hl].
Defined.

(** X14.  Every row of a table returned by [fitz] carries the same
    [npixels]: the number of samples of positive weight, summed over all
    spectra. *)
Theorem fitz_npixels_column np_sqrt BAD_MINFIT Z_FITLIMIT max_velo_diff
    calc_zchi2 arch_zchi2_one h zchi2 redshifts spectra template nminima arch
    (t : Table) (arrays : list (list Q)) :
  fitz np_sqrt BAD_MINFIT Z_FITLIMIT max_velo_diff calc_zchi2 arch_zchi2_one
       h zchi2 redshifts spectra template nminima arch = inr t ->
  Forall2 (fun s a => h !! ivar s = Some a) spectra arrays ->
  t_npixels t
  = repeat (sum_list (map count_positive arrays)) (length (t_z t)).
Proof.
  intros Hf Ha.
  apply fitz_inr in Hf as (cands & acc & sorted & npix & _ & _ & _ & _ & _ & _ & _ & Hn & ->).
  rewrite (npixels_sum _ _ _ Ha) in Hn. inversion Hn; subst npix. simpl.
  rewrite length_map. clear. induction sorted as [|m l IH]; simpl; congruence.
Qed.

Lemma fitz_npixels_column_witness :
  exists t,
    fitz_ex one_well grid20 3 None = inr t
    /\ t_npixels t = repeat 3%nat (length (t_z t)).
Proof.
  destruct (fitz_returns Qsqrt ZW_BAD_MINFIT ZW_Z_FITLIMIT velo_1000
              (calc_of one_well) (arch_of (fun i z => inject_Z (Z.of_nat i) + 1))
              store2 (map one_well grid20) grid20 spectra2 one_template)
    with (nminima := 3%nat) as (t & Ht & _).
  - intros zq. exists (one_well zq), [1]. reflexivity.
  - reflexivity.
  - simpl. lia.
  - lia.
  - repeat constructor; eexists; reflexivity.
  - exists t. split; [exact Ht|].
    refine (fitz_npixels_column Qsqrt ZW_BAD_MINFIT ZW_Z_FITLIMIT velo_1000
              (calc_of one_well)
              (arch_of (fun i z => inject_Z (Z.of_nat i) + 1))
              store2 (map one_well grid20) grid20 spectra2 one_template
              3 None t [[1; 0; 2]; [0; 3]] Ht _).
    repeat constructor.
Defined.

(** ** Spectrum.__init__ *)

(** X15.  Without a resolution matrix [Spectrum.__init__] writes nothing to
    the store.  On a wavelength array of at least two samples it returns the
    spectrum with [nwave] its length and the signature
    [(len, wave[0], wave[1], wave[-2], wave[-1])]; on a shorter one it
    raises [IndexError]. *)
Theorem Spectrum_init_without_R (min_resolution_integral : Q)
    (wave flux ivar : loc) (Rcsr : option csr_matrix) (h : store) (w : list Q) :
  h !! wave = Some w ->
  let h' := fst (Spectrum_init min_resolution_integral wave flux ivar None Rcsr h) in
  let res := snd (Spectrum_init min_resolution_integral wave flux ivar None Rcsr h) in
  h' = h
  /\ ((2 <= length w)%nat ->
      exists s, res = inr s /\ nwave s = length w
        /\ wavehash s = (length w, nth 0 w 0, nth 1 w 0,
                         nth (length w - 2) w 0, nth (length w - 1) w 0, None)
        /\ targets.wave s = wave /\ targets.flux s = flux
        /\ targets.ivar s = ivar /\ R s = None /\ _Rcsr s = Rcsr
        /\ _mpshared s = false)
  /\ ((length w < 2)%nat -> res = inl IndexError).
Proof.
  intros Hw h' res. subst h' res.
  rewrite (Spectrum_init_snd _ wave flux ivar None Rcsr h w eq_refl Hw).
  split; [reflexivity|]. split; intros Hl.
  - destruct (Nat.leb_spec 2 (length w)); [|lia]. eexists. split; [reflexivity|]. done.
  - destruct (Nat.leb_spec 2 (length w)); [lia|]. reflexivity.
Qed.

Lemma Spectrum_init_without_R_witness :
  fst (Spectrum_init min_resolution_099 4%positive 5%positive 6%positive
                     None None store2) = store2
  /\ exists s,
       snd (Spectrum_init min_resolution_099 4%positive 5%positive 6%positive
                          None None store2) = inr s
       /\ wavehash s = (2%nat, 5000, 5001, 5000, 5001, None).
Proof.
  destruct (Spectrum_init_without_R min_resolution_099 4%positive 5%positive
              6%positive None store2 [5000; 5001] eq_refl)
    as (Hh & Hs & _).
  split; [exact Hh|].
  destruct (Hs ltac:(simpl; lia)) as (s & Hr & _ & Hk & _).
  exists s. split; [exact Hr | exact Hk].
Defined.

(** X16.  How [Spectrum.__init__] with a resolution matrix fails.  When the
    matrix has not as many rows as [ivar] has samples the masked write
    raises [IndexError] and the store is left as it was.  When the shapes
    agree but the wavelength array has fewer than two samples, the
    constructor raises [IndexError] after the write: the caller's [ivar] is
    already masked. *)
Theorem Spectrum_init_failures (min_resolution_integral : Q)
    (wave flux ivar : loc) (r : dia_matrix) (Rcsr : option csr_matrix)
    (h : store) (a : list Q) :
  h !! ivar = Some a ->
  let h' := fst (Spectrum_init min_resolution_integral wave flux ivar (Some r) Rcsr h) in
  let res := snd (Spectrum_init min_resolution_integral wave flux ivar (Some r) Rcsr h) in
  (length (row_sums r) <> length a -> h' = h /\ res = inl IndexError)
  /\ (length (row_sums r) = length a ->
      forall w, h' !! wave = Some w -> (length w < 2)%nat ->
        res = inl IndexError
        /\ h' !! ivar = Some (mask_zero (unresolved min_resolution_integral r) a)).
Proof.
  intros Ha h' res. subst h' res. split.
  - intros Hne. unfold Spectrum_init, zero_unresolved.
    rewrite Ha, length_map. apply Nat.eqb_neq in Hne. by rewrite Hne.
  - intros Hl w Hw H2.
    rewrite (Spectrum_init_store _ wave flux ivar r Rcsr h a Ha Hl) in *.
    split; [|apply lookup_insert_eq].
    rewrite (Spectrum_init_snd _ wave flux ivar (Some r) Rcsr h w).
    + destruct (Nat.leb_spec 2 (length w)); [lia | reflexivity].
    + unfold zero_unresolved. by rewrite Ha, length_map, Hl, Nat.eqb_refl.
    + unfold zero_unresolved. rewrite Ha, length_map, Hl, Nat.eqb_refl. exact Hw.
Qed.

Lemma Spectrum_init_failures_witness :
  snd (Spectrum_init min_resolution_099 4%positive 5%positive 6%positive
                     (Some resolution3) None store2) = inl IndexError
  /\ fst (Spectrum_init min_resolution_099 4%positive 5%positive 6%positive
                        (Some resolution3) None store2) = store2.
Proof.
  destruct (Spectrum_init_failures min_resolution_099 4%positive 5%positive
              6%positive resolution3 None store2 [0; 3] eq_refl)
    as (H1 & _).
  destruct H1 as (Hh & Hr); [simpl; lia|]. split; [exact Hr | exact Hh].
Defined.

(** X17.  Building the same spectrum a second time writes nothing new: the
    store after two calls of [Spectrum.__init__] on the same arguments is the
    store after one. *)
Theorem Spectrum_init_idempotent (min_resolution_integral : Q)
    (wave flux ivar : loc) (R : option dia_matrix) (Rcsr : option csr_matrix)
    (h : store) :
  let h1 := fst (Spectrum_init min_resolution_integral wave flux ivar R Rcsr h) in
  fst (Spectrum_init min_resolution_integral wave flux ivar R Rcsr h1) = h1.
Proof.
  intros h1. subst h1. rewrite !Spectrum_init_fst. apply zero_unresolved_idemp.
Qed.

(** X18.  [Spectrum.__init__] never adds a usable sample: whatever list of
    spectra [fitz] is later given, its pixel count over the store left by
    the constructor exists whenever it did before, and is no larger. *)
Theorem Spectrum_init_npixels_le (min_resolution_integral : Q)
    (wave flux ivar : loc) (R : option dia_matrix) (Rcsr : option csr_matrix)
    (h : store) (spectra : list Spectrum) (n : nat) :
  npixels h spectra = inr n ->
  exists n',
    npixels (fst (Spectrum_init min_resolution_integral wave flux ivar R Rcsr h))
            spectra = inr n'
    /\ (n' <= n)%nat.
Proof.
  rewrite Spectrum_init_fst. revert n.
  induction spectra as [|s ss IH]; intros n Hn.
  - exists 0%nat. split; [reflexivity|]. simpl in Hn. inversion Hn. lia.
  - simpl in Hn. apply bind_inr in Hn as (a & Ha & Hn).
    apply bind_inr in Hn as (m & Hm & Hn). inversion Hn; subst n.
    unfold deref in Ha. destruct (h !! targets.ivar s) as [a0|] eqn:E; [|discriminate].
    inversion Ha; subst a0.
    destruct (zero_unresolved_lookup min_resolution_integral ivar R h _ a E)
      as (a' & Ha' & Hle).
    destruct (IH m Hm) as (m' & Hm' & Hle').
    exists (count_positive a' + m')%nat. split; [|lia].
    simpl. unfold deref. rewrite Ha'. cbn beta iota delta [bind]. rewrite Hm'.
    reflexivity.
Qed.

Lemma Spectrum_init_npixels_le_witness :
  exists n',
    npixels (fst (Spectrum_init min_resolution_099 1%positive 2%positive
                                3%positive (Some resolution3) None store2))
            spectra2 = inr n'
    /\ (n' <= 3)%nat.
Proof.
  refine (Spectrum_init_npixels_le min_resolution_099 1%positive 2%positive
            3%positive (Some resolution3) None store2 spectra2 3 _).
  reflexivity.
Defined.

(** ** Target.compute_coadd *)

Import Target.

Lemma bindx_inr {A B : Type} (m : pyx A) (k : A -> pyx B) (b : B) :
  bindx m k = inr b -> exists a, m = inr a /\ k a = inr b.
Proof. destruct m as [e|a]; [discriminate|]. intros H. by exists a. Qed.

Lemma lift_inr {A : Type} (m : py A) (a : A) : lift m = inr a -> m = inr a.
Proof. destruct m; [discriminate|]. intros H. by inversion H. Qed.

Lemma fresh_loc_bound (h : store) (l : loc) :
  is_Some (h !! l) -> (l < fresh_loc h)%positive.
Proof.
  unfold fresh_loc.
  apply (map_fold_weak_ind
           (fun r (m : gmap positive (list Q)) =>
              is_Some (m !! l) -> (l < Pos.succ r)%positive)).
  - intros H. by apply (lookup_empty_is_Some (M := gmap positive)) in H.
  - intros k a m r Hk IH Hl.
    destruct (decide (l = k)) as [->|Hne]; [lia|].
    rewrite lookup_insert_ne in Hl by done. specialize (IH Hl). lia.
Qed.

Lemma fresh_loc_None (h : store) : h !! fresh_loc h = None.
Proof.
  destruct (h !! fresh_loc h) eqn:E; [|done].
  assert (H : is_Some (h !! fresh_loc h)) by (by rewrite E).
  apply fresh_loc_bound in H. lia.
Qed.

Lemma alloc_lookup (a : list Q) (h : store) (l : loc) (b : list Q) :
  h !! l = Some b -> snd (alloc a h) !! l = Some b.
Proof.
  intros Hl. unfold alloc. simpl. rewrite <- Hl.
  apply lookup_insert_ne. intros E. subst l.
  pose proof (fresh_loc_None h). congruence.
Qed.

Lemma alloc_fresh (a : list Q) (h : store) :
  h !! fst (alloc a h) = None /\ snd (alloc a h) !! fst (alloc a h) = Some a.
Proof.
  unfold alloc. simpl. split; [apply fresh_loc_None | apply lookup_insert_eq].
Qed.

Lemma zero_unresolved_other (mri : Q) (ivar : loc) (R : option dia_matrix)
    (h : store) (l : loc) :
  l <> ivar -> fst (zero_unresolved mri ivar R h) !! l = h !! l.
Proof.
  intros Hne. unfold zero_unresolved. destruct R as [r|]; [|done].
  destruct (h !! ivar); [|done]. destruct (_ =? _)%nat; [|done].
  simpl. by apply lookup_insert_ne.
Qed.

Lemma zero_unresolved_dom (mri : Q) (ivar : loc) (R : option dia_matrix)
    (h : store) (l : loc) :
  h !! l = None -> fst (zero_unresolved mri ivar R h) !! l = None.
Proof.
  intros Hl. unfold zero_unresolved. destruct R as [r|]; [|done].
  destruct (h !! ivar) eqn:E; [|done]. destruct (_ =? _)%nat; [|done].
  simpl. rewrite <- Hl. apply lookup_insert_ne. intros <-. congruence.
Qed.

Section CoaddFacts.

Variable min_resolution_integral : Q.
Variable py_hash : nat * Q * Q * Q * Q * option nat -> Z.
Variable set_iter : list Z -> list Z.
Variable tocsr : dia_matrix -> csr_matrix.

Local Abbreviation coadd_key :=
  (Target.coadd_key min_resolution_integral py_hash tocsr).
Local Abbreviation coadd_keys :=
  (Target.coadd_keys min_resolution_integral py_hash tocsr).
Local Abbreviation compute_coadd :=
  (Target.compute_coadd min_resolution_integral py_hash set_iter tocsr).

(** What one pass of the outer loop leaves: either the store untouched and
    an exception, or two new arrays and the spectrum built on them. *)
Lemma coadd_key_cases (cache : bool) (nsig : Q) (ss : list Spectrum)
    (h : store) (key : Z) :
  (exists e, coadd_key cache nsig ss h key = (h, inl e))
  \/ (exists g fl w Rd R0,
        gather_all py_hash nsig h key None ss = inr (Some g)
        /\ combine nsig g = inr (fl, w, Rd)
        /\ dia_matrix_new Rd (g_offsets g) (shape1 Rd) = inr R0
        /\ coadd_key cache nsig ss h key
           = (fst (zero_unresolved min_resolution_integral
                     (fresh_loc (<[fresh_loc h := fl]> h)) (Some R0)
                     (<[fresh_loc (<[fresh_loc h := fl]> h) := w]>
                        (<[fresh_loc h := fl]> h))),
              lift (snd (Spectrum_init min_resolution_integral (g_wave g)
                           (fresh_loc h)
                           (fresh_loc (<[fresh_loc h := fl]> h)) (Some R0)
                           (if cache then Some (tocsr R0) else None)
                           (<[fresh_loc (<[fresh_loc h := fl]> h) := w]>
                              (<[fresh_loc h := fl]> h)))))).
Proof.
  unfold Target.coadd_key.
  destruct (gather_all _ _ _ _ _ _) as [e|[g|]] eqn:Eg;
    [left; eauto | | left; eauto].
  destruct (combine nsig g) as [e|[[fl w] Rd]] eqn:Ec; [left; eauto|].
  destruct (dia_matrix_new _ _ _) as [e|R0] eqn:Ed; [left; eauto|].
  right. exists g, fl, w, Rd, R0. split; [done|]. split; [done|]. split; [done|].
  unfold alloc. cbn [fst snd].
  rewrite <- Spectrum_init_fst
    with (wave := g_wave g) (flux := fresh_loc h)
         (Rcsr := if cache then Some (tocsr R0) else None).
  by destruct (Spectrum_init _ _ _ _ _ _ _).
Qed.

Lemma coadd_key_lookup (cache : bool) (nsig : Q) (ss : list Spectrum)
    (h : store) (key : Z) (l : loc) (a : list Q) :
  h !! l = Some a -> fst (coadd_key cache nsig ss h key) !! l = Some a.
Proof.
  intros Hl.
  destruct (coadd_key_cases cache nsig ss h key)
    as [(e & ->)|(g & fl & w & Rd & R0 & _ & _ & _ & ->)]; [done|].
  cbn [fst].
  pose proof (alloc_lookup fl h l a Hl) as H1.
  pose proof (alloc_lookup w _ l a H1) as H2.
  unfold alloc in H1, H2. cbn [fst snd] in H1, H2.
  rewrite zero_unresolved_other; [done|].
  intros ->. pose proof (fresh_loc_None (<[fresh_loc h := fl]> h)). congruence.
Qed.

Lemma coadd_keys_lookup (cache : bool) (nsig : Q) (ss : list Spectrum)
    (keys : list Z) (h : store) (l : loc) (a : list Q) :
  h !! l = Some a -> fst (coadd_keys cache nsig ss h keys) !! l = Some a.
Proof.
  revert h. induction keys as [|key keys IH]; intros h Hl; [done|].
  simpl. pose proof (coadd_key_lookup cache nsig ss h key l a Hl) as H1.
  destruct (coadd_key cache nsig ss h key) as [h1 [e|spc]]; [done|].
  simpl in H1. specialize (IH h1 H1).
  by destruct (coadd_keys cache nsig ss h1 keys).
Qed.

Lemma compute_coadd_lookup {Meta : Type} (self : Target Meta) (cache : bool)
    (nsig : Q) (h : store) (l : loc) (a : list Q) :
  h !! l = Some a -> fst (compute_coadd self cache nsig h) !! l = Some a.
Proof.
  intros Hl. unfold Target.compute_coadd.
  pose proof (coadd_keys_lookup cache nsig (spectra self)
                (set_iter (map (fun s => py_hash (wavehash s)) (spectra self)))
                h l a Hl) as H.
  by destruct (coadd_keys _ _ _ _ _).
Qed.

End CoaddFacts.

Section CoaddShape.

Variable min_resolution_integral : Q.
Variable py_hash : nat * Q * Q * Q * Q * option nat -> Z.
Variable set_iter : list Z -> list Z.
Variable tocsr : dia_matrix -> csr_matrix.

Local Abbreviation coadd_key :=
  (Target.coadd_key min_resolution_integral py_hash tocsr).
Local Abbreviation coadd_keys :=
  (Target.coadd_keys min_resolution_integral py_hash tocsr).
Local Abbreviation compute_coadd :=
  (Target.compute_coadd min_resolution_integral py_hash set_iter tocsr).
Local Abbreviation coadd_of := (coadd_of py_hash).

Lemma gather_inr (nsig : Q) (h : store) (g : option Group) (s : Spectrum)
    (g1 : Group) :
  gather nsig h g s = inr g1 ->
  exists r, R s = Some r
    /\ match g with
       | None => g_wave g1 = wave s /\ g_offsets g1 = offsets r
       | Some g0 => g_wave g1 = g_wave g0 /\ g_offsets g1 = g_offsets g0
       end.
Proof.
  unfold gather. intros H. apply bindx_inr in H as (g' & Hg & H).
  apply bindx_inr in H as (fl & _ & H). apply bindx_inr in H as (iv & _ & H).
  apply bindx_inr in H as (gr & _ & H). inversion H; subst g1. clear H. simpl.
  destruct g as [g0|].
  - apply bindx_inr in Hg as (sw & _ & Hg). apply bindx_inr in Hg as (w & _ & Hg).
    destruct (negb _); [discriminate|].
    apply bindx_inr in Hg as (r & Hr & Hg). apply bindx_inr in Hg as (iv' & _ & Hg).
    apply bindx_inr in Hg as (X & _ & Hg). apply bindx_inr in Hg as (Rd & _ & Hg).
    inversion Hg; subst g'. simpl. exists r. split; [|done].
    unfold R_of in Hr. destruct (R s); by inversion Hr.
  - apply bindx_inr in Hg as (r & Hr & Hg). apply bindx_inr in Hg as (iv' & _ & Hg).
    apply bindx_inr in Hg as (Rd & _ & Hg).
    inversion Hg; subst g'. simpl. exists r. split; [|done].
    unfold R_of in Hr. destruct (R s); by inversion Hr.
Qed.

Lemma gather_all_some (nsig : Q) (h : store) (key : Z) (g0 : Group)
    (ss : list Spectrum) (g : option Group) :
  gather_all py_hash nsig h key (Some g0) ss = inr g ->
  (exists g1, g = Some g1 /\ g_wave g1 = g_wave g0
              /\ g_offsets g1 = g_offsets g0)
  /\ Forall (fun s => py_hash (wavehash s) = key -> is_Some (R s)) ss.
Proof.
  revert g0. induction ss as [|s ss IH]; intros g0 H; simpl in H.
  - inversion H. split; [by exists g0 | constructor].
  - destruct (Z.eqb_spec (py_hash (wavehash s)) key) as [E|E]; simpl in H.
    + apply bindx_inr in H as (g1 & Hg & H).
      apply gather_inr in Hg as (r & Hr & Hw & Ho).
      apply IH in H as ((g2 & -> & Hw2 & Ho2) & Hall). split.
      * exists g2. split; [done|]. split; congruence.
      * constructor; [by rewrite Hr | done].
    + apply IH in H as (H1 & Hall). split; [done|].
      constructor; [by intros ? | done].
Qed.

Lemma gather_all_none (nsig : Q) (h : store) (key : Z) (ss : list Spectrum)
    (g : Group) :
  gather_all py_hash nsig h key None ss = inr (Some g) ->
  (exists s r, first_of_key py_hash key ss = Some s /\ R s = Some r
               /\ g_wave g = wave s /\ g_offsets g = offsets r)
  /\ Forall (fun s => py_hash (wavehash s) = key -> is_Some (R s)) ss.
Proof.
  induction ss as [|s ss IH]; intros H; simpl in H; [discriminate|].
  unfold first_of_key. simpl.
  destruct (Z.eqb_spec (py_hash (wavehash s)) key) as [E|E]; simpl in H.
  - apply bindx_inr in H as (g1 & Hg & H).
    apply gather_inr in Hg as (r & Hr & Hw & Ho).
    apply gather_all_some in H as ((g2 & Hg2 & Hw2 & Ho2) & Hall).
    inversion Hg2; subst g2. split.
    + exists s, r. split; [done|]. split; [done|]. split; congruence.
    + constructor; [by rewrite Hr | done].
  - apply IH in H as (H1 & Hall). split; [done|].
    constructor; [by intros ? | done].
Qed.

Lemma dia_matrix_new_inr (d : list (list Q)) (offs : list Z) (n : nat)
    (r : dia_matrix) :
  dia_matrix_new d offs n = inr r ->
  r = {| data := d; offsets := offs; nrows := n; ncols := n |}
  /\ length d = length offs /\ NoDup offs.
Proof.
  unfold dia_matrix_new.
  destruct (Nat.eqb_spec (length d) (length offs)) as [E|E]; [|discriminate].
  simpl. destruct (bool_decide (NoDup offs)) eqn:En; [|discriminate].
  simpl. intros H. inversion H. apply bool_decide_eq_true in En. done.
Qed.

Lemma zero_unresolved_is_Some (ivar : loc) (R : option dia_matrix)
    (h : store) (l : loc) :
  is_Some (h !! l) ->
  is_Some (fst (zero_unresolved min_resolution_integral ivar R h) !! l).
Proof.
  intros Hl. destruct (decide (l = ivar)) as [->|Hne].
  - unfold zero_unresolved. destruct R as [r|]; [|done].
    destruct Hl as [a Ha]. rewrite Ha. destruct (_ =? _)%nat; simpl.
    + eexists. apply lookup_insert_eq.
    + by rewrite Ha.
  - by rewrite zero_unresolved_other.
Qed.

Lemma coadd_key_inr (cache : bool) (nsig : Q) (ss : list Spectrum)
    (h h1 : store) (key : Z) (spc : Spectrum) :
  coadd_key cache nsig ss h key = (h1, inr spc) ->
  coadd_of ss h h1 key spc
  /\ Forall (fun s => py_hash (wavehash s) = key -> is_Some (R s)) ss.
Proof.
  intros H.
  destruct (coadd_key_cases min_resolution_integral py_hash tocsr cache nsig ss h key)
    as [(e & He)|(g & fl & w & Rd & R0 & Hg & _ & Hd & He)];
    rewrite He in H; [by inversion H|].
  pose proof (f_equal fst H) as Hh. pose proof (f_equal snd H) as Hs.
  cbn [fst snd] in Hh, Hs. clear H He. rewrite <- Hh. clear Hh.
  apply lift_inr in Hs. apply Spectrum_init_fields in Hs as (Hw & Hf & Hi & HR).
  apply gather_all_none in Hg as ((s & r & Hfirst & Hr & Hgw & Hgo) & Hall).
  apply dia_matrix_new_inr in Hd as (-> & _ & _).
  split; [|done].
  exists s, r, {| data := Rd; offsets := g_offsets g;
                  nrows := shape1 Rd; ncols := shape1 Rd |}.
  rewrite Hw, Hf, Hi, HR.
  pose proof (fresh_loc_None h) as Hn1.
  pose proof (fresh_loc_None (<[fresh_loc h := fl]> h)) as Hn2.
  assert (Hs1 : <[fresh_loc h := fl]> h !! fresh_loc h = Some fl)
    by apply lookup_insert_eq.
  revert Hn2 Hs1 Hi.
  generalize (fresh_loc (<[fresh_loc h := fl]> h)) as lw.
  intros lw Hn2 Hs1 Hi.
  assert (Hne : fresh_loc h <> lw) by congruence.
  assert (Hn3 : h !! lw = None).
  { rewrite <- Hn2. symmetry. by apply lookup_insert_ne. }
  assert (Hs2 : <[lw := w]> (<[fresh_loc h := fl]> h) !! fresh_loc h = Some fl).
  { rewrite <- Hs1. by apply lookup_insert_ne. }
  split_and!; try done.
  - rewrite zero_unresolved_other by done. by eexists.
  - apply zero_unresolved_is_Some. eexists. apply lookup_insert_eq.
Qed.

Lemma coadd_of_weaken (ss : list Spectrum) (h h1 h' h'' : store) (key : Z)
    (spc : Spectrum) :
  (forall l a, h !! l = Some a -> h1 !! l = Some a) ->
  (forall l a, h' !! l = Some a -> h'' !! l = Some a) ->
  coadd_of ss h1 h' key spc -> coadd_of ss h h'' key spc.
Proof.
  intros H1 H2 (s & r & r' & Hf & Hr & Hw & HR & Ho & Hn & Hx & Hy & Hne & Hsx & Hsy).
  exists s, r, r'. split_and!; try done.
  - destruct (h !! flux spc) eqn:E; [|done]. apply H1 in E. congruence.
  - destruct (h !! ivar spc) eqn:E; [|done]. apply H1 in E. congruence.
  - destruct Hsx as [a Ha]. exists a. by apply H2.
  - destruct Hsy as [a Ha]. exists a. by apply H2.
Qed.

Lemma coadd_keys_inr (cache : bool) (nsig : Q) (ss : list Spectrum)
    (keys : list Z) (h h' : store) (out : list Spectrum) :
  coadd_keys cache nsig ss h keys = (h', inr out) ->
  Forall2 (coadd_of ss h h') keys out
  /\ Forall (fun s => In (py_hash (wavehash s)) keys -> is_Some (R s)) ss.
Proof.
  revert h out. induction keys as [|key keys IH]; intros h out H; simpl in H.
  - inversion H. split; [constructor|].
    apply List.Forall_forall. intros s _ [].
  - destruct (coadd_key cache nsig ss h key) as [h1 [e|spc]] eqn:Ek;
      [by inversion H|].
    destruct (coadd_keys cache nsig ss h1 keys) as [h2 [e|rest]] eqn:Er;
      [by inversion H|].
    simpl in H. inversion H; subst h2 out. clear H.
    apply coadd_key_inr in Ek as Hk. destruct Hk as (Hk & Hall1).
    apply IH in Er as Hr. destruct Hr as (Hr & Hall2).
    assert (M1 : forall l a, h !! l = Some a -> h1 !! l = Some a).
    { intros l a Hl.
      pose proof (coadd_key_lookup min_resolution_integral py_hash tocsr
                    cache nsig ss h key l a Hl) as HH.
      by rewrite Ek in HH. }
    assert (M2 : forall l a, h1 !! l = Some a -> h' !! l = Some a).
    { intros l a Hl.
      pose proof (coadd_keys_lookup min_resolution_integral py_hash tocsr
                    cache nsig ss keys h1 l a Hl) as HH.
      by rewrite Er in HH. }
    split.
    + constructor.
      * by apply (coadd_of_weaken ss h h h1 h').
      * eapply Forall2_impl; [exact Hr|]. intros k spc' Hc.
        by apply (coadd_of_weaken ss h h1 h' h').
    + rewrite List.Forall_forall in *. intros s Hs [E|Hin].
      * by apply (Hall1 s Hs).
      * by apply (Hall2 s Hs).
Qed.

End CoaddShape.

(** *** Arrays of one shape *)

Lemma broadcast_same (f : Q -> Q -> Q) (a b : list Q) :
  length a = length b -> broadcast f a b = inr (zip_with f a b).
Proof. intros E. unfold broadcast. by rewrite E, Nat.eqb_refl. Qed.

Lemma broadcast_to_same (f : Q -> Q -> Q) (a b : list Q) :
  length b = length a -> broadcast_to f a b = inr (zip_with f a b).
Proof. intros E. unfold broadcast_to. by rewrite E, Nat.eqb_refl. Qed.

Lemma rows_op_same (f : Q -> Q -> Q) (M : list (list Q)) (v : list Q) :
  Forall (fun row => length row = length v) M ->
  rows_op f M v = inr (map (fun row => zip_with f row v) M).
Proof.
  intros H. apply mapM_total. eapply Forall_impl; [exact H|].
  intros row Hr. by apply broadcast_same.
Qed.

Lemma rows_iop_same (f : Q -> Q -> Q) (M : list (list Q)) (v : list Q) :
  Forall (fun row => length row = length v) M ->
  rows_iop f M v = inr (map (fun row => zip_with f row v) M).
Proof.
  intros H. apply mapM_total. eapply Forall_impl; [exact H|].
  intros row Hr. by apply broadcast_to_same.
Qed.

Lemma Forall_zip_same (n : nat) (A B : list (list Q)) :
  Forall (fun r => length r = n) A -> Forall (fun r => length r = n) B ->
  Forall (fun ab : list Q * list Q => length (fst ab) = n /\ length (snd ab) = n)
         (zip A B).
Proof.
  intros HA. revert B. induction HA as [|a A Ha _ IH]; intros B HB; [constructor|].
  destruct HB as [|b B Hb HB]; [constructor|].
  simpl. constructor; [done | by apply IH].
Qed.

Lemma rows_op2_same (f : Q -> Q -> Q) (n : nat) (A B : list (list Q)) :
  Forall (fun r => length r = n) A -> Forall (fun r => length r = n) B ->
  rows_op2 f A B = inr (map (fun ab => zip_with f (fst ab) (snd ab)) (zip A B)).
Proof.
  intros HA HB. apply mapM_total.
  eapply Forall_impl; [apply (Forall_zip_same n); done|].
  intros [a b] [Ha Hb]. simpl in *. apply broadcast_same. congruence.
Qed.

Lemma rows_iop2_same (f : Q -> Q -> Q) (n : nat) (A B : list (list Q)) :
  length B = length A ->
  Forall (fun r => length r = n) A -> Forall (fun r => length r = n) B ->
  rows_iop2 f A B = inr (map (fun ab => zip_with f (fst ab) (snd ab)) (zip A B)).
Proof.
  intros E HA HB. unfold rows_iop2. rewrite E, Nat.eqb_refl. apply mapM_total.
  eapply Forall_impl; [apply (Forall_zip_same n); done|].
  intros [a b] [Ha Hb]. simpl in *. apply broadcast_to_same. congruence.
Qed.

Lemma Forall_map_zip_with (f : Q -> Q -> Q) (n : nat) (M : list (list Q))
    (v : list Q) :
  length v = n -> Forall (fun r => length r = n) M ->
  Forall (fun r => length r = n) (map (fun row => zip_with f row v) M).
Proof.
  intros Hv H. apply List.Forall_map. eapply Forall_impl; [exact H|].
  intros r Hr. simpl in *. rewrite length_zip_with. lia.
Qed.

Lemma Forall_zip_with_rows (f : Q -> Q -> Q) (n : nat) (A B : list (list Q)) :
  Forall (fun r => length r = n) A -> Forall (fun r => length r = n) B ->
  Forall (fun r => length r = n)
         (map (fun ab => zip_with f (fst ab) (snd ab)) (zip A B)).
Proof.
  intros HA HB. apply List.Forall_map.
  eapply Forall_impl; [apply (Forall_zip_same n); done|].
  intros [a b] [Ha Hb]. simpl in *. rewrite length_zip_with. lia.
Qed.

Lemma np_array2_same (n : nat) (M : list (list Q)) :
  Forall (fun r => length r = n) M -> np_array2 M = inr M.
Proof.
  intros H. destruct H as [|r M Hr HM]; [done|]. unfold np_array2.
  replace (forallb _ M) with true; [done|]. symmetry. apply forallb_forall.
  rewrite List.Forall_forall in HM. intros r' Hr'.
  apply Nat.eqb_eq. rewrite (HM r' Hr'). done.
Qed.

(** *** Column sums *)

Lemma nth_zip_with_gen {A B C : Type} (f : A -> B -> C) (a : list A)
    (b : list B) (j : nat) (da : A) (db : B) (dc : C) :
  (j < length a)%nat -> (j < length b)%nat ->
  nth j (zip_with f a b) dc = f (nth j a da) (nth j b db).
Proof.
  revert b j. induction a as [|x a IH]; intros [|y b] [|j] Ha Hb;
    simpl in *; try lia; [done|]. apply IH; lia.
Qed.

Lemma nth_zip_with (f : Q -> Q -> Q) (a b : list Q) (j : nat) :
  (j < length a)%nat -> (j < length b)%nat ->
  nth j (zip_with f a b) 0 = f (nth j a 0) (nth j b 0).
Proof.
  revert b j. induction a as [|x a IH]; intros [|y b] [|j] Ha Hb;
    simpl in *; try lia; [done|]. apply IH; lia.
Qed.

Lemma fold_zip_length (n : nat) (rs : list (list Q)) (r : list Q) :
  length r = n -> Forall (fun r' => length r' = n) rs ->
  length (fold_left (zip_with Qplus) rs r) = n.
Proof.
  intros Hr H. revert r Hr. induction H as [|r' rs Hr' _ IH]; intros r Hr; [done|].
  simpl. apply IH. rewrite length_zip_with. lia.
Qed.

Lemma fold_zip_nth (n : nat) (rs : list (list Q)) (r : list Q) (j : nat) :
  length r = n -> Forall (fun r' => length r' = n) rs -> (j < n)%nat ->
  nth j (fold_left (zip_with Qplus) rs r) 0 == nth j r 0 + Qsum (column rs j).
Proof.
  intros Hr H Hj. revert r Hr. induction H as [|r' rs Hr' _ IH]; intros r Hr.
  - simpl. ring.
  - simpl. rewrite IH by (rewrite length_zip_with; lia).
    rewrite nth_zip_with by lia. ring.
Qed.

Lemma col_sums_length (n : nat) (M : list (list Q)) :
  M <> [] -> Forall (fun r => length r = n) M -> length (col_sums M) = n.
Proof.
  intros Hne H. destruct H as [|r rs Hr H]; [done|]. by apply fold_zip_length.
Qed.

Lemma col_sums_nth (n : nat) (M : list (list Q)) (j : nat) :
  Forall (fun r => length r = n) M -> (j < n)%nat ->
  nth j (col_sums M) 0 == Qsum (column M j).
Proof.
  intros H Hj. destruct H as [|r rs Hr H]; [by destruct j|].
  unfold col_sums. by rewrite (fold_zip_nth n).
Qed.

Lemma column_zip_mult (n : nat) (A B : list (list Q)) (j : nat) :
  length A = length B ->
  Forall (fun r => length r = n) A -> Forall (fun r => length r = n) B ->
  (j < n)%nat ->
  column (map (fun ab => zip_with Qmult (fst ab) (snd ab)) (zip A B)) j
  = zip_with Qmult (column A j) (column B j).
Proof.
  intros E HA. revert B E. induction HA as [|a A Ha _ IH]; intros [|b B] E HB Hj;
    simpl in *; try lia; try done.
  inversion HB; subst. rewrite nth_zip_with by lia. f_equal. apply IH; [lia|done..].
Qed.

(** *** Masks *)

Lemma select_length (a b : list Q) (mask : list bool) :
  length a = length mask -> length b = length mask ->
  length (select a mask) = length (select b mask).
Proof.
  revert a b. induction mask as [|m mask IH]; intros [|x a] [|y b] Ha Hb;
    simpl in *; try lia; try done.
  destruct m; simpl; rewrite (IH a b); lia.
Qed.

Lemma put_select_nth (g : Q -> Q) (a b : list Q) (mask : list bool) (j : nat) :
  length a = length mask -> length b = length mask -> (j < length mask)%nat ->
  nth j (put a mask (map g (select b mask))) 0
  = if nth j mask false then g (nth j b 0) else nth j a 0.
Proof.
  revert a b j. induction mask as [|m mask IH]; intros [|x a] [|y b] j Ha Hb Hj;
    simpl in *; try lia.
  destruct m; simpl; destruct j as [|j]; try done; apply IH; lia.
Qed.

Lemma put_length (a : list Q) (mask : list bool) (vals : list Q) :
  length (put a mask vals) = length a.
Proof.
  revert mask vals. induction a as [|x a IH]; intros [|m mask] vals; try done.
  simpl. destruct m; [destruct vals|]; simpl; by rewrite IH.
Qed.

Section CoaddGrid.

Variable min_resolution_integral : Q.
Variable py_hash : nat * Q * Q * Q * Q * option nat -> Z.
Variable set_iter : list Z -> list Z.
Variable tocsr : dia_matrix -> csr_matrix.
Variable h : store.
Variable n nd : nat.


Lemma select_none (a : list Q) (mask : list bool) :
  Forall (fun b => b = false) mask -> select a mask = [].
Proof.
  intros H. revert a. induction H as [|b mask -> _ IH]; intros [|x a]; try done.
  simpl. apply IH.
Qed.

Lemma select_some (a : list Q) (mask : list bool) (p : nat) :
  length a = length mask -> nth p mask false = true -> select a mask <> [].
Proof.
  revert a p. induction mask as [|b mask IH]; intros [|x a] p Hl Hp;
    simpl in *; try lia; try (by destruct p).
  destruct b; [done|]. destruct p as [|p]; [done|]. apply (IH a p); [lia | done].
Qed.

Lemma put_keep (a : list Q) (mask : list bool) (vals : list Q) (p : nat) :
  nth p mask false = false -> nth p (put a mask vals) 0 = nth p a 0.
Proof.
  revert mask vals p. induction a as [|x a IH]; intros [|b mask] vals p Hp;
    try done.
  destruct b.
  - destruct p as [|p]; [done|]. simpl in Hp.
    destruct vals; simpl; by apply IH.
  - destruct p as [|p]; [done|]. simpl in *. by apply IH.
Qed.

Lemma np_interp_ok (x xp fp : list Q) :
  length xp = length fp -> xp <> [] ->
  exists r, np_interp x xp fp = inr r /\ length r = length x.
Proof.
  intros E Hne. unfold np_interp. rewrite E, Nat.eqb_refl. simpl.
  destruct xp as [|x0 xp]; [done|]. destruct fp as [|y0 fp]; [done|].
  eexists. split; [reflexivity|]. by rewrite length_map.
Qed.

(** An exposure without a sample of positive weight stops the gradient:
    [np.interp] has no sample point left. *)
Lemma gradient_dead (w f iv : list Q) :
  length w = length iv -> length f = length iv ->
  Forall (fun v => v <= 0) iv ->
  gradient w f iv = inl ValueError.
Proof.
  intros Hw Hf Hd. unfold gradient, np_select.
  rewrite !length_map, Hw, Hf, Nat.eqb_refl. cbn beta iota delta [bind ret].
  rewrite !(select_none _ (map (fun v => Qltb 0 v) iv)); [done|..];
    apply List.Forall_map; (eapply Forall_impl; [exact Hd|]);
    intros v Hv; simpl; apply Qltb_ge; exact Hv.
Qed.

(** An exposure with a sample of positive weight has a gradient. *)
Lemma gradient_live (w f iv : list Q) :
  length w = length iv -> length f = length iv ->
  Exists (fun v => 0 < v) iv ->
  exists r, gradient w f iv = inr r.
Proof.
  intros Hw Hf Hl.
  assert (Hp : exists p, (p < length iv)%nat /\ 0 < nth p iv 0).
  { clear -Hl. induction Hl as [v iv Hv|v iv _ (p & Hp & Hv)].
    - exists 0%nat. simpl. split; [lia | done].
    - exists (S p). simpl. split; [lia | done]. }
  destruct Hp as (p & Hp & Hv).
  set (good := map (fun v => Qltb 0 v) iv).
  set (bad := map (fun v => Qeq_bool v 0) iv).
  assert (Hgl : length good = length iv) by (unfold good; by rewrite length_map).
  assert (Hbl : length bad = length iv) by (unfold bad; by rewrite length_map).
  assert (Hgp : nth p good false = true).
  { unfold good.
    rewrite (nth_indep _ false (Qltb 0 0)) by (rewrite length_map; lia).
    rewrite List.map_nth. by apply Qltb_lt. }
  assert (Hbp : nth p bad false = false).
  { unfold bad.
    rewrite (nth_indep _ false (Qeq_bool 0 0)) by (rewrite length_map; lia).
    rewrite List.map_nth. destruct (Qeq_bool (nth p iv 0) 0) eqn:E; [|done].
    apply Qeq_bool_iff in E. rewrite E in Hv. by apply Qlt_irrefl in Hv. }
  unfold gradient, np_select. fold good. fold bad.
  rewrite Hgl, Hbl, Hw, Hf, Nat.eqb_refl. cbn beta iota delta [bind ret].
  destruct (np_interp_ok (select w bad) (select w good) (select f good))
    as (fb & -> & Hfb).
  { apply select_length; congruence. }
  { apply (select_some _ _ p); [congruence | done]. }
  cbn beta iota delta [bind]. unfold np_put.
  rewrite Hbl, Hf, Nat.eqb_refl, Hfb.
  replace (length (select w bad) =? length (select f bad))%nat with true
    by (symmetry; apply Nat.eqb_eq; apply select_length; congruence).
  cbn beta iota delta [negb bind ret].
  destruct (np_interp_ok (select w bad) (select w good) (select iv good))
    as (ib & -> & Hib).
  { apply select_length; congruence. }
  { apply (select_some _ _ p); [congruence | done]. }
  cbn beta iota delta [bind].
  rewrite Hib.
  replace (length (select w bad) =? length (select iv bad))%nat with true
    by (symmetry; apply Nat.eqb_eq; apply select_length; congruence).
  cbn beta iota delta [negb bind ret].
  set (tivar := put iv bad ib).
  assert (Htl : length tivar = length iv) by apply put_length.
  assert (Htp : nth p (map (fun v => Qltb 0 v) tivar) false = true).
  { rewrite (nth_indep _ false (Qltb 0 0)) by (rewrite length_map; lia).
    rewrite List.map_nth. unfold tivar. rewrite put_keep by done.
    by apply Qltb_lt. }
  destruct (select tivar (map (fun v => Qltb 0 v) tivar)) as [|m rest] eqn:Es.
  { exfalso. revert Es. apply (select_some _ _ p); [by rewrite length_map | done]. }
  cbn beta iota delta [np_min bind ret].
  destruct (put f bad fb) as [|t0 trest] eqn:Et.
  { exfalso. pose proof (put_length f bad fb) as Hpl. rewrite Et in Hpl.
    simpl in Hpl. lia. }
  eexists. reflexivity.
Qed.

Lemma gather_run (nsig : Q) (g : option Group) (s : Spectrum)
    (fi : list Q * list Q) (fis : list (list Q * list Q)) :
  exposure h n nd s fi ->
  match g with
  | None => fis = []
  | Some g0 => gathered h n nd g0 fis
  end ->
  exists wv, length wv = n
    /\ match (if Qltb 0 nsig then gradient wv (fst fi) (snd fi)
              else inr ([], [])) with
       | inl e => gather nsig h g s = inl (Exn e)
       | inr _ =>
         exists g1, gather nsig h g s = inr g1
           /\ gathered h n nd g1 (fis ++ [fi])
           /\ (Qltb 0 nsig = false ->
               g_grad g1 = match g with None => [] | Some g0 => g_grad g0 end)
       end.
Proof.
  intros (Hf & Hfl & Hi & Hil & w & r & Hw & Hwl & Hr & Hd & Hdl & Ho & Hnd) Hg.
  unfold gather, R_of. rewrite Hr.
  assert (HX : rows_op Qmult (data r) (snd fi)
               = inr (map (fun row => zip_with Qmult row (snd fi)) (data r))).
  { apply rows_op_same. eapply Forall_impl; [exact Hdl|]. simpl. congruence. }
  assert (HXl : Forall (fun d => length d = n)
                       (map (fun row => zip_with Qmult row (snd fi)) (data r)))
    by by apply Forall_map_zip_with.
  assert (Hgrad : forall w0 wv gr0 gv0,
             h !! w0 = Some wv ->
             match (if Qltb 0 nsig then gradient wv (fst fi) (snd fi)
                    else inr ([], [])) with
             | inl e =>
               (if Qltb 0 nsig
                then dox w' <- lift (deref h w0);
                     dox tg <- lift (gradient w' (fst fi) (snd fi));
                     inr (gr0 ++ [fst tg], gv0 ++ [snd tg])
                else inr (gr0, gv0)) = inl (Exn e)
             | inr _ =>
               exists gr,
                 (if Qltb 0 nsig
                  then dox w' <- lift (deref h w0);
                       dox tg <- lift (gradient w' (fst fi) (snd fi));
                       inr (gr0 ++ [fst tg], gv0 ++ [snd tg])
                  else inr (gr0, gv0)) = inr gr
                 /\ (Qltb 0 nsig = false -> fst gr = gr0)
             end).
  { intros w0 wv gr0 gv0 Hw0. unfold deref. rewrite Hw0.
    destruct (Qltb 0 nsig) eqn:En.
    - cbn beta iota delta [bindx lift ret].
      destruct (gradient wv (fst fi) (snd fi)) as [e|tg]; [done|].
      cbn beta iota delta [bindx lift]. eexists. split; [done | discriminate].
    - eexists. split; done. }
  unfold deref in Hgrad.
  destruct g as [g0|].
  - destruct Hg as (Hgf & Hgi & Hgn & Hgl & (w0 & Hw0 & Hw0l) & Hgo & Hgd).
    exists w0. split; [done|].
    specialize (Hgrad (g_wave g0) w0 (g_grad g0) (g_gradvar g0) Hw0).
    cbn beta iota delta [bindx lift]. unfold deref. rewrite Hw, Hw0.
    cbn beta iota delta [bindx lift ret].
    replace (length w =? length w0)%nat with true
      by (symmetry; apply Nat.eqb_eq; congruence).
    cbn beta iota delta [negb bindx lift]. rewrite Hi.
    cbn beta iota delta [bindx lift ret]. rewrite HX.
    cbn beta iota delta [bindx lift].
    rewrite (rows_iop2_same Qplus n) by (try done; rewrite length_map; congruence).
    cbn beta iota delta [bindx lift]. rewrite Hf.
    cbn beta iota delta [bindx lift ret g_wave g_grad g_gradvar].
    destruct (if Qltb 0 nsig then gradient w0 (fst fi) (snd fi)
              else inr ([], [])) as [e|tg].
    { by rewrite Hgrad. }
    destruct Hgrad as (gr & -> & Hgr0).
    cbn beta iota delta [bindx]. eexists. split; [reflexivity|]. split.
    + unfold gathered. cbn [g_flux g_ivar g_Rdiags g_wave g_offsets].
      rewrite !map_app, Hgf, Hgi. split_and!; try done.
      * rewrite length_map, length_zip_with_l_eq; [done|].
        rewrite length_map. congruence.
      * by apply Forall_zip_with_rows.
      * by exists w0.
    + done.
  - subst fis. exists w. split; [done|].
    specialize (Hgrad (wave s) w [] [] Hw).
    cbn beta iota delta [bindx lift]. unfold deref. rewrite Hi.
    cbn beta iota delta [bindx lift ret]. rewrite HX.
    cbn beta iota delta [bindx lift]. rewrite Hf.
    cbn beta iota delta [bindx lift ret g_wave g_grad g_gradvar].
    destruct (if Qltb 0 nsig then gradient w (fst fi) (snd fi)
              else inr ([], [])) as [e|tg].
    { by rewrite Hgrad. }
    destruct Hgrad as (gr & -> & Hgr0).
    cbn beta iota delta [bindx]. eexists. split; [reflexivity|]. split.
    + unfold gathered. cbn [g_flux g_ivar g_Rdiags g_wave g_offsets app map].
      split_and!; try done.
      * by rewrite length_map.
      * by exists w.
    + done.
Qed.

Lemma gather_ok (nsig : Q) (g : option Group) (s : Spectrum)
    (fi : list Q * list Q) (fis : list (list Q * list Q)) :
  exposure h n nd s fi -> graded n nsig fi ->
  match g with
  | None => fis = []
  | Some g0 => gathered h n nd g0 fis
  end ->
  exists g1, gather nsig h g s = inr g1 /\ gathered h n nd g1 (fis ++ [fi])
    /\ (Qltb 0 nsig = false ->
        g_grad g1 = match g with None => [] | Some g0 => g_grad g0 end).
Proof.
  intros Hs Hgr Hg.
  destruct (gather_run nsig g s fi fis Hs Hg) as (wv & Hwv & H).
  destruct (Qltb 0 nsig) eqn:En; [|done].
  destruct (Hgr En wv Hwv) as (tg & Htg). by rewrite Htg in H.
Qed.

Lemma gather_dead (nsig : Q) (g : option Group) (s : Spectrum)
    (fi : list Q * list Q) (fis : list (list Q * list Q)) :
  exposure h n nd s fi -> Qltb 0 nsig = true ->
  Forall (fun v => v <= 0) (snd fi) ->
  match g with
  | None => fis = []
  | Some g0 => gathered h n nd g0 fis
  end ->
  gather nsig h g s = inl (Exn ValueError).
Proof.
  intros Hs En Hd Hg.
  destruct (gather_run nsig g s fi fis Hs Hg) as (wv & Hwv & H).
  rewrite En in H. destruct Hs as (_ & Hfl & _ & Hil & _).
  by rewrite gradient_dead in H by (done || congruence).
Qed.

Lemma gather_all_ok (nsig : Q) (key : Z) (ss : list Spectrum)
    (fis0 fis : list (list Q * list Q)) (g : option Group) :
  Forall2 (exposure h n nd) ss fis -> Forall (graded n nsig) fis ->
  Forall (fun s => py_hash (wavehash s) = key) ss ->
  match g with
  | None => fis0 = [] /\ ss <> []
  | Some g0 => gathered h n nd g0 fis0
  end ->
  exists g1, gather_all py_hash nsig h key g ss = inr (Some g1)
    /\ gathered h n nd g1 (fis0 ++ fis)
    /\ (Qltb 0 nsig = false ->
        g_grad g1 = match g with None => [] | Some g0 => g_grad g0 end).
Proof.
  intros Hss. revert fis0 g.
  induction Hss as [|s fi ss fis Hs _ IH]; intros fis0 g Hgr Hk Hg.
  - destruct g as [g0|]; [|by destruct Hg].
    exists g0. rewrite app_nil_r. done.
  - inversion Hgr; subst. inversion Hk; subst. simpl.
    replace (py_hash (wavehash s) =? py_hash (wavehash s))%Z with true
      by (symmetry; apply Z.eqb_refl).
    cbn beta iota delta [negb].
    destruct (gather_ok nsig g s fi fis0) as (g1 & -> & Hg1 & Hgrad); [done..| |].
    { destruct g; [done | by destruct Hg]. }
    cbn beta iota delta [bindx].
    destruct (IH (fis0 ++ [fi]) (Some g1)) as (g2 & -> & Hg2 & Hgrad2); [done..|].
    exists g2. split; [done|]. rewrite <- app_assoc in Hg2. split; [done|].
    intros E. rewrite (Hgrad2 E). by apply Hgrad.
Qed.

Lemma gather_all_dead (nsig : Q) (key : Z) (ss : list Spectrum)
    (fis0 fis : list (list Q * list Q)) (g : option Group) :
  Forall2 (exposure h n nd) ss fis ->
  Forall (fun s => py_hash (wavehash s) = key) ss ->
  Qltb 0 nsig = true ->
  Exists (fun fi => Forall (fun v => v <= 0) (snd fi)) fis ->
  match g with
  | None => fis0 = []
  | Some g0 => gathered h n nd g0 fis0
  end ->
  gather_all py_hash nsig h key g ss = inl (Exn ValueError).
Proof.
  intros Hss. revert fis0 g.
  induction Hss as [|s fi ss fis Hs _ IH]; intros fis0 g Hk En Hd Hg.
  - inversion Hd.
  - inversion Hk; subst. simpl.
    replace (py_hash (wavehash s) =? py_hash (wavehash s))%Z with true
      by (symmetry; apply Z.eqb_refl).
    cbn beta iota delta [negb].
    destruct (List.Exists_dec (fun v => 0 < v) (snd fi)) as [Hl|Hnl].
    { intros v. destruct (Qlt_le_dec 0 v); [by left | right].
      by apply Qle_not_lt. }
    + assert (Hgr : graded n nsig fi).
      { intros _ w Hw. destruct Hs as (_ & Hfl & _ & Hil & _).
        apply gradient_live; [congruence..|done]. }
      destruct (gather_ok nsig g s fi fis0 Hs Hgr Hg) as (g1 & -> & Hg1 & _).
      cbn beta iota delta [bindx].
      apply (IH (fis0 ++ [fi]) (Some g1)); try done.
      inversion Hd as [? ? Hdead|]; subst; [|done].
      exfalso. simpl in Hdead.
      apply List.Exists_exists in Hl as (v & Hv & Hpos).
      rewrite List.Forall_forall in Hdead. specialize (Hdead v Hv).
      by apply Qle_not_lt in Hdead.
    + rewrite (gather_dead nsig g s fi fis0 Hs En); [done| |done].
      apply List.Forall_forall. intros v Hv.
      destruct (Qlt_le_dec 0 v) as [Hpos|]; [|done].
      exfalso. apply Hnl. apply List.Exists_exists. by exists v.
Qed.

Lemma combine_ok (nsig : Q) (g : Group) (fis : list (list Q * list Q)) :
  gathered h n nd g fis -> fis <> [] ->
  Forall (fun fi => length (fst fi) = n /\ length (snd fi) = n) fis ->
  (1 <? length (g_grad g))%nat && Qltb 0 nsig = false ->
  exists F W Rd,
    combine nsig g = inr (F, W, Rd)
    /\ W = col_sums (map snd fis)
    /\ length F = n /\ length W = n
    /\ length Rd = nd /\ Forall (fun d => length d = n) Rd
    /\ forall j, (j < n)%nat ->
         let Wj := Qsum (column (map snd fis) j) in
         (~ Wj == 0 ->
          nth j F 0 * Wj == dot (column (map snd fis) j) (column (map fst fis) j))
         /\ (Wj == 0 ->
             nth j F 0 * inject_Z (Z.of_nat (length fis))
             == Qsum (column (map fst fis) j))
         /\ nth j W 0 == Wj.
Proof.
  intros (Hgf & Hgi & Hgn & Hgl & _ & _) Hne Hlen Hrej.
  assert (Hfs : Forall (fun r => length r = n) (map fst fis)).
  { apply List.Forall_map. eapply Forall_impl; [exact Hlen|]. by intros ? []. }
  assert (Hivs : Forall (fun r => length r = n) (map snd fis)).
  { apply List.Forall_map. eapply Forall_impl; [exact Hlen|]. by intros ? []. }
  assert (Hne1 : map fst fis <> []) by by destruct fis.
  assert (Hne2 : map snd fis <> []) by by destruct fis.
  unfold combine. rewrite Hgf, Hgi, Hrej.
  rewrite (np_array2_same n) by done. cbn beta iota delta [bind].
  rewrite (np_array2_same n) by done. cbn beta iota delta [bind ret].
  rewrite (rows_op2_same Qmult n) by done. cbn beta iota delta [bind].
  set (wf := map (fun ab => zip_with Qmult (fst ab) (snd ab))
                 (zip (map snd fis) (map fst fis))).
  set (W := col_sums (map snd fis)).
  set (U := col_sums (map fst fis)).
  set (isbad := map (fun w => Qeq_bool w 0) W).
  set (norm := zip_with (fun w (b : bool) => w + (if b then 1 else 0)) W isbad).
  assert (HWl : length W = n) by by apply col_sums_length.
  assert (HUl : length U = n) by by apply col_sums_length.
  assert (Hbl : length isbad = n) by (unfold isbad; by rewrite length_map).
  assert (Hnl : length norm = n)
    by (unfold norm; rewrite length_zip_with; lia).
  assert (Hwfr : Forall (fun r => length r = n) wf)
    by by apply Forall_zip_with_rows.
  assert (Hwfne : wf <> []).
  { unfold wf. destruct fis; [done|]. simpl. done. }
  assert (Hwfl : length (col_sums wf) = n) by by apply col_sums_length.
  rewrite broadcast_same by congruence. cbn beta iota delta [bind].
  unfold np_select. replace (length isbad =? length U)%nat with true
    by (symmetry; apply Nat.eqb_eq; congruence).
  cbn beta iota delta [bind ret]. unfold np_put.
  set (F0 := zip_with Qdiv (col_sums wf) norm).
  assert (HF0l : length F0 = n) by (unfold F0; rewrite length_zip_with; lia).
  replace (length isbad =? length F0)%nat with true
    by (symmetry; apply Nat.eqb_eq; congruence).
  rewrite length_map.
  replace (length (select U isbad) =? length (select F0 isbad))%nat with true
    by (symmetry; apply Nat.eqb_eq; apply select_length; congruence).
  cbn beta iota delta [negb bind ret].
  rewrite rows_iop_same by (eapply Forall_impl; [exact Hgl|]; simpl; congruence).
  cbn beta iota delta [bind ret].
  do 3 eexists. split; [reflexivity|]. split; [reflexivity|].
  split; [by rewrite put_length|]. split; [done|].
  split; [by rewrite length_map|]. split; [by apply Forall_map_zip_with|].
  intros j Hj. set (Wj := Qsum (column (map snd fis) j)).
  assert (HWj : nth j W 0 == Wj) by by apply (col_sums_nth n).
  assert (Hbj : nth j isbad false = Qeq_bool (nth j W 0) 0).
  { unfold isbad.
    rewrite (nth_indep _ false (Qeq_bool 0 0)) by (rewrite length_map; lia).
    apply List.map_nth. }
  rewrite put_select_nth by congruence. rewrite Hbj.
  split; [|split; [|done]].
  - intros HW0. destruct (Qeq_bool (nth j W 0) 0) eqn:E.
    { apply Qeq_bool_iff in E. rewrite HWj in E. contradiction. }
    unfold F0. rewrite nth_zip_with by lia.
    assert (Hn : nth j norm 0 == nth j W 0).
    { unfold norm. rewrite (nth_zip_with_gen _ W isbad j 0 false 0) by lia.
      rewrite Hbj. ring. }
    rewrite Hn.
    rewrite (col_sums_nth n) by done.
    unfold wf. rewrite (column_zip_mult n) by (try done; by rewrite !length_map).
    unfold dot. rewrite HWj. field. exact HW0.
  - intros HW0. destruct (Qeq_bool (nth j W 0) 0) eqn:E.
    + unfold U. rewrite (col_sums_nth n) by done. rewrite length_map.
      field. destruct fis as [|fi fis']; [done|]. simpl length.
      intros Hc. unfold Qeq in Hc. simpl in Hc. lia.
    + exfalso. apply Qeq_bool_neq in E. apply E. by rewrite HWj.
Qed.

End CoaddGrid.

Section CoaddOneGrid.

Variable min_resolution_integral : Q.
Variable py_hash : nat * Q * Q * Q * Q * option nat -> Z.
Variable set_iter : list Z -> list Z.
Variable tocsr : dia_matrix -> csr_matrix.

Local Abbreviation compute_coadd :=
  (Target.compute_coadd min_resolution_integral py_hash set_iter tocsr).

Lemma row_sums_length (r : dia_matrix) : length (row_sums r) = nrows r.
Proof. unfold row_sums. by rewrite length_map, length_seq. Qed.

Lemma dia_matrix_new_ok (d : list (list Q)) (offs : list Z) (n : nat) :
  length d = length offs -> NoDup offs ->
  dia_matrix_new d offs n
  = inr {| data := d; offsets := offs; nrows := n; ncols := n |}.
Proof.
  intros E Hn. unfold dia_matrix_new. rewrite E, Nat.eqb_refl.
  by rewrite (bool_decide_eq_true_2 _ Hn).
Qed.

(** The coadd of the exposures of one grid, rejection off. *)
Lemma coadd_one_grid {Meta : Type} (self : Target Meta) (cache : bool)
    (nsig : Q) (h : store) (n nd : nat) (fis : list (list Q * list Q)) :
  one_grid py_hash set_iter h n nd (spectra self) fis ->
  Qltb 0 nsig = false ->
  exists h' spc F A,
    compute_coadd self cache nsig h
    = (h', inr {| targetid := targetid self; spectra := [spc];
                  meta := meta self |})
    /\ h' !! flux spc = Some F /\ h' !! ivar spc = Some A
    /\ length F = n /\ length A = n
    /\ forall j, (j < n)%nat ->
         (~ Qsum (column (map snd fis) j) == 0 ->
          nth j F 0 * Qsum (column (map snd fis) j)
          == dot (column (map snd fis) j) (column (map fst fis) j))
         /\ (Qsum (column (map snd fis) j) == 0 ->
             nth j F 0 * inject_Z (Z.of_nat (length fis))
             == Qsum (column (map fst fis) j))
         /\ (nth j A 0 == Qsum (column (map snd fis) j) \/ nth j A 0 == 0).
Proof.
  intros (Hss & Hne & Hn2 & Hnd1 & key & Hkey & Hset) Hoff.
  assert (Hfne : fis <> []).
  { intros ->. inversion Hss. congruence. }
  assert (Hlen : Forall (fun fi => length (fst fi) = n /\ length (snd fi) = n) fis).
  { clear -Hss. induction Hss as [|s fi ss fis Hs _ IH]; constructor; [|done].
    destruct Hs as (_ & H1 & _ & H2 & _). done. }
  assert (Hgr : Forall (graded n nsig) fis).
  { apply List.Forall_forall. intros fi _ E. congruence. }
  destruct (gather_all_ok py_hash h n nd nsig key (spectra self) [] fis None
              Hss Hgr Hkey) as (g & Hg & Hgd & Hgrad); [done|].
  simpl in Hgd. specialize (Hgrad Hoff).
  destruct (combine_ok h n nd nsig g fis Hgd Hfne Hlen)
    as (F & W & Rd & Hc & HW & HFl & HWl & HRn & HRl & Hj).
  { by rewrite Hoff, andb_false_r. }
  destruct Hgd as (_ & _ & _ & _ & (w & Hw & Hwl) & Hol & Hond).
  unfold Target.compute_coadd. rewrite Hset.
  unfold Target.coadd_keys, Target.coadd_key. rewrite Hg, Hc.
  rewrite dia_matrix_new_ok by (done || congruence).
  unfold alloc. cbn [fst snd].
  set (lf := fresh_loc h). set (h1 := <[lf := F]> h).
  set (lw := fresh_loc h1). set (h2 := <[lw := W]> h1).
  set (R0 := {| data := Rd; offsets := g_offsets g;
                nrows := shape1 Rd; ncols := shape1 Rd |}).
  set (Rcsr := if cache then Some (tocsr R0) else None).
  assert (Hs1 : shape1 Rd = n).
  { destruct HRl as [|d Rd' Hd _]; [simpl in HRn; lia | done]. }
  assert (Hlf : h !! lf = None) by apply fresh_loc_None.
  assert (Hlw : h1 !! lw = None) by apply fresh_loc_None.
  assert (H1f : h1 !! lf = Some F) by apply lookup_insert_eq.
  assert (Hne' : lf <> lw) by congruence.
  assert (H2w : h2 !! lw = Some W) by apply lookup_insert_eq.
  assert (H2f : h2 !! lf = Some F).
  { rewrite <- H1f. apply lookup_insert_ne. congruence. }
  assert (Hwlf : g_wave g <> lf) by congruence.
  assert (Hwlw : g_wave g <> lw).
  { intros E. rewrite E in Hw.
    assert (h1 !! lw = Some w); [|congruence].
    rewrite <- Hw. apply lookup_insert_ne. congruence. }
  assert (H2wv : h2 !! g_wave g = Some w).
  { rewrite <- Hw. etransitivity; [apply lookup_insert_ne; congruence|].
    apply lookup_insert_ne. congruence. }
  assert (Hrs : length (row_sums R0) = length W).
  { rewrite row_sums_length. simpl. congruence. }
  pose proof (Spectrum_init_store min_resolution_integral (g_wave g) lf lw R0
                Rcsr h2 W H2w Hrs) as Hst.
  destruct (Spectrum_init_returns min_resolution_integral (g_wave g) lf lw R0
              Rcsr h2 W w H2w Hrs) as (spc & Hspc); [|lia|].
  { rewrite <- H2wv. apply lookup_insert_ne. congruence. }
  pose proof (Spectrum_init_fields min_resolution_integral _ _ _ _ _ _ _ Hspc)
    as (_ & Hsf & Hsi & _).
  destruct (Spectrum_init min_resolution_integral (g_wave g) lf lw (Some R0)
              Rcsr h2) as [h3 r3] eqn:E3.
  cbn [fst snd] in Hst, Hspc. subst h3 r3. cbn [lift bindx].
  exists (<[lw := mask_zero (unresolved min_resolution_integral R0) W]> h2),
         spc, F, (mask_zero (unresolved min_resolution_integral R0) W).
  split; [reflexivity|]. rewrite Hsf, Hsi.
  split. { rewrite <- H2f. apply lookup_insert_ne. congruence. }
  split. { apply lookup_insert_eq. }
  split; [done|].
  assert (Hml : length (unresolved min_resolution_integral R0) = n).
  { unfold unresolved. rewrite length_map, row_sums_length. done. }
  split. { unfold mask_zero. rewrite length_zip_with. lia. }
  intros j Hjn. destruct (Hj j Hjn) as (Ha & Hb & Hc'). cbn zeta in *.
  split; [done|]. split; [done|].
  unfold mask_zero.
  rewrite (nth_zip_with_gen _ _ W j false 0 0) by lia.
  destruct (nth j _ false); [by right | by left].
Qed.

End CoaddOneGrid.

Import coadd_examples.

Lemma dot_bounds (a b : list Q) (lo hi : Q) :
  length a = length b -> Forall (fun v => 0 <= v) a ->
  Forall (fun f => lo <= f /\ f <= hi) b ->
  lo * Qsum a <= dot a b /\ dot a b <= hi * Qsum a.
Proof.
  intros E Ha. revert b E. unfold dot.
  induction Ha as [|v a Hv _ IH]; intros [|f b] E Hb; simpl in *; try lia.
  - split; apply Qle_lteq; right; ring.
  - inversion Hb as [|? ? [Hlo Hhi] Hb']; subst.
    destruct (IH b) as [H1 H2]; [lia | done |].
    assert (lo * v <= v * f) by (rewrite (Qmult_comm v f); by apply Qmult_le_compat_r).
    assert (v * f <= hi * v) by (rewrite (Qmult_comm v f); by apply Qmult_le_compat_r).
    split; lra.
Qed.

Lemma Qsum_nonneg (a : list Q) : Forall (fun v => 0 <= v) a -> 0 <= Qsum a.
Proof.
  induction 1 as [|v a Hv _ IH]; simpl; [apply Qle_refl | lra].
Qed.

Lemma column_length (M : list (list Q)) (j : nat) :
  length (column M j) = length M.
Proof. unfold column. by rewrite length_map. Qed.

(** *** Properties of compute_coadd *)

(** X19.  [compute_coadd] never writes to an array that existed before the
    call, whether it returns or raises, with or without cosmic rejection:
    the arrays of the input spectra are left as they were. *)
Theorem compute_coadd_keeps_arrays (min_resolution_integral : Q)
    (py_hash : nat * Q * Q * Q * Q * option nat -> Z)
    (set_iter : list Z -> list Z) (tocsr : dia_matrix -> csr_matrix)
    {Meta : Type} (self : Target Meta) (cache_Rcsr : bool) (cosmics_nsig : Q)
    (h : store) (l : loc) (a : list Q) :
  h !! l = Some a ->
  fst (compute_coadd min_resolution_integral py_hash set_iter tocsr self
                     cache_Rcsr cosmics_nsig h) !! l = Some a.
Proof. apply compute_coadd_lookup. Qed.

Lemma compute_coadd_keeps_arrays_witness :
  store3 !! 3%positive = Some [1; 0; 2]
  /\ fst (compute_coadd (99 # 100) hash_len first_seen csr_of target3
                        false (1 # 10) store3) !! 3%positive
     = Some [1; 0; 2].
Proof.
  split; [reflexivity|].
  apply (compute_coadd_keeps_arrays (99 # 100) hash_len first_seen csr_of
           target3 false (1 # 10) store3 3%positive [1; 0; 2]).
  reflexivity.
Defined.

(** X20.  When [compute_coadd] returns, the target keeps its id and meta
    and holds one coadd per key of the set of hashes, in the order of the
    set.  The coadd of a key stands on the wavelength array of the first
    input spectrum of that key (the same array, not a copy), has a square
    resolution matrix on that spectrum's offsets, and has flux and weight
    arrays of its own, which no input spectrum shares. *)
Theorem compute_coadd_one_per_key (min_resolution_integral : Q)
    (py_hash : nat * Q * Q * Q * Q * option nat -> Z)
    (set_iter : list Z -> list Z) (tocsr : dia_matrix -> csr_matrix)
    {Meta : Type} (self t' : Target Meta) (cache_Rcsr : bool)
    (cosmics_nsig : Q) (h h' : store) :
  compute_coadd min_resolution_integral py_hash set_iter tocsr self
                cache_Rcsr cosmics_nsig h = (h', inr t') ->
  targetid t' = targetid self /\ meta t' = meta self
  /\ Forall2 (coadd_of py_hash (spectra self) h h')
             (set_iter (map (fun s => py_hash (wavehash s)) (spectra self)))
             (spectra t').
Proof.
  unfold compute_coadd. intros H.
  destruct (coadd_keys _ _ _ _ _ _ _ _) as [h1 [e|out]] eqn:E;
    [by inversion H|].
  simpl in H. inversion H; subst h1 t'. clear H. simpl.
  split; [done|]. split; [done|].
  by apply coadd_keys_inr in E as [E _].
Qed.

Lemma compute_coadd_one_per_key_witness :
  exists h' t',
    compute_coadd (99 # 100) hash_len first_seen csr_of target3 false 0 store3
    = (h', inr t')
    /\ Forall2 (coadd_of hash_len exposures3 store3 h') [3%Z] (spectra t').
Proof.
  eexists. eexists. split; [vm_compute; reflexivity|].
  refine (proj2 (proj2 (compute_coadd_one_per_key (99 # 100) hash_len
                          first_seen csr_of target3 _ false 0 store3 _ _))).
  vm_compute. reflexivity.
Defined.

(** X21.  A coadd needs the resolution matrix of every spectrum: if one
    spectrum of the target was built with [R = None], [compute_coadd]
    raises, whatever the other spectra and the rejection threshold are. *)
Theorem compute_coadd_needs_R (min_resolution_integral : Q)
    (py_hash : nat * Q * Q * Q * Q * option nat -> Z)
    (set_iter : list Z -> list Z) (tocsr : dia_matrix -> csr_matrix)
    {Meta : Type} (self : Target Meta) (cache_Rcsr : bool) (cosmics_nsig : Q)
    (h : store) (s : Spectrum) :
  (forall (l : list Z) (k : Z), In k l -> In k (set_iter l)) ->
  In s (spectra self) -> R s = None ->
  exists e,
    snd (compute_coadd min_resolution_integral py_hash set_iter tocsr self
                       cache_Rcsr cosmics_nsig h) = inl e.
Proof.
  intros Hset Hs HR. unfold compute_coadd.
  destruct (coadd_keys _ _ _ _ _ _ _ _) as [h1 [e|out]] eqn:E; [by exists e|].
  exfalso. apply coadd_keys_inr in E as [_ Hall].
  rewrite List.Forall_forall in Hall. destruct (Hall s Hs) as [r Hr]; [|congruence].
  apply Hset. by apply (in_map (fun s => py_hash (wavehash s))).
Qed.

Lemma compute_coadd_needs_R_witness :
  exists e,
    snd (compute_coadd (99 # 100) hash_len first_seen csr_of
           {| targetid := 7; spectra := examples.spectra2; meta := tt |}
           false 0 examples.store2) = inl e.
Proof.
  refine (compute_coadd_needs_R (99 # 100) hash_len first_seen csr_of
            {| targetid := 7; spectra := examples.spectra2; meta := tt |}
            false 0 examples.store2
            (examples.spectrum_at 1%positive 2%positive 3%positive 3 3600 3601)
            _ _ _).
  - intros l k Hk. unfold first_seen. apply list_elem_of_In.
    apply elem_of_remove_dups. by apply list_elem_of_In.
  - by left.
  - reflexivity.
Defined.



(** X23.  Under the same conditions the coadded flux is a mean in the
    proper sense: at a sample where no exposure has a negative weight and
    the summed weight is positive, it lies between any two bounds that hold
    the fluxes of all exposures at that sample. *)
Theorem compute_coadd_flux_bounds (min_resolution_integral : Q)
    (py_hash : nat * Q * Q * Q * Q * option nat -> Z)
    (set_iter : list Z -> list Z) (tocsr : dia_matrix -> csr_matrix)
    {Meta : Type} (self : Target Meta) (cache_Rcsr : bool) (cosmics_nsig : Q)
    (h : store) (n nd : nat) (fis : list (list Q * list Q))
    (j : nat) (lo hi : Q) :
  one_grid py_hash set_iter h n nd (spectra self) fis ->
  cosmics_nsig <= 0 -> (j < n)%nat ->
  Forall (fun v => 0 <= v) (column (map snd fis) j) ->
  0 < Qsum (column (map snd fis) j) ->
  Forall (fun f => lo <= f /\ f <= hi) (column (map fst fis) j) ->
  exists h' spc F,
    compute_coadd min_resolution_integral py_hash set_iter tocsr self
                  cache_Rcsr cosmics_nsig h
    = (h', inr {| targetid := targetid self; spectra := [spc];
                  meta := meta self |})
    /\ h' !! flux spc = Some F
    /\ lo <= nth j F 0 /\ nth j F 0 <= hi.
Proof.
  intros Hg Hoff Hj Hiv Hpos Hf.
  destruct (coadd_one_grid min_resolution_integral py_hash set_iter tocsr self
              cache_Rcsr cosmics_nsig h n nd fis Hg)
    as (h' & spc & F & A & Hc & HF & _ & _ & _ & Hform); [by apply Qltb_ge|].
  exists h', spc, F. split; [done|]. split; [done|].
  destruct (Hform j Hj) as (Hw & _ & _).
  assert (Hne : ~ Qsum (column (map snd fis) j) == 0).
  { intros E. rewrite E in Hpos. by apply Qlt_irrefl in Hpos. }
  specialize (Hw Hne).
  destruct (dot_bounds (column (map snd fis) j) (column (map fst fis) j) lo hi)
    as [H1 H2]; [by rewrite !column_length, !length_map | done..|].
  rewrite <- Hw in H1, H2.
  split.
  - by apply (Qmult_lt_0_le_reg_r _ _ (Qsum (column (map snd fis) j))).
  - by apply (Qmult_lt_0_le_reg_r _ _ (Qsum (column (map snd fis) j))).
Qed.

Lemma compute_coadd_flux_bounds_witness :
  exists h' spc F,
    compute_coadd (99 # 100) hash_len first_seen csr_of target3 false 0 store3
    = (h', inr {| targetid := 7; spectra := [spc]; meta := tt |})
    /\ h' !! flux spc = Some F
    /\ 1 <= nth 0 F 0 /\ nth 0 F 0 <= 3.
Proof.
  refine (compute_coadd_flux_bounds (99 # 100) hash_len first_seen csr_of
            target3 false 0 store3 3 1
            [([1; 2; 3], [1; 0; 2]); ([3; 4; 6], [3; 0; 0])] 0 1 3
            _ _ _ _ _ _).
  - split; [|split; [discriminate|split; [lia|split; [lia|]]]].
    + repeat constructor; simpl; try reflexivity;
        eexists; eexists; repeat split; try reflexivity;
        repeat constructor; set_solver.
    + exists 3%Z. split; [repeat constructor | reflexivity].
  - discriminate.
  - lia.
  - repeat constructor; discriminate.
  - reflexivity.
  - repeat constructor; discriminate.
Defined.

(** X24.  With cosmic rejection on ([cosmics_nsig > 0]), the coadd of the
    exposures of one grid raises [ValueError] as soon as one exposure has no
    sample of positive weight ([np.interp] is left without a sample point),
    and the store is as it was. *)
Theorem compute_coadd_dead_exposure (min_resolution_integral : Q)
    (py_hash : nat * Q * Q * Q * Q * option nat -> Z)
    (set_iter : list Z -> list Z) (tocsr : dia_matrix -> csr_matrix)
    {Meta : Type} (self : Target Meta) (cache_Rcsr : bool) (cosmics_nsig : Q)
    (h : store) (n nd : nat) (fis : list (list Q * list Q)) :
  one_grid py_hash set_iter h n nd (spectra self) fis ->
  0 < cosmics_nsig ->
  Exists (fun fi => Forall (fun v => v <= 0) (snd fi)) fis ->
  compute_coadd min_resolution_integral py_hash set_iter tocsr self
                cache_Rcsr cosmics_nsig h
  = (h, inl (Exn ValueError)).
Proof.
  intros (Hss & Hne & Hn2 & Hnd1 & key & Hkey & Hset) Hon Hdead.
  unfold compute_coadd. rewrite Hset. unfold coadd_keys, coadd_key.
  rewrite (gather_all_dead py_hash h n nd cosmics_nsig key (spectra self) [] fis
             None Hss Hkey); [done| |done..].
  by apply Qltb_lt.
Qed.

Lemma compute_coadd_dead_exposure_witness :
  compute_coadd (99 # 100) hash_len first_seen csr_of target3 false 5
                store3_dead
  = (store3_dead, inl (Exn ValueError)).
Proof.
  refine (compute_coadd_dead_exposure (99 # 100) hash_len first_seen csr_of
            target3 false 5 store3_dead 3 1
            [([1; 2; 3], [1; 0; 2]); ([3; 4; 6], [0; 0; 0])] _ _ _).
  - split; [|split; [discriminate|split; [lia|split; [lia|]]]].
    + repeat constructor; simpl; try reflexivity;
        eexists; eexists; repeat split; try reflexivity;
        repeat constructor; set_solver.
    + exists 3%Z. split; [repeat constructor | reflexivity].
  - reflexivity.
  - right. left. repeat constructor; discriminate.
Defined.
